(** * B+ tree with linked leaves (Python2/Data_Structures/b_plus_tree.py)

    A shallow embedding of the classes [BPlusNode] and [BPlusTree].  Python
    objects live in a store addressed by natural numbers; every attribute
    access is a load, every attribute assignment a store, so that the
    aliasing between the parent's child list and the leaf chain ([next]) is
    the one of the program.  Keys are integers, [t] is an integer. *)

From Stdlib Require Import ZArith Lia Sorted Permutation.
From stdpp Require Import base tactics option list numbers sets gmap sorting
  strings pretty.

Local Open Scope Z_scope.

(** ** Python list primitives *)

Module Py.

Section ops.
Context {A : Type}.
Implicit Types (l : list A) (i : Z) (x : A).

(** [l[i]]: negative indices count from the end, out of range raises. *)
Definition get l i : option A :=
  if 0 <=? i then l !! Z.to_nat i
  else if - Z.of_nat (length l) <=? i
       then l !! Z.to_nat (Z.of_nat (length l) + i)
       else None.

(** Normalisation of a slice (or [insert]) position: clamped to
    [0 .. len]. *)
Definition clamp l i : nat :=
  if 0 <=? i then Nat.min (Z.to_nat i) (length l)
  else Z.to_nat (Z.max 0 (Z.of_nat (length l) + i)).

(** [l[i:]] and [l[:i]]. *)
Definition from l i : list A := drop (clamp l i) l.
Definition upto l i : list A := take (clamp l i) l.

(** [l.insert(i, x)]. *)
Definition insert l i x : list A :=
  take (clamp l i) l ++ x :: drop (clamp l i) l.

(** [l.pop(i)]: the removed element and the remaining list. *)
Definition pop l i : option (A * list A) :=
  match get l i with
  | Some x =>
      let n := if 0 <=? i then Z.to_nat i
               else Z.to_nat (Z.of_nat (length l) + i) in
      Some (x, take n l ++ drop (S n) l)
  | None => None
  end.

(** [l[i] = x]. *)
Definition set l i x : option (list A) :=
  match get l i with
  | Some _ =>
      let n := if 0 <=? i then Z.to_nat i
               else Z.to_nat (Z.of_nat (length l) + i) in
      Some (<[n:=x]> l)
  | None => None
  end.

Definition len l : Z := Z.of_nat (length l).
End ops.

End Py.

(** ** The object store and the monad of the methods *)

(** Object references are positions in the store. *)
Abbreviation addr := nat.

(** class BPlusNode *)
Record BPlusNode := mkNode {
  leaf : bool;
  keys : list Z;
  children : list addr;
  next : option addr
}.

Definition set_keys (ks : list Z) (n : BPlusNode) : BPlusNode :=
  mkNode (leaf n) ks (children n) (next n).
Definition set_children (cs : list addr) (n : BPlusNode) : BPlusNode :=
  mkNode (leaf n) (keys n) cs (next n).
Definition set_next (nx : option addr) (n : BPlusNode) : BPlusNode :=
  mkNode (leaf n) (keys n) (children n) nx.

Abbreviation heap := (list BPlusNode).

(** What a method can raise: [IndexError] is Python's; [OutOfFuel] stands
    for a recursion or a loop that did not finish within the fuel given;
    [Dangling] for a reference to an object that is not in the store (no
    Python program produces one). *)
Inductive error := IndexError | OutOfFuel | Dangling.

Inductive outcome (A : Type) :=
| Ret (a : A) (h : heap)
| Raise (e : error).
Arguments Ret {A} a h.
Arguments Raise {A} e.

Definition M (A : Type) := heap -> outcome A.

Definition ret {A} (a : A) : M A := fun h => Ret a h.
Definition raise {A} (e : error) : M A := fun _ => Raise e.
Definition bind {A B} (m : M A) (f : A -> M B) : M B :=
  fun h => match m h with
           | Ret a h' => f a h'
           | Raise e => Raise e
           end.

Declare Scope py_scope.
Delimit Scope py_scope with py.
Notation "x <- m ;; f" := (bind m (fun x => f))
  (at level 100, m at next level, right associativity) : py_scope.
Notation "m ;;; f" := (bind m (fun _ => f))
  (at level 100, right associativity) : py_scope.
Local Open Scope py_scope.

(** An indexing that raises [IndexError] when Python does. *)
Definition index_or_raise {A} (o : option A) : M A :=
  match o with Some a => ret a | None => raise IndexError end.

(** Object creation: [BPlusNode(leaf=b)]. *)
Definition new_node (b : bool) : M addr :=
  fun h => Ret (length h) (h ++ [mkNode b [] [] None]).

(** Attribute read and attribute update of the object at [a]. *)
Definition load (a : addr) : M BPlusNode :=
  fun h => match h !! a with
           | Some n => Ret n h
           | None => Raise Dangling
           end.

Definition update (a : addr) (f : BPlusNode -> BPlusNode) : M unit :=
  fun h => match h !! a with
           | Some n => Ret tt (<[a:=f n]> h)
           | None => Raise Dangling
           end.

(** class BPlusTree: the two attributes of the index object. *)
Record BPlusTree := mkTree {
  root : addr;
  t : Z
}.

(** ** Loops over the keys of one node *)

(** [i = 0; while i < len(keys) and k > keys[i]: i += 1]
    (in [_search_internal], [_delete_internal] and [_find_leaf]). *)
Fixpoint scan_up (k : Z) (ks : list Z) : nat :=
  match ks with
  | [] => O
  | x :: ks' => if x <? k then S (scan_up k ks') else O
  end.

(** [while i >= 0 and k < keys[i]: i -= 1] started at [i = n - 1]; the
    result is [i + 1] (in [_insert_non_full]). *)
Fixpoint scan_down (k : Z) (ks : list Z) (n : nat) : nat :=
  match n with
  | O => O
  | S i => match ks !! i with
           | Some x => if k <? x then scan_down k ks i else S i
           | None => S i
           end
  end.

(** The leaf case of [_insert_non_full]: [x.keys.append(None)], then the
    loop [while i >= 0 and k < x.keys[i]: x.keys[i + 1] = x.keys[i]; i -= 1]
    started at [i = n - 1], which gives the shifted list and [i + 1], then
    [x.keys[i + 1] = k].  The appended slot holds [None] in the source; it
    is written before it is ever read, and is modelled by [0]. *)
Fixpoint shift_right (k : Z) (ks : list Z) (n : nat) : list Z * nat :=
  match n with
  | O => (ks, O)
  | S i => match ks !! i with
           | Some x =>
               if k <? x then shift_right k (<[S i:=x]> ks) i else (ks, S i)
           | None => (ks, S i)
           end
  end.

Definition insert_in_leaf (k : Z) (ks : list Z) : list Z :=
  let '(slots, j) := shift_right k (ks ++ [0]) (length ks) in
  <[j:=k]> slots.

(** ** The methods of BPlusTree *)

(** [BPlusTree.__init__]: no check on [t] is made. *)
Definition new (t0 : Z) : M BPlusTree :=
  r <- new_node true ;;
  ret (mkTree r t0).

(** [_search_internal]: the result is the leaf and the offset, or [None]. *)
Fixpoint search_internal (fuel : nat) (x : addr) (k : Z)
  : M (option (addr * nat)) :=
  match fuel with
  | O => raise OutOfFuel
  | S fuel' =>
      nx <- load x ;;
      let i := scan_up k (keys nx) in
      if leaf nx then
        match keys nx !! i with
        | Some ki => if ki =? k then ret (Some (x, i)) else ret None
        | None => ret None
        end
      else
        c <- index_or_raise (children nx !! i) ;;
        search_internal fuel' c k
  end.

Definition search (fuel : nat) (self : BPlusTree) (k : Z)
  : M (option (addr * nat)) :=
  search_internal fuel (root self) k.

(** [_split_child] *)
Definition split_child (t0 : Z) (x : addr) (i : nat) : M unit :=
  nx <- load x ;;
  y <- index_or_raise (children nx !! i) ;;
  ny <- load y ;;
  z <- new_node (leaf ny) ;;
  update x (fun n => set_children (Py.insert (children n) (Z.of_nat i + 1) z) n) ;;;
  ny <- load y ;;
  m <- index_or_raise (Py.get (keys ny) (t0 - 1)) ;;
  update x (fun n => set_keys (Py.insert (keys n) (Z.of_nat i) m) n) ;;;
  ny <- load y ;;
  update z (set_keys (Py.from (keys ny) t0)) ;;;
  update y (fun n => set_keys (Py.upto (keys n) t0) n) ;;;
  ny <- load y ;;
  if negb (leaf ny) then
    update z (set_children (Py.from (children ny) t0)) ;;;
    update y (fun n => set_children (Py.upto (children n) t0) n)
  else
    update z (set_next (next ny)) ;;;
    update y (set_next (Some z)).

(** [_insert_non_full] *)
Fixpoint insert_non_full (fuel : nat) (t0 : Z) (x : addr) (k : Z) : M unit :=
  match fuel with
  | O => raise OutOfFuel
  | S fuel' =>
      nx <- load x ;;
      if leaf nx then
        update x (fun n => set_keys (insert_in_leaf k (keys n)) n)
      else
        let i := scan_down k (keys nx) (length (keys nx)) in
        c <- index_or_raise (children nx !! i) ;;
        nc <- load c ;;
        i' <- (if Py.len (keys nc) =? 2 * t0 - 1 then
                 split_child t0 x i ;;;
                 nx' <- load x ;;
                 ki <- index_or_raise (keys nx' !! i) ;;
                 ret (if ki <? k then S i else i)
               else ret i) ;;
        nx' <- load x ;;
        c' <- index_or_raise (children nx' !! i') ;;
        insert_non_full fuel' t0 c' k
  end.

(** [insert] *)
Definition insert (fuel : nat) (self : BPlusTree) (k : Z) : M BPlusTree :=
  r <- load (root self) ;;
  if Py.len (keys r) =? 2 * t self - 1 then
    new_root <- new_node false ;;
    let self' := mkTree new_root (t self) in
    update new_root (fun n => set_children (Py.insert (children n) 0 (root self)) n) ;;;
    split_child (t self) new_root 0 ;;;
    insert_non_full fuel (t self) new_root k ;;;
    ret self'
  else
    insert_non_full fuel (t self) (root self) k ;;;
    ret self.

(** [_get_pred] and [_get_succ]: the loops [while not current.leaf]. *)
Fixpoint last_key (fuel : nat) (cur : addr) : M Z :=
  match fuel with
  | O => raise OutOfFuel
  | S fuel' =>
      n <- load cur ;;
      if leaf n then index_or_raise (Py.get (keys n) (-1))
      else c <- index_or_raise (Py.get (children n) (-1)) ;;
           last_key fuel' c
  end.

Fixpoint first_key (fuel : nat) (cur : addr) : M Z :=
  match fuel with
  | O => raise OutOfFuel
  | S fuel' =>
      n <- load cur ;;
      if leaf n then index_or_raise (keys n !! O)
      else c <- index_or_raise (children n !! O) ;;
           first_key fuel' c
  end.

Definition get_pred (fuel : nat) (x : addr) (i : nat) : M Z :=
  nx <- load x ;;
  c <- index_or_raise (children nx !! i) ;;
  last_key fuel c.

Definition get_succ (fuel : nat) (x : addr) (i : nat) : M Z :=
  nx <- load x ;;
  c <- index_or_raise (children nx !! S i) ;;
  first_key fuel c.

(** [_borrow_from_prev] *)
Definition borrow_from_prev (x : addr) (i : nat) : M unit :=
  nx <- load x ;;
  child <- index_or_raise (children nx !! i) ;;
  sibling <- index_or_raise (Py.get (children nx) (Z.of_nat i - 1)) ;;
  sep <- index_or_raise (Py.get (keys nx) (Z.of_nat i - 1)) ;;
  update child (fun n => set_keys (Py.insert (keys n) 0 sep) n) ;;;
  ns <- load sibling ;;
  p <- index_or_raise (Py.pop (keys ns) (-1)) ;; let '(last, rest) := p in
  update sibling (set_keys rest) ;;;
  nx <- load x ;;
  ks <- index_or_raise (Py.set (keys nx) (Z.of_nat i - 1) last) ;;
  update x (set_keys ks) ;;;
  nc <- load child ;;
  if negb (leaf nc) then
    ns <- load sibling ;;
    p <- index_or_raise (Py.pop (children ns) (-1)) ;; let '(c, rest) := p in
    update sibling (set_children rest) ;;;
    update child (fun n => set_children (Py.insert (children n) 0 c) n)
  else ret tt.

(** [_borrow_from_next] *)
Definition borrow_from_next (x : addr) (i : nat) : M unit :=
  nx <- load x ;;
  child <- index_or_raise (children nx !! i) ;;
  sibling <- index_or_raise (children nx !! S i) ;;
  sep <- index_or_raise (keys nx !! i) ;;
  update child (fun n => set_keys (keys n ++ [sep]) n) ;;;
  ns <- load sibling ;;
  p <- index_or_raise (Py.pop (keys ns) 0) ;; let '(first, rest) := p in
  update sibling (set_keys rest) ;;;
  nx <- load x ;;
  ks <- index_or_raise (Py.set (keys nx) (Z.of_nat i) first) ;;
  update x (set_keys ks) ;;;
  nc <- load child ;;
  if negb (leaf nc) then
    ns <- load sibling ;;
    p <- index_or_raise (Py.pop (children ns) 0) ;; let '(c, rest) := p in
    update sibling (set_children rest) ;;;
    update child (fun n => set_children (children n ++ [c]) n)
  else ret tt.

(** [_merge] *)
Definition merge (x : addr) (i : nat) : M unit :=
  nx <- load x ;;
  child <- index_or_raise (children nx !! i) ;;
  sibling <- index_or_raise (children nx !! S i) ;;
  sep <- index_or_raise (keys nx !! i) ;;
  update child (fun n => set_keys (keys n ++ [sep]) n) ;;;
  ns <- load sibling ;;
  update child (fun n => set_keys (keys n ++ keys ns) n) ;;;
  nc <- load child ;;
  (if negb (leaf nc) then
     ns <- load sibling ;;
     update child (fun n => set_children (children n ++ children ns) n)
   else ret tt) ;;;
  nx <- load x ;;
  p <- index_or_raise (Py.pop (keys nx) (Z.of_nat i)) ;; let '(_, ks) := p in
  update x (set_keys ks) ;;;
  nx <- load x ;;
  p <- index_or_raise (Py.pop (children nx) (Z.of_nat i + 1)) ;; let '(_, cs) := p in
  update x (set_children cs) ;;;
  ns <- load sibling ;;
  update child (set_next (next ns)).

(** [len(x.children[j].keys) >= t], for a child position written with a
    subtraction in the source ([i - 1]) as well. *)
Definition child_has_spare (t0 : Z) (nx : BPlusNode) (j : Z) : M bool :=
  c <- index_or_raise (Py.get (children nx) j) ;;
  nc <- load c ;;
  ret (t0 <=? Py.len (keys nc)).

(** [_delete_internal] and [_delete_from_internal_node] *)
Fixpoint delete_internal (fuel : nat) (t0 : Z) (x : addr) (k : Z) : M unit :=
  match fuel with
  | O => raise OutOfFuel
  | S fuel' =>
      nx <- load x ;;
      let i := scan_up k (keys nx) in
      let found := match keys nx !! i with
                   | Some ki => ki =? k
                   | None => false
                   end in
      if leaf nx then
        if found then
          update x (fun n => set_keys (take i (keys n) ++ drop (S i) (keys n)) n)
        else ret tt
      else if found then
        delete_from_internal_node fuel' t0 x k i
      else
        spare <- child_has_spare t0 nx (Z.of_nat i) ;;
        if spare then
          c <- index_or_raise (children nx !! i) ;;
          delete_internal fuel' t0 c k
        else
          (if negb (Nat.eqb i 0) && Nat.ltb (i + 2) (length (children nx)) then
             prev <- child_has_spare t0 nx (Z.of_nat i - 1) ;;
             if prev then borrow_from_prev x i
             else
               nxt <- child_has_spare t0 nx (Z.of_nat i + 1) ;;
               if nxt then borrow_from_next x i else merge x i
           else if Nat.eqb i 0 then
             nxt <- child_has_spare t0 nx (Z.of_nat i + 1) ;;
             if nxt then borrow_from_next x i else merge x i
           else if Nat.eqb (i + 1) (length (children nx)) then
             prev <- child_has_spare t0 nx (Z.of_nat i - 1) ;;
             if prev then borrow_from_prev x i else merge x (i - 1)
           else ret tt) ;;;
          nx' <- load x ;;
          c <- index_or_raise (children nx' !! i) ;;
          delete_internal fuel' t0 c k
  end
with delete_from_internal_node (fuel : nat) (t0 : Z) (x : addr) (k : Z)
       (i : nat) : M unit :=
  match fuel with
  | O => raise OutOfFuel
  | S fuel' =>
      nx <- load x ;;
      if leaf nx then
        ki <- index_or_raise (keys nx !! i) ;;
        if ki =? k then
          update x (fun n => set_keys (take i (keys n) ++ drop (S i) (keys n)) n)
        else ret tt
      else
        left <- child_has_spare t0 nx (Z.of_nat i) ;;
        if left then
          p <- get_pred fuel' x i ;;
          nx <- load x ;;
          ks <- index_or_raise (Py.set (keys nx) (Z.of_nat i) p) ;;
          update x (set_keys ks) ;;;
          nx <- load x ;;
          c <- index_or_raise (children nx !! i) ;;
          ki <- index_or_raise (keys nx !! i) ;;
          delete_internal fuel' t0 c ki
        else
          right <- child_has_spare t0 nx (Z.of_nat i + 1) ;;
          if right then
            s <- get_succ fuel' x i ;;
            nx <- load x ;;
            ks <- index_or_raise (Py.set (keys nx) (Z.of_nat i) s) ;;
            update x (set_keys ks) ;;;
            nx <- load x ;;
            c <- index_or_raise (children nx !! S i) ;;
            ki <- index_or_raise (keys nx !! i) ;;
            delete_internal fuel' t0 c ki
          else
            merge x i ;;;
            nx <- load x ;;
            c <- index_or_raise (children nx !! i) ;;
            delete_internal fuel' t0 c k
  end.

(** [delete] *)
Definition delete (fuel : nat) (self : BPlusTree) (k : Z) : M BPlusTree :=
  delete_internal fuel (t self) (root self) k ;;;
  r <- load (root self) ;;
  if (Py.len (keys r) =? 0) && negb (leaf r) then
    c <- index_or_raise (children r !! O) ;;
    ret (mkTree c (t self))
  else ret self.

(** [_find_leaf] *)
Fixpoint find_leaf (fuel : nat) (x : addr) (k : Z) : M addr :=
  match fuel with
  | O => raise OutOfFuel
  | S fuel' =>
      nx <- load x ;;
      if leaf nx then ret x
      else
        c <- index_or_raise (children nx !! scan_up k (keys nx)) ;;
        find_leaf fuel' c k
  end.

(** The [for key in leaf.keys] loop of [range_query]: the keys collected
    so far, and whether the method returned from inside the loop. *)
Fixpoint scan_leaf (lo hi : Z) (ks : list Z) (result : list Z)
  : list Z * bool :=
  match ks with
  | [] => (result, false)
  | key :: ks' =>
      if (lo <=? key) && (key <=? hi) then scan_leaf lo hi ks' (result ++ [key])
      else if hi <? key then (result, true)
      else scan_leaf lo hi ks' result
  end.

(** The [while leaf] loop of [range_query]. *)
Fixpoint walk_leaves (fuel : nat) (lo hi : Z) (lf : option addr)
    (result : list Z) : M (list Z) :=
  match lf with
  | None => ret result
  | Some a =>
      match fuel with
      | O => raise OutOfFuel
      | S fuel' =>
          n <- load a ;;
          let '(result', stop) := scan_leaf lo hi (keys n) result in
          if stop then ret result'
          else walk_leaves fuel' lo hi (next n) result'
      end
  end.

(** [range_query] *)
Definition range_query (fuel : nat) (self : BPlusTree) (lo hi : Z)
  : M (list Z) :=
  lf <- find_leaf fuel (root self) lo ;;
  walk_leaves fuel lo hi (Some lf) [].

(** [print(x.keys)]: the text Python prints for a list of integers. *)
Definition show_keys (ks : list Z) : string :=
  "[" +:+ String.concat ", " (pretty <$> ks) +:+ "]".

(** The line [_print_internal] prints for one node. *)
Definition show_line (level : nat) (ks : list Z) : string :=
  "Level " +:+ pretty level +:+ ": " +:+ show_keys ks.

(** [for i in range(n): acc = body(i, acc)], over the positions [ixs]. *)
Fixpoint for_each {A} (body : nat -> A -> M A) (ixs : list nat) (acc : A)
  : M A :=
  match ixs with
  | [] => ret acc
  | i :: ixs' => acc' <- body i acc ;; for_each body ixs' acc'
  end.

(** [_print_internal].  What the method writes to the standard output is
    the list of the lines written, [out] holding those written so far;
    the two [print] calls of a node make one line, the first one ending
    with a space in place of the newline. *)
Fixpoint print_internal (fuel : nat) (x : addr) (level : nat)
    (out : list string) : M (list string) :=
  match fuel with
  | O => raise OutOfFuel
  | S fuel' =>
      nx <- load x ;;
      let out := out ++ [show_line level (keys nx)] in
      if negb (leaf nx) then
        for_each
          (fun i out =>
             nx <- load x ;;
             c <- index_or_raise (children nx !! i) ;;
             print_internal fuel' c (S level) out)
          (seq 0 (length (children nx))) out
      else ret out
  end.

(** [print_tree]: the result is the list of the lines printed. *)
Definition print_tree (fuel : nat) (self : BPlusTree) : M (list string) :=
  print_internal fuel (root self) 0 [].

(** ** Sequences of operations *)

Inductive op := Insert (k : Z) | Delete (k : Z).

Definition apply_op (fuel : nat) (self : BPlusTree) (o : op) : M BPlusTree :=
  match o with
  | Insert k => insert fuel self k
  | Delete k => delete fuel self k
  end.

Fixpoint apply_ops (fuel : nat) (self : BPlusTree) (os : list op)
  : M BPlusTree :=
  match os with
  | [] => ret self
  | o :: os' => self' <- apply_op fuel self o ;; apply_ops fuel self' os'
  end.

Definition insert_all (fuel : nat) (self : BPlusTree) (ks : list Z)
  : M BPlusTree :=
  apply_ops fuel self (Insert <$> ks).

(** A whole run: build an index of minimum degree [t0] in the empty store,
    apply the operations, then run a query. *)
Definition run {A} (fuel : nat) (t0 : Z) (os : list op)
    (q : BPlusTree -> M A) : outcome A :=
  (self <- new t0 ;; self' <- apply_ops fuel self os ;; q self') [].

Definition result_of {A} (o : outcome A) : error + A :=
  match o with Ret a _ => inr a | Raise e => inl e end.

(** * The functional model and the invariants *)

(** ** The tree a store holds

    [rep h a tr f nx fp]: in the store [h] the object [a] is the root of
    the tree [tr]; its leaves are chained from [f] (the leftmost one) and
    the last one points to [nx]; [fp] is the set of the objects of the
    tree, no object occurring twice.  [reps] is the same for the children
    of a node, from left to right. *)

#[local] Unset Elimination Schemes.
Inductive tree :=
| Leaf (ks : list Z)
| Node (ks : list Z) (cs : list tree).
#[local] Set Elimination Schemes.

Inductive rep (h : heap) : addr -> tree -> option addr -> option addr -> gset nat -> Prop :=
| rep_leaf a n :
    h !! a = Some n -> leaf n = true ->
    rep h a (Leaf (keys n)) (Some a) (next n) {[a]}
| rep_node a n ts f nx fp :
    h !! a = Some n -> leaf n = false ->
    reps h (children n) ts f nx fp -> a ∉ fp ->
    rep h a (Node (keys n) ts) f nx ({[a]} ∪ fp)
with reps (h : heap) : list addr -> list tree -> option addr -> option addr -> gset nat -> Prop :=
| reps_nil nx : reps h [] [] nx nx ∅
| reps_cons c tc cs ts f m nx fp fps :
    rep h c tc f m fp -> reps h cs ts m nx fps -> fp ## fps ->
    reps h (c :: cs) (tc :: ts) f nx (fp ∪ fps).

(** ** The functional model of insertion *)

Definition tkeys (tr : tree) : list Z :=
  match tr with Leaf ks | Node ks _ => ks end.

(** The two halves [_split_child] makes of a node. *)
Definition split_tree (t0 : Z) (y : tree) : tree * tree :=
  match y with
  | Leaf ks => (Leaf (Py.upto ks t0), Leaf (Py.from ks t0))
  | Node ks cs =>
      (Node (Py.upto ks t0) (Py.upto cs t0), Node (Py.from ks t0) (Py.from cs t0))
  end.

Definition split_child_tree (t0 : Z) (ks : list Z) (cs : list tree) (i : nat)
  : option (list Z * list tree) :=
  match cs !! i with
  | Some y =>
      match Py.get (tkeys y) (t0 - 1) with
      | Some m =>
          Some (Py.insert ks (Z.of_nat i) m,
                take i cs ++ [(split_tree t0 y).1; (split_tree t0 y).2] ++ drop (S i) cs)
      | None => None
      end
  | None => None
  end.

(** What an operation may do to the store around a tree of footprint
    [fp]: allocate, and touch the objects of the tree only. *)
Definition extends (h h' : heap) (fp fp' : gset nat) : Prop :=
  (length h <= length h')%nat /\
  (forall b, b ∈ fp' -> b ∈ fp \/ (length h <= b)%nat) /\
  (forall b, b ∉ fp -> (b < length h)%nat -> h' !! b = h !! b).

(** The part of [_insert_non_full] that splits a full child and chooses
    which half to enter. *)
Definition choose_child_tree (t0 : Z) (ks : list Z) (cs : list tree)
    (i : nat) (k : Z) : option (list Z * list tree * nat) :=
  match cs !! i with
  | None => None
  | Some c =>
      if Py.len (tkeys c) =? 2 * t0 - 1 then
        match split_child_tree t0 ks cs i with
        | Some (ks', cs') =>
            match ks' !! i with
            | Some ki => Some (ks', cs', if ki <? k then S i else i)
            | None => None
            end
        | None => None
        end
      else Some (ks, cs, i)
  end.

Fixpoint insert_non_full_tree (fuel : nat) (t0 : Z) (x : tree) (k : Z)
  : option tree :=
  match fuel with
  | O => None
  | S fuel' =>
      match x with
      | Leaf ks => Some (Leaf (insert_in_leaf k ks))
      | Node ks cs =>
          match choose_child_tree t0 ks cs (scan_down k ks (length ks)) k with
          | None => None
          | Some (ks', cs', i') =>
              match cs' !! i' with
              | None => None
              | Some c =>
                  match insert_non_full_tree fuel' t0 c k with
                  | None => None
                  | Some c' => Some (Node ks' (<[i':=c']> cs'))
                  end
              end
          end
      end
  end.

Definition insert_tree (fuel : nat) (t0 : Z) (r : tree) (k : Z) : option tree :=
  if Py.len (tkeys r) =? 2 * t0 - 1 then
    match split_child_tree t0 [] [r] 0 with
    | Some (ks, cs) => insert_non_full_tree fuel t0 (Node ks cs) k
    | None => None
    end
  else insert_non_full_tree fuel t0 r k.

(** ** The leaf chain *)

(** The key lists of the leaves, from left to right. *)
Fixpoint leaves (tr : tree) : list (list Z) :=
  match tr with
  | Leaf ks => [ks]
  | Node _ cs => concat (map leaves cs)
  end.

(** [chain h a nx ls]: following [next] from [a] up to [nx] visits leaves
    whose key lists are [ls]. *)
Inductive chain (h : heap) : option addr -> option addr -> list (list Z) -> Prop :=
| chain_nil nx : chain h nx nx []
| chain_cons a n nx ls :
    h !! a = Some n -> chain h (next n) nx ls ->
    chain h (Some a) nx (keys n :: ls).

(** The leaves [range_query] walks: those from the leaf [_find_leaf]
    reaches to the last one. *)
Fixpoint find_leaf_tree (fuel : nat) (x : tree) (k : Z)
  : option (list (list Z)) :=
  match fuel with
  | O => None
  | S fuel' =>
      match x with
      | Leaf ks => Some [ks]
      | Node ks cs =>
          match cs !! scan_up k ks with
          | None => None
          | Some c =>
              match find_leaf_tree fuel' c k with
              | None => None
              | Some ls =>
                  Some (ls ++ concat (map leaves (drop (S (scan_up k ks)) cs)))
              end
          end
      end
  end.

(** The keys [range_query] collects from a sequence of leaves. *)
Fixpoint walk_tree (lo hi : Z) (ls : list (list Z)) (result : list Z)
  : list Z :=
  match ls with
  | [] => result
  | ks :: ls' =>
      let '(result', stop) := scan_leaf lo hi ks result in
      if stop then result' else walk_tree lo hi ls' result'
  end.

Definition range_query_tree (fuel : nat) (r : tree) (lo hi : Z)
  : option (list Z) :=
  match find_leaf_tree fuel r lo with
  | Some ls => Some (walk_tree lo hi ls [])
  | None => None
  end.

(** ** The invariant of the trees insertion builds

    A subtree lives between an exclusive lower bound and an inclusive
    upper bound ([None] for no bound).  A node on the right spine of the
    index has one child more than keys; every other internal node has as
    many children as keys, its last key being its upper bound, kept there
    by [_split_child]. *)

Definition lt_lo (lo : option Z) (k : Z) : Prop :=
  match lo with Some l => l < k | None => True end.
Definition le_hi (k : Z) (hi : option Z) : Prop :=
  match hi with Some u => k <= u | None => True end.
Definition lt_hi (k : Z) (hi : option Z) : Prop :=
  match hi with Some u => k < u | None => True end.

(** All the keys of the index, in leaf order. *)
Definition flat (tr : tree) : list Z := concat (leaves tr).

(** A sorted run of keys within its bounds, ending on the upper bound. *)
Definition good (lo hi : option Z) (l : list Z) : Prop :=
  StronglySorted Z.lt l /\
  Forall (fun k => lt_lo lo k /\ le_hi k hi) l /\
  (forall u, hi = Some u -> last l = Some u).

(** The keys that separate the children of a node. *)
Definition seps (hi : option Z) (ks : list Z) : list Z :=
  match hi with
  | None => ks
  | Some _ => take (pred (length ks)) ks
  end.

(** Children [cs] separated by the keys [ks], between [lo] and [hi]. *)
Fixpoint forest (P : option Z -> option Z -> tree -> Prop)
    (lo : option Z) (ks : list Z) (hi : option Z) (cs : list tree)
    {struct cs} : Prop :=
  match cs with
  | [] => False
  | c :: cs' =>
      match ks with
      | [] => cs' = [] /\ P lo hi c
      | k :: ks' => P lo (Some k) c /\ forest P (Some k) ks' hi cs'
      end
  end.

(** [wf d lo hi tr]: all the leaves of [tr] are at depth [d], and the keys
    are placed as the searches expect. *)
Fixpoint wf (d : nat) (lo hi : option Z) (tr : tree) : Prop :=
  match d, tr with
  | O, Leaf ks => good lo hi ks
  | S d', Node ks cs =>
      (forall u, hi = Some u -> last ks = Some u) /\
      forest (wf d') lo (seps hi ks) hi cs
  | _, _ => False
  end.

(** ** Routing of a new key *)

(** [routes ks k i]: the position [_insert_non_full] reaches for [k]. *)
Definition routes (ks : list Z) (k : Z) (i : nat) : Prop :=
  (i <= length ks)%nat /\
  (forall j x, (i <= j)%nat -> ks !! j = Some x -> k < x) /\
  (forall j x, i = S j -> ks !! j = Some x -> x <= k).

(** A sequence of insertions, in the functional model. *)
Fixpoint insert_all_tree (fuel : nat) (t0 : Z) (tr : tree) (ks : list Z)
  : option tree :=
  match ks with
  | [] => Some tr
  | k :: ks' =>
      match insert_tree fuel t0 tr k with
      | Some tr' => insert_all_tree fuel t0 tr' ks'
      | None => None
      end
  end.

(** ** Statements used by the claims *)

(** What an index answers: the keys of a full range query and the
    outcome of the search of each of the keys [1, 2, 3, 4]. *)
Definition probe (fuel : nat) (self : BPlusTree)
  : M (list Z * list bool) :=
  r <- range_query fuel self 0 100 ;;
  s1 <- search fuel self 1 ;;
  s2 <- search fuel self 2 ;;
  s3 <- search fuel self 3 ;;
  s4 <- search fuel self 4 ;;
  ret (r, [bool_decide (is_Some s1); bool_decide (is_Some s2);
           bool_decide (is_Some s3); bool_decide (is_Some s4)]).

(** The split as C5 words it, for the child [y] (with content [ny]
    before the call) at position [i] of [x], the store going from [h] to
    [h']: the median is promoted, the original keeps the left half of
    [t - 1] keys, the new node [length h] receives the keys from index
    [t], and for a leaf the chain is spliced and the promoted key is the
    first key of the new sibling. *)
Definition split_as_claimed (t0 : Z) (h h' : heap) (x : addr) (i : nat)
    (y : addr) (ny : BPlusNode) : Prop :=
  exists nx' ny' nz m,
    h' !! x = Some nx' /\ h' !! y = Some ny' /\ h' !! length h = Some nz /\
    Py.get (keys ny) (t0 - 1) = Some m /\
    keys nx' !! i = Some m /\
    keys ny' = take (Z.to_nat (t0 - 1)) (keys ny) /\
    keys nz = drop (Z.to_nat t0) (keys ny) /\
    (leaf ny = true ->
     next ny' = Some (length h) /\ next nz = next ny /\
     head (keys nz) = Some m).

(** A parent with one full leaf, [t = 2]. *)
Definition full_leaf : BPlusNode := mkNode true [1; 2; 3] [] None.
Definition parent_of_full_leaf : list BPlusNode :=
  [full_leaf; mkNode false [] [O] None].

(** ** Models and statements of the further properties *)

(** [_search_internal] in the functional model: whether the key is found. *)
Fixpoint search_tree (fuel : nat) (x : tree) (k : Z) : option bool :=
  match fuel with
  | O => None
  | S fuel' =>
      match x with
      | Leaf ks =>
          match ks !! scan_up k ks with
          | Some ki => Some (ki =? k)
          | None => Some false
          end
      | Node ks cs =>
          match cs !! scan_up k ks with
          | Some c => search_tree fuel' c k
          | None => None
          end
      end
  end.

(** What a successful search returns: a leaf of the store and the offset
    of the key in it. *)
Definition found_at (h : heap) (k : Z) (r : option (addr * nat)) : Prop :=
  exists a i n, r = Some (a, i) /\ h !! a = Some n /\ leaf n = true /\
                keys n !! i = Some k.

(** Key counts: every node below the root holds between [t - 1] and
    [2t - 1] keys. *)
#[local] Unset Elimination Schemes.
Inductive sized (t0 : Z) : tree -> Prop :=
| sized_leaf ks : sized t0 (Leaf ks)
| sized_node ks cs :
    Forall (fun c => sized t0 c /\
                     t0 - 1 <= Py.len (tkeys c) <= 2 * t0 - 1) cs ->
    sized t0 (Node ks cs).
#[local] Set Elimination Schemes.

(** All the leaves at depth [d]. *)
Fixpoint balanced (d : nat) (tr : tree) : Prop :=
  match d, tr with
  | O, Leaf _ => True
  | S d', Node _ cs => Forall (balanced d') cs
  | _, _ => False
  end.

(** Child counts: a node on the rightmost path of the index ([spine]) has
    one child more than keys, any other internal node as many children as
    keys. *)
#[local] Unset Elimination Schemes.
Inductive shape : bool -> tree -> Prop :=
| shape_leaf (spine : bool) (ks : list Z) : shape spine (Leaf ks)
| shape_node (spine : bool) (ks : list Z) (cs : list tree) (c : tree) :
    length (cs ++ [c]) = (if spine then S (length ks) else length ks) ->
    Forall (shape false) cs -> shape spine c ->
    shape spine (Node ks (cs ++ [c])).
#[local] Set Elimination Schemes.

(** The nodes of a tree in pre-order, each with its depth. *)
Fixpoint lines (level : nat) (tr : tree) : list string :=
  match tr with
  | Leaf ks => [show_line level ks]
  | Node ks cs => show_line level ks :: concat (map (lines (S level)) cs)
  end.

(** Keys that some node of the store [h0] holds. *)
Definition known (h0 : heap) (ks : list Z) : Prop :=
  forall k, k ∈ ks -> exists b m, h0 !! b = Some m /\ k ∈ keys m.

(** [within h0 h]: the store [h] has the objects of [h0], each of the same
    kind, and holds no key that [h0] does not hold. *)
Definition within (h0 h : heap) : Prop :=
  length h = length h0 /\
  forall a n, h !! a = Some n ->
    (exists n0, h0 !! a = Some n0 /\ leaf n = leaf n0) /\ known h0 (keys n).

(** A computation that keeps the store within [h0], and whose result
    satisfies [Q]. *)
Definition keeps {A} (h0 : heap) (m : M A) (Q : A -> Prop) : Prop :=
  forall h, within h0 h ->
    match m h with
    | Ret a h' => within h0 h' /\ Q a
    | Raise _ => True
    end.

(** * Verification *)

(** ** Facts on the list primitives *)

Section py_facts.
Context {A : Type}.
Implicit Types (l : list A) (x : A).

Lemma clamp_nat l (n : nat) : Py.clamp l (Z.of_nat n) = Nat.min n (length l).
Proof.
  unfold Py.clamp. destruct (Z.leb_spec 0 (Z.of_nat n)); [|lia].
  by rewrite Nat2Z.id.
Qed.

Lemma clamp_le l i : (Py.clamp l i <= length l)%nat.
Proof.
  unfold Py.clamp. destruct (Z.leb_spec 0 i); lia.
Qed.

Lemma clamp_pos l i :
  0 <= i <= Py.len l -> Py.clamp l i = Z.to_nat i.
Proof.
  unfold Py.clamp, Py.len. intros [H1 H2].
  destruct (Z.leb_spec 0 i); lia.
Qed.

Lemma get_nat l (n : nat) : Py.get l (Z.of_nat n) = l !! n.
Proof.
  unfold Py.get. destruct (Z.leb_spec 0 (Z.of_nat n)); [|lia].
  by rewrite Nat2Z.id.
Qed.

Lemma get_pos l i : 0 <= i -> Py.get l i = l !! Z.to_nat i.
Proof. unfold Py.get. intros H. by destruct (Z.leb_spec 0 i); [|lia]. Qed.

Lemma insert_nat l (n : nat) x :
  Py.insert l (Z.of_nat n) x = take n l ++ x :: drop n l.
Proof.
  unfold Py.insert. rewrite clamp_nat.
  destruct (Nat.le_gt_cases n (length l)) as [Hle|Hgt].
  - by rewrite Nat.min_l.
  - rewrite Nat.min_r by lia.
    by rewrite !take_ge, !drop_ge by lia.
Qed.

Lemma insert_succ_nat l (n : nat) x :
  Py.insert l (Z.of_nat n + 1) x = take (S n) l ++ x :: drop (S n) l.
Proof.
  replace (Z.of_nat n + 1) with (Z.of_nat (S n)) by lia. apply insert_nat.
Qed.

Lemma upto_from l i : Py.upto l i ++ Py.from l i = l.
Proof. apply take_drop. Qed.
End py_facts.

Lemma clamp_length {A B} (l : list A) (l' : list B) i :
  length l = length l' -> Py.clamp l i = Py.clamp l' i.
Proof. unfold Py.clamp. by intros ->. Qed.

(** ** Facts on the monad *)

Lemma bind_Ret {A B} (m : M A) (f : A -> M B) h a h' :
  m h = Ret a h' -> bind m f h = f a h'.
Proof. unfold bind. by intros ->. Qed.

Lemma load_Ret h a n : h !! a = Some n -> load a h = Ret n h.
Proof. unfold load. by intros ->. Qed.

Lemma update_Ret h a n f :
  h !! a = Some n -> update a f h = Ret tt (<[a:=f n]> h).
Proof. unfold update. by intros ->. Qed.

Lemma index_Ret {A} (o : option A) a h :
  o = Some a -> index_or_raise o h = Ret a h.
Proof. by intros ->. Qed.

(** Symbolic execution of one statement whose outcome is known. *)
Ltac step :=
  first
    [ erewrite (bind_Ret (load _)); [|apply load_Ret; eassumption]
    | erewrite (bind_Ret (update _ _)); [|apply update_Ret; eassumption]
    | erewrite (bind_Ret (index_or_raise _)); [|apply index_Ret; eassumption]
    | erewrite update_Ret; [|eassumption] ].

Lemma new_node_Ret {B} b (f : addr -> M B) h :
  bind (new_node b) f h = f (length h) (h ++ [mkNode b [] [] None]).
Proof. reflexivity. Qed.

(** ** The store after [_split_child]

    The parent [x] receives the median of its child [y] and a reference to
    the new node [z]; [y] keeps its first [t] keys; every other object is
    left alone. *)

Lemma split_child_heap t0 h x i nx y ny m :
  h !! x = Some nx -> children nx !! i = Some y -> h !! y = Some ny ->
  x <> y -> Py.get (keys ny) (t0 - 1) = Some m ->
  exists h', split_child t0 x i h = Ret tt h' /\ length h' = S (length h) /\
    h' !! x = Some (mkNode (leaf nx) (Py.insert (keys nx) (Z.of_nat i) m)
                      (Py.insert (children nx) (Z.of_nat i + 1) (length h)) (next nx)) /\
    h' !! y = Some (if leaf ny
                    then mkNode true (Py.upto (keys ny) t0) (children ny) (Some (length h))
                    else mkNode false (Py.upto (keys ny) t0) (Py.upto (children ny) t0) (next ny)) /\
    h' !! length h = Some (if leaf ny
                    then mkNode true (Py.from (keys ny) t0) [] (next ny)
                    else mkNode false (Py.from (keys ny) t0) (Py.from (children ny) t0) None) /\
    forall b, b <> x -> b <> y -> b <> length h -> h' !! b = h !! b.
Proof.
  intros Hx Hi Hy Hxy Hm.
  pose proof (lookup_lt_Some _ _ _ Hx) as Hlx.
  pose proof (lookup_lt_Some _ _ _ Hy) as Hly.
  unfold split_child.
  do 3 step. rewrite new_node_Ret.
  set (z := length h).
  set (h1 := h ++ [mkNode (leaf ny) [] [] None]).
  assert (H1x : h1 !! x = Some nx) by (subst h1; by rewrite lookup_app_l).
  assert (H1y : h1 !! y = Some ny) by (subst h1; by rewrite lookup_app_l).
  assert (H1z : h1 !! z = Some (mkNode (leaf ny) [] [] None)).
  { subst h1 z. rewrite lookup_app_r by lia. by rewrite Nat.sub_diag. }
  step.
  match goal with |- context [bind (load y) _ ?hh] => set (h2 := hh) end.
  assert (H2y : h2 !! y = Some ny) by (subst h2; by rewrite list_lookup_insert_ne).
  step. step.
  assert (H2x : h2 !! x = Some (set_children (Py.insert (children nx) (Z.of_nat i + 1) z) nx)).
  { subst h2. apply list_lookup_insert_eq. subst h1. rewrite length_app. lia. }
  step.
  match goal with |- context [bind (load y) _ ?hh] => set (h3 := hh) end.
  assert (H3y : h3 !! y = Some ny) by (subst h3; by rewrite list_lookup_insert_ne).
  assert (H3z : h3 !! z = Some (mkNode (leaf ny) [] [] None)).
  { subst h3 h2. rewrite !list_lookup_insert_ne by (subst z; lia). done. }
  step. step.
  match goal with |- context [bind (update y _) _ ?hh] => set (h4 := hh) end.
  assert (H4y : h4 !! y = Some ny).
  { subst h4. rewrite list_lookup_insert_ne by (subst z; lia). done. }
  step.
  match goal with |- context [bind (load y) _ ?hh] => set (h5 := hh) end.
  assert (Hlen5 : length h5 = S (length h)).
  { subst h5 h4 h3 h2 h1. rewrite !length_insert, length_app. simpl. lia. }
  assert (H5y : h5 !! y = Some (set_keys (Py.upto (keys ny) t0) ny)).
  { subst h5. apply list_lookup_insert_eq. subst h4 h3 h2 h1.
    rewrite !length_insert, length_app. lia. }
  assert (H5z : h5 !! z = Some (set_keys (Py.from (keys ny) t0) (mkNode (leaf ny) [] [] None))).
  { subst h5. rewrite list_lookup_insert_ne by (subst z; lia).
    subst h4. apply list_lookup_insert_eq. subst h3 h2 h1.
    rewrite !length_insert, length_app. simpl. subst z. lia. }
  assert (H5x : h5 !! x = Some (mkNode (leaf nx) (Py.insert (keys nx) (Z.of_nat i) m)
                      (Py.insert (children nx) (Z.of_nat i + 1) z) (next nx))).
  { subst h5 h4. rewrite !list_lookup_insert_ne by (subst z; lia).
    subst h3. rewrite list_lookup_insert_eq. done.
    subst h2 h1. rewrite !length_insert, length_app. lia. }
  assert (H5o : forall b, b <> x -> b <> y -> b <> z -> h5 !! b = h !! b).
  { intros b ? ? ?. subst h5 h4 h3 h2 h1.
    rewrite !list_lookup_insert_ne by done.
    destruct (decide (b < length h)%nat).
    - by rewrite lookup_app_l.
    - rewrite !lookup_ge_None_2; [done|lia|]. rewrite length_app. simpl. subst z. lia. }
  step. simpl.
  destruct (leaf ny) eqn:Hleaf; simpl.
  - step.
    match goal with |- context [update y _ ?hh] => set (h6 := hh) end.
    assert (H6y : h6 !! y = Some (set_keys (Py.upto (keys ny) t0) ny)).
    { subst h6. rewrite list_lookup_insert_ne by (subst z; lia). done. }
    step. eexists. split; [reflexivity|].
    split; [subst h6; by rewrite !length_insert|].
    split; [subst h6; by rewrite !list_lookup_insert_ne by (subst z; lia)|].
    split.
    { rewrite list_lookup_insert_eq; [|subst h6; rewrite length_insert; lia].
      unfold set_next, set_keys; simpl. by rewrite ?Hleaf. }
    split.
    { rewrite list_lookup_insert_ne by (subst z; lia).
      subst h6. rewrite list_lookup_insert_eq by (subst z; lia).
      unfold set_next, set_keys; simpl. done. }
    intros b ? ? ?. subst h6. rewrite !list_lookup_insert_ne by done. by apply H5o.
  - step.
    match goal with |- context [update y _ ?hh] => set (h6 := hh) end.
    assert (H6y : h6 !! y = Some (set_keys (Py.upto (keys ny) t0) ny)).
    { subst h6. rewrite list_lookup_insert_ne by (subst z; lia). done. }
    step. eexists. split; [reflexivity|].
    split; [subst h6; by rewrite !length_insert|].
    split; [subst h6; by rewrite !list_lookup_insert_ne by (subst z; lia)|].
    split.
    { rewrite list_lookup_insert_eq; [|subst h6; rewrite length_insert; lia].
      unfold set_children, set_keys; simpl. by rewrite ?Hleaf. }
    split.
    { rewrite list_lookup_insert_ne by (subst z; lia).
      subst h6. rewrite list_lookup_insert_eq by (subst z; lia).
      unfold set_children, set_keys; simpl. by rewrite ?Hleaf. }
    intros b ? ? ?. subst h6. rewrite !list_lookup_insert_ne by done. by apply H5o.
Qed.

Scheme rep_mut := Minimality for rep Sort Prop
  with reps_mut := Minimality for reps Sort Prop.
Combined Scheme rep_reps_ind from rep_mut, reps_mut.

Lemma rep_reps_bound h :
  (forall a tr f nx fp, rep h a tr f nx fp -> forall b, b ∈ fp -> (b < length h)%nat) /\
  (forall cs ts f nx fp, reps h cs ts f nx fp -> forall b, b ∈ fp -> (b < length h)%nat).
Proof.
  apply rep_reps_ind.
  - intros a n Ha _ b Hb. apply elem_of_singleton in Hb as ->.
    by eapply lookup_lt_Some.
  - intros a n ts f nx fp Ha _ _ IH _ b Hb.
    apply elem_of_union in Hb as [Hb%elem_of_singleton| Hb]; [|by apply IH].
    subst. by eapply lookup_lt_Some.
  - intros nx b Hb. set_solver.
  - intros c tc cs ts f m nx fp fps _ IH1 _ IH2 _ b Hb.
    apply elem_of_union in Hb as [Hb|Hb]; auto.
Qed.

Lemma rep_bound h a tr f nx fp b :
  rep h a tr f nx fp -> b ∈ fp -> (b < length h)%nat.
Proof. intros H. by apply (proj1 (rep_reps_bound h) _ _ _ _ _ H). Qed.

Lemma reps_bound h cs ts f nx fp b :
  reps h cs ts f nx fp -> b ∈ fp -> (b < length h)%nat.
Proof. intros H. by apply (proj2 (rep_reps_bound h) _ _ _ _ _ H). Qed.

(** Objects outside the footprint do not matter. *)
Lemma rep_reps_frame h h' :
  (forall a tr f nx fp, rep h a tr f nx fp ->
     (forall b, b ∈ fp -> h' !! b = h !! b) -> rep h' a tr f nx fp) /\
  (forall cs ts f nx fp, reps h cs ts f nx fp ->
     (forall b, b ∈ fp -> h' !! b = h !! b) -> reps h' cs ts f nx fp).
Proof.
  apply rep_reps_ind.
  - intros a n Ha Hl Hfr. constructor; [|done].
    rewrite Hfr; [done|set_solver].
  - intros a n ts f nx fp Ha Hl _ IH Hni Hfr. constructor; try done.
    + rewrite Hfr; [done|set_solver].
    + apply IH. intros b Hb. apply Hfr. set_solver.
  - intros nx _. constructor.
  - intros c tc cs ts f m nx fp fps _ IH1 _ IH2 Hd Hfr.
    constructor 2 with m; [| |done].
    + apply IH1. intros b Hb. apply Hfr. set_solver.
    + apply IH2. intros b Hb. apply Hfr. set_solver.
Qed.

Lemma rep_frame h h' a tr f nx fp :
  rep h a tr f nx fp -> (forall b, b ∈ fp -> h' !! b = h !! b) ->
  rep h' a tr f nx fp.
Proof. intros H. by apply (proj1 (rep_reps_frame h h')). Qed.

Lemma reps_frame h h' cs ts f nx fp :
  reps h cs ts f nx fp -> (forall b, b ∈ fp -> h' !! b = h !! b) ->
  reps h' cs ts f nx fp.
Proof. intros H. by apply (proj2 (rep_reps_frame h h')). Qed.

Lemma rep_root_in h a tr f nx fp : rep h a tr f nx fp -> a ∈ fp.
Proof. intros H. inversion H; set_solver. Qed.

Lemma reps_nil_inv h ts f nx fp :
  reps h [] ts f nx fp -> ts = [] /\ f = nx /\ fp = ∅.
Proof. intros H. by inversion H. Qed.

Lemma reps_cons_inv h c cs ts f nx fp :
  reps h (c :: cs) ts f nx fp ->
  exists tc ts' m fp1 fps,
    ts = tc :: ts' /\ rep h c tc f m fp1 /\ reps h cs ts' m nx fps /\
    fp1 ## fps /\ fp = fp1 ∪ fps.
Proof. intros H. inversion H; subst. eauto 10. Qed.

Lemma reps_length h cs ts f nx fp :
  reps h cs ts f nx fp -> length cs = length ts.
Proof.
  revert ts f fp. induction cs as [|c cs IH]; intros ts f fp H.
  - by apply reps_nil_inv in H as (-> & _).
  - apply reps_cons_inv in H as (tc & ts' & m & fp1 & fps & -> & _ & H & _).
    simpl. f_equal. eauto.
Qed.

Lemma reps_app h cs1 ts1 cs2 ts2 f m nx fp1 fp2 :
  reps h cs1 ts1 f m fp1 -> reps h cs2 ts2 m nx fp2 -> fp1 ## fp2 ->
  reps h (cs1 ++ cs2) (ts1 ++ ts2) f nx (fp1 ∪ fp2).
Proof.
  revert ts1 f fp1. induction cs1 as [|c cs1 IH]; intros ts1 f fp1 H1 H2 Hd.
  - apply reps_nil_inv in H1 as (-> & -> & ->). simpl.
    by rewrite (left_id_L ∅ (∪)).
  - apply reps_cons_inv in H1
      as (tc & ts' & m' & fpa & fpb & -> & Hc & Hcs & Hdab & ->).
    simpl. rewrite <- (assoc_L (∪)). constructor 2 with m'; [done| |].
    + apply IH; [done|done|set_solver].
    + set_solver.
Qed.

Lemma reps_app_inv h cs1 cs2 ts f nx fp :
  reps h (cs1 ++ cs2) ts f nx fp ->
  exists m fp1 fp2,
    reps h cs1 (take (length cs1) ts) f m fp1 /\
    reps h cs2 (drop (length cs1) ts) m nx fp2 /\
    fp1 ## fp2 /\ fp = fp1 ∪ fp2.
Proof.
  revert ts f fp. induction cs1 as [|c cs1 IH]; intros ts f fp H; simpl in *.
  - exists f, ∅, fp. rewrite drop_0. split; [constructor|].
    split; [done|]. split; set_solver.
  - apply reps_cons_inv in H
      as (tc & ts' & m' & fpa & fpb & -> & Hc & Hcs & Hdab & ->).
    destruct (IH _ _ _ Hcs) as (m & fp1 & fp2 & Ha & Hb & Hd & ->).
    exists m, (fpa ∪ fp1), fp2. simpl. split; [|split; [done|split]].
    + constructor 2 with m'; [done|done|set_solver].
    + set_solver.
    + set_solver.
Qed.

Lemma reps_split_at h cs ts f nx fp n :
  reps h cs ts f nx fp ->
  exists m fp1 fp2,
    reps h (take n cs) (take n ts) f m fp1 /\
    reps h (drop n cs) (drop n ts) m nx fp2 /\
    fp1 ## fp2 /\ fp = fp1 ∪ fp2.
Proof.
  intros H. pose proof (reps_length _ _ _ _ _ _ H) as Hlen.
  rewrite <- (take_drop n cs) in H.
  apply reps_app_inv in H as (m & fp1 & fp2 & H1 & H2 & Hd & ->).
  exists m, fp1, fp2. split; [|split; [|done]].
  - rewrite length_take in H1.
    destruct (Nat.le_gt_cases n (length cs)).
    + by rewrite Nat.min_l in H1.
    + rewrite Nat.min_r in H1 by lia.
      rewrite (take_ge ts n) by lia. by rewrite (take_ge ts) in H1 by lia.
  - rewrite length_take in H2.
    destruct (Nat.le_gt_cases n (length cs)).
    + by rewrite Nat.min_l in H2.
    + rewrite Nat.min_r in H2 by lia.
      rewrite (drop_ge ts n) by lia. by rewrite (drop_ge ts) in H2 by lia.
Qed.

Lemma rep_fp_eq h a tr f nx fp fp' :
  rep h a tr f nx fp -> fp = fp' -> rep h a tr f nx fp'.
Proof. by intros H <-. Qed.

Lemma reps_fp_eq h cs ts f nx fp fp' :
  reps h cs ts f nx fp -> fp = fp' -> reps h cs ts f nx fp'.
Proof. by intros H <-. Qed.

Lemma reps_one h c tc f nx fp :
  rep h c tc f nx fp -> reps h [c] [tc] f nx fp.
Proof.
  intros H. eapply reps_fp_eq.
  - constructor 2 with nx; [done|constructor|set_solver].
  - set_solver.
Qed.

(** The child at position [i], and what may be put in its place. *)
Lemma reps_focus h cs ts f nx fp i c :
  reps h cs ts f nx fp -> cs !! i = Some c ->
  exists tc m1 m2 fpa fpc fpb,
    ts !! i = Some tc /\ rep h c tc m1 m2 fpc /\
    fp = fpa ∪ fpc ∪ fpb /\ fpa ## fpc /\ fpa ## fpb /\ fpc ## fpb /\
    forall h' cs2 ts2 fp2,
      reps h' cs2 ts2 m1 m2 fp2 ->
      (forall b, b ∈ fpa ∪ fpb -> h' !! b = h !! b) ->
      fp2 ## fpa ∪ fpb ->
      reps h' (take i cs ++ cs2 ++ drop (S i) cs)
        (take i ts ++ ts2 ++ drop (S i) ts) f nx (fpa ∪ fp2 ∪ fpb).
Proof.
  intros H Hi.
  destruct (reps_split_at _ _ _ _ _ _ i H) as (m1 & fpa & fpr & Ha & Hr & Hd & ->).
  rewrite (drop_S _ _ _ Hi) in Hr.
  apply reps_cons_inv in Hr
    as (tc & ts' & m2 & fpc & fpb & Hts & Hc & Hb & Hdcb & ->).
  assert (Hti : ts !! i = Some tc).
  { rewrite <- (take_drop i ts), Hts at 1.
    rewrite lookup_app_r; rewrite length_take.
    - pose proof (reps_length _ _ _ _ _ _ H).
      apply lookup_lt_Some in Hi.
      replace (i - i `min` length ts)%nat with O by lia. done.
    - lia. }
  assert (Hts' : ts' = drop (S i) ts).
  { rewrite (drop_S _ _ _ Hti) in Hts. by inversion Hts. }
  subst ts'.
  exists tc, m1, m2, fpa, fpc, fpb.
  split; [done|]. split; [done|]. split; [set_solver|].
  split; [set_solver|]. split; [set_solver|]. split; [done|].
  intros h' cs2 ts2 fp2 H2 Hfr Hd2.
  eapply reps_fp_eq.
  - eapply reps_app; [| eapply reps_app |].
    + eapply reps_frame; [exact Ha|]. intros b Hin. apply Hfr. set_solver.
    + exact H2.
    + eapply reps_frame; [exact Hb|]. intros b Hin. apply Hfr. set_solver.
    + set_solver.
    + set_solver.
  - set_solver.
Qed.

Lemma rep_inv_keys h a tr f nx fp :
  rep h a tr f nx fp ->
  exists n, (h !! a = Some n) /\ keys n = tkeys tr /\
            leaf n = match tr with Leaf _ => true | Node _ _ => false end.
Proof. intros H. inversion H; subst; eauto. Qed.

Lemma rep_leaf_inv h a ks f nx fp :
  rep h a (Leaf ks) f nx fp ->
  exists n, (h !! a = Some n) /\ leaf n = true /\ keys n = ks /\
            f = Some a /\ next n = nx /\ fp = {[a]}.
Proof. intros H. inversion H; subst. eauto 10. Qed.

Lemma rep_node_inv h a ks ts f nx fp :
  rep h a (Node ks ts) f nx fp ->
  exists n fp0, (h !! a = Some n) /\ leaf n = false /\ keys n = ks /\
            reps h (children n) ts f nx fp0 /\ (a ∉ fp0) /\ fp = {[a]} ∪ fp0.
Proof. intros H. inversion H; subst. eauto 10. Qed.

Lemma rep_leaf' h a n ks nx :
  h !! a = Some n -> leaf n = true -> keys n = ks -> next n = nx ->
  rep h a (Leaf ks) (Some a) nx {[a]}.
Proof. intros ? ? <- <-. by constructor. Qed.

Lemma rep_node' h a n ks cs ts f nx fp fp' :
  h !! a = Some n -> leaf n = false -> keys n = ks -> children n = cs ->
  reps h cs ts f nx fp -> a ∉ fp -> fp' = {[a]} ∪ fp ->
  rep h a (Node ks ts) f nx fp'.
Proof. intros ? ? <- <- ? ? ->. by constructor. Qed.

Lemma split_child_rep t0 h x ks ts f nx fp i ks' ts' :
  rep h x (Node ks ts) f nx fp ->
  split_child_tree t0 ks ts i = Some (ks', ts') ->
  exists h' fp',
    split_child t0 x i h = Ret tt h' /\
    rep h' x (Node ks' ts') f nx fp' /\
    extends h h' fp fp'.
Proof.
  intros Hrep Hsp.
  apply rep_node_inv in Hrep as (n & fp0 & Hx & Hlf & <- & Hcs & Hxfp & ->).
  unfold split_child_tree in Hsp.
  destruct (ts !! i) as [ty|] eqn:Hti; [|done].
  destruct (Py.get (tkeys ty) (t0 - 1)) as [m|] eqn:Hm; [|done].
  inversion Hsp; subst ks' ts'; clear Hsp.
  destruct (children n !! i) as [y|] eqn:Hci.
  2:{ apply lookup_ge_None in Hci. apply lookup_lt_Some in Hti.
      apply reps_length in Hcs. lia. }
  destruct (reps_focus _ _ _ _ _ _ _ _ Hcs Hci)
    as (tc & m1 & m2 & fpa & fpc & fpb & Hti' & Hy & -> & Hd1 & Hd2 & Hd3 & Hctx).
  rewrite Hti in Hti'. inversion Hti'; subst tc; clear Hti'.
  pose proof (rep_root_in _ _ _ _ _ _ Hy) as Hyin.
  assert (Hxy : x <> y) by (intros ->; set_solver).
  destruct (rep_inv_keys _ _ _ _ _ _ Hy) as (ny & Hhy & Hky & Hly).
  rewrite <- Hky in Hm.
  destruct (split_child_heap t0 h x i n y ny m Hx Hci Hhy Hxy Hm)
    as (h' & Hrun & Hlen & Hx' & Hy' & Hz' & Hoth).
  set (z := length h) in *.
  assert (Hbound : forall b, b ∈ fpa ∪ fpc ∪ fpb -> (b < z)%nat).
  { intros b Hb. eapply reps_bound; eauto. }
  assert (Hzx : z <> x) by (apply lookup_lt_Some in Hx; subst z; lia).
  assert (Hzy : z <> y) by (apply lookup_lt_Some in Hhy; subst z; lia).
  assert (Hsame : forall b, b ∈ fpa ∪ fpc ∪ fpb -> b <> y -> h' !! b = h !! b).
  { intros b Hb Hby. apply Hoth; [set_solver|done|]. apply Hbound in Hb. lia. }
  (* the two nodes that replace [y] *)
  assert (Hyz : exists fp2,
             reps h' [y; z] [(split_tree t0 ty).1; (split_tree t0 ty).2] m1 m2 fp2 /\
             forall b, b ∈ fp2 -> b ∈ fpc \/ b = z).
  { destruct ty as [yk|yk yts].
    - apply rep_leaf_inv in Hy as (ny' & Hhy' & _ & Hk & -> & Hnx & ->).
      rewrite Hhy in Hhy'. inversion Hhy'; subst ny'; clear Hhy'.
      simpl in Hly. rewrite Hly in Hy', Hz'. simpl.
      exists ({[y]} ∪ {[z]}). split; [|set_solver].
      constructor 2 with (Some z).
      + eapply rep_leaf'; [exact Hy'|done|simpl; by rewrite Hk|done].
      + apply reps_one. eapply rep_leaf'; [exact Hz'|done|simpl; by rewrite Hk|done].
      + set_solver.
    - apply rep_node_inv in Hy as (ny' & fpy & Hhy' & _ & Hk & Hycs & Hyfp & ->).
      rewrite Hhy in Hhy'. inversion Hhy'; subst ny'; clear Hhy'.
      simpl in Hly. rewrite Hly in Hy', Hz'. simpl.
      destruct (reps_split_at _ _ _ _ _ _ (Py.clamp (children ny) t0) Hycs)
        as (mm & fy1 & fy2 & Hl & Hr & Hdy & ->).
      pose proof (reps_length _ _ _ _ _ _ Hycs) as Hlen_y.
      exists (({[y]} ∪ fy1) ∪ ({[z]} ∪ fy2)). split.
      + constructor 2 with mm.
        * eapply rep_node' with (fp := fy1);
            [exact Hy'|done|simpl; by rewrite Hk|simpl; reflexivity| |set_solver|done].
          unfold Py.upto. rewrite <- (clamp_length _ _ _ Hlen_y).
          eapply reps_frame; [exact Hl|]. intros b Hb. apply Hsame; set_solver.
        * apply reps_one.
          eapply rep_node' with (fp := fy2);
            [exact Hz'|done|simpl; by rewrite Hk|simpl; reflexivity| | |done].
          -- unfold Py.from. rewrite <- (clamp_length _ _ _ Hlen_y).
             eapply reps_frame; [exact Hr|]. intros b Hb. apply Hsame; set_solver.
          -- intros Hin. assert (z < z)%nat; [|lia]. apply Hbound. set_solver.
        * apply disjoint_union_l. split.
          -- apply disjoint_union_r. split; [set_solver|set_solver].
          -- apply disjoint_union_r. split; [|done].
             intros b Hb1 Hb2. apply elem_of_singleton in Hb2 as ->.
             assert (z < z)%nat; [|lia]. apply Hbound. set_solver.
      + set_solver. }
  destruct Hyz as (fp2 & Hyz & Hfp2).
  exists h', ({[x]} ∪ (fpa ∪ fp2 ∪ fpb)). split; [done|]. split.
  - eapply rep_node' with (fp := fpa ∪ fp2 ∪ fpb);
      [exact Hx'|done|done|simpl; reflexivity| | |done].
    + rewrite insert_succ_nat, (take_S_r _ _ _ Hci), <- app_assoc. simpl.
      apply (Hctx h' [y; z] _ fp2 Hyz).
      * intros b Hb. apply Hsame; [set_solver|]. intros ->. set_solver.
      * intros b Hb1 Hb2. apply Hfp2 in Hb1 as [Hb1| ->]; [set_solver|].
        assert (z < z)%nat; [|lia]. apply Hbound. set_solver.
    + intros Hin. apply elem_of_union in Hin as [Hin|Hin]; [|set_solver].
      apply elem_of_union in Hin as [Hin|Hin]; [set_solver|].
      apply Hfp2 in Hin as [Hin| ->]; [set_solver|done].
  - split; [lia|]. split.
    + intros b Hb. destruct (decide (b = z)) as [->|Hbz]; [right; subst z; lia|].
      left. set_solver.
    + intros b Hb Hlt. apply Hoth; [set_solver| |lia].
      intros ->. set_solver.
Qed.

Lemma extends_refl h fp : extends h h fp fp.
Proof. split; [done|]. split; [by left|done]. Qed.

Lemma extends_trans h1 h2 h3 fp1 fp2 fp3 :
  extends h1 h2 fp1 fp2 -> extends h2 h3 fp2 fp3 -> extends h1 h3 fp1 fp3.
Proof.
  intros (Hl1 & Hf1 & Hs1) (Hl2 & Hf2 & Hs2). split; [lia|]. split.
  - intros b Hb. destruct (Hf2 b Hb) as [Hb2|Hb2]; [by apply Hf1|right; lia].
  - intros b Hb Hlt. rewrite Hs2; [by apply Hs1| |lia].
    intros Hb2. destruct (Hf1 b Hb2); [done|lia].
Qed.

(** Descending into the child at position [i] of the node [x]: whatever
    is done below the child that respects its footprint rebuilds [x]. *)
Lemma rep_descend h x ks ts f nx fp i tc :
  rep h x (Node ks ts) f nx fp -> ts !! i = Some tc ->
  exists n c m1 m2 fpc,
    h !! x = Some n /\ leaf n = false /\ keys n = ks /\
    children n !! i = Some c /\ rep h c tc m1 m2 fpc /\
    forall h' tc' fpc',
      rep h' c tc' m1 m2 fpc' -> extends h h' fpc fpc' ->
      exists fp', rep h' x (Node ks (<[i:=tc']> ts)) f nx fp' /\
                  extends h h' fp fp'.
Proof.
  intros Hrep Hti.
  apply rep_node_inv in Hrep as (n & fp0 & Hx & Hlf & Hks & Hcs & Hxfp & ->).
  destruct (children n !! i) as [c|] eqn:Hci.
  2:{ apply lookup_ge_None in Hci. apply lookup_lt_Some in Hti.
      apply reps_length in Hcs. lia. }
  destruct (reps_focus _ _ _ _ _ _ _ _ Hcs Hci)
    as (tc0 & m1 & m2 & fpa & fpc & fpb & Hti' & Hc & -> & Hd1 & Hd2 & Hd3 & Hctx).
  rewrite Hti in Hti'. inversion Hti'; subst tc0; clear Hti'.
  exists n, c, m1, m2, fpc. do 5 (split; [done|]).
  intros h' tc' fpc' Hc' (Hlen & Hfresh & Hsame).
  assert (Hbound : forall b, b ∈ fpa ∪ fpc ∪ fpb -> (b < length h)%nat).
  { intros b Hb. eapply reps_bound; eauto. }
  pose proof (lookup_lt_Some _ _ _ Hx) as Hxlt.
  assert (Hfp' : forall b, b ∈ fpc' -> (b ∉ fpa ∪ fpb) /\ b <> x).
  { intros b Hb. destruct (Hfresh b Hb) as [Hin|Hge].
    - split; [set_solver|]. intros ->. set_solver.
    - split; [|lia]. intros Hin. assert (b < length h)%nat; [|lia].
      apply Hbound. set_solver. }
  exists ({[x]} ∪ (fpa ∪ fpc' ∪ fpb)). split.
  - eapply rep_node' with (fp := fpa ∪ fpc' ∪ fpb) (n := n) (cs := children n);
      [|done|done|done| | |done].
    + rewrite Hsame; [done| |done]. set_solver.
    + specialize (Hctx h' [c] [tc'] fpc' (reps_one _ _ _ _ _ _ Hc')).
      simpl in Hctx. rewrite (take_drop_middle _ _ _ Hci) in Hctx.
      rewrite insert_take_drop by (by eapply lookup_lt_Some).
      apply Hctx.
      * intros b Hb. apply Hsame; [set_solver|]. apply Hbound. set_solver.
      * intros b Hb1 Hb2. by apply Hfp' in Hb1 as [? _].
    + intros Hin. apply elem_of_union in Hin as [Hin|Hin]; [|set_solver].
      apply elem_of_union in Hin as [Hin|Hin]; [set_solver|].
      by apply Hfp' in Hin as [_ ?].
  - split; [done|]. split.
    + intros b Hb.
      destruct (decide (b ∈ fpc')) as [Hin|Hnin].
      * destruct (Hfresh b Hin); [left; set_solver|by right].
      * left. set_solver.
    + intros b Hb Hlt. apply Hsame; [set_solver|done].
Qed.

Lemma insert_non_full_rep fuel t0 k :
  forall x tr tr' h f nx fp,
    rep h x tr f nx fp ->
    insert_non_full_tree fuel t0 tr k = Some tr' ->
    exists h' fp',
      insert_non_full fuel t0 x k h = Ret tt h' /\
      rep h' x tr' f nx fp' /\ extends h h' fp fp'.
Proof.
  induction fuel as [|fuel IH]; intros x tr tr' h f nx fp Hrep Hins; [done|].
  destruct tr as [ks|ks ts]; simpl in Hins.
  - inversion Hins; subst tr'; clear Hins.
    apply rep_leaf_inv in Hrep as (n & Hx & Hlf & <- & -> & <- & ->).
    simpl. step. rewrite Hlf. step.
    eexists _, {[x]}. split; [reflexivity|]. split.
    + eapply rep_leaf';
        [apply list_lookup_insert_eq; by eapply lookup_lt_Some|done|done|done].
    + split; [by rewrite length_insert|]. split; [by left|].
      intros b Hb _. apply list_lookup_insert_ne. set_solver.
  - destruct (choose_child_tree t0 ks ts (scan_down k ks (length ks)) k)
      as [[[ks' ts'] i']|] eqn:Hch; [|done].
    destruct (ts' !! i') as [c|] eqn:Hci'; [|done].
    destruct (insert_non_full_tree fuel t0 c k) as [c'|] eqn:Hrec; [|done].
    inversion Hins; subst tr'; clear Hins.
    (* the state after the optional split *)
    assert (Hmid : exists h1 fp1,
      rep h1 x (Node ks' ts') f nx fp1 /\ extends h h1 fp fp1 /\
      forall (B : Type) (g : nat -> M B),
        (nx0 <- load x ;;
         c0 <- index_or_raise (children nx0 !! scan_down k (keys nx0) (length (keys nx0))) ;;
         nc <- load c0 ;;
         i0 <- (if Py.len (keys nc) =? 2 * t0 - 1 then
                  split_child t0 x (scan_down k (keys nx0) (length (keys nx0))) ;;;
                  nx' <- load x ;;
                  ki <- index_or_raise (keys nx' !! scan_down k (keys nx0) (length (keys nx0))) ;;
                  ret (if ki <? k then S (scan_down k (keys nx0) (length (keys nx0)))
                       else scan_down k (keys nx0) (length (keys nx0)))
                else ret (scan_down k (keys nx0) (length (keys nx0)))) ;;
         g i0) h = g i' h1).
    { unfold choose_child_tree in Hch.
      set (i := scan_down k ks (length ks)) in *.
      destruct (ts !! i) as [tc|] eqn:Hti; [|done].
      destruct (rep_descend _ _ _ _ _ _ _ _ _ Hrep Hti)
        as (n & ca & m1 & m2 & fpc & Hx & Hlf & Hks & Hca & Hc & _).
      destruct (rep_inv_keys _ _ _ _ _ _ Hc) as (nc & Hhc & Hkc & _).
      destruct (Py.len (tkeys tc) =? 2 * t0 - 1) eqn:Hfull.
      - destruct (split_child_tree t0 ks ts i) as [[ks1 ts1]|] eqn:Hsp; [|done].
        destruct (ks1 !! i) as [ki|] eqn:Hki; [|done].
        inversion Hch; subst ks1 ts1 i'; clear Hch.
        destruct (split_child_rep _ _ _ _ _ _ _ _ _ _ _ Hrep Hsp)
          as (h1 & fp1 & Hrun & Hrep1 & Hext).
        exists h1, fp1. split; [done|]. split; [done|].
        intros B g. step. rewrite Hks. fold i. step. step.
        rewrite Hkc, Hfull.
        pose proof Hrep1 as Hrep1'.
        apply rep_node_inv in Hrep1' as (n1 & fq & Hx1 & _ & Hks1 & _).
        unfold bind at 1. unfold bind at 1. rewrite Hrun.
        step. rewrite Hks1, Hki. reflexivity.
      - inversion Hch; subst ks' ts' i'; clear Hch.
        exists h, fp. split; [done|]. split; [apply extends_refl|].
        intros B g. step. rewrite Hks. fold i. step. step.
        rewrite Hkc, Hfull. reflexivity. }
    destruct Hmid as (h1 & fp1 & Hrep1 & Hext1 & Hrun1).
    destruct (rep_descend _ _ _ _ _ _ _ _ _ Hrep1 Hci')
      as (n1 & ca & m1 & m2 & fpc & Hx1 & Hlf1 & Hks1 & Hca & Hc & Hback).
    destruct (IH _ _ _ _ _ _ _ Hc Hrec) as (h2 & fpc' & Hrun2 & Hc2 & Hext2).
    destruct (Hback _ _ _ Hc2 Hext2) as (fp2 & Hrep2 & Hext12).
    exists h2, fp2. split; [|split; [done|by eapply extends_trans]].
    pose proof Hrep as Hrep0.
    apply rep_node_inv in Hrep0 as (n & fq & Hx & Hlf & Hks & _).
    cbn [insert_non_full].
    rewrite (bind_Ret (load x) _ h n h) by (by apply load_Ret).
    rewrite Hlf.
    specialize (Hrun1 unit (fun i0 =>
       nx' <- load x ;; c' <- index_or_raise (children nx' !! i0) ;;
       insert_non_full fuel t0 c' k)).
    rewrite (bind_Ret (load x) _ h n h) in Hrun1 by (by apply load_Ret).
    rewrite Hrun1. step. step. exact Hrun2.
Qed.

(** ** [insert] and [range_query] on the store follow the functional model *)

Lemma insert_rep fuel self k tr tr' h f nx fp :
  rep h (root self) tr f nx fp ->
  insert_tree fuel (t self) tr k = Some tr' ->
  exists h' self' fp',
    insert fuel self k h = Ret self' h' /\ t self' = t self /\
    rep h' (root self') tr' f nx fp'.
Proof.
  intros Hrep Hins. unfold insert_tree in Hins. unfold insert.
  destruct (rep_inv_keys _ _ _ _ _ _ Hrep) as (nr & Hr & Hkr & _).
  step. rewrite Hkr.
  destruct (Py.len (tkeys tr) =? 2 * t self - 1).
  - destruct (split_child_tree (t self) [] [tr] 0) as [[ks cs]|] eqn:Hsp; [|done].
    rewrite new_node_Ret.
    set (r' := length h).
    set (h1 := h ++ [mkNode false [] [] None]).
    assert (H1 : h1 !! r' = Some (mkNode false [] [] None)).
    { subst h1 r'. rewrite lookup_app_r by lia. by rewrite Nat.sub_diag. }
    step.
    match goal with |- context [bind (split_child _ _ _) _ ?hh] => set (h2 := hh) end.
    assert (Hbound : forall b, b ∈ fp -> (b < r')%nat).
    { intros b Hb. eapply rep_bound; eauto. }
    assert (Hrep2 : rep h2 r' (Node [] [tr]) f nx ({[r']} ∪ fp)).
    { eapply rep_node' with (fp := fp) (cs := [root self]);
        [subst h2; apply list_lookup_insert_eq; subst h1; rewrite length_app;
         simpl; subst r'; lia|done|done|done| | |done].
      - apply reps_one. eapply rep_frame; [exact Hrep|].
        intros b Hb. apply Hbound in Hb. subst h2 h1.
        rewrite list_lookup_insert_ne by lia. by rewrite lookup_app_l.
      - intros Hin. apply Hbound in Hin. lia. }
    destruct (split_child_rep _ _ _ _ _ _ _ _ _ _ _ Hrep2 Hsp)
      as (h3 & fp3 & Hrun3 & Hrep3 & _).
    unfold bind at 1. rewrite Hrun3.
    destruct (insert_non_full_rep _ _ _ _ _ _ _ _ _ _ Hrep3 Hins)
      as (h4 & fp4 & Hrun4 & Hrep4 & _).
    unfold bind at 1. rewrite Hrun4.
    exists h4, (mkTree r' (t self)), fp4. done.
  - destruct (insert_non_full_rep _ _ _ _ _ _ _ _ _ _ Hrep Hins)
      as (h4 & fp4 & Hrun4 & Hrep4 & _).
    unfold bind at 1. rewrite Hrun4.
    exists h4, self, fp4. done.
Qed.

Lemma chain_app h a m nx l1 l2 :
  chain h a m l1 -> chain h m nx l2 -> chain h a nx (l1 ++ l2).
Proof.
  induction 1 as [|a n m ls Ha Hc IH]; intros H2; simpl; [done|].
  econstructor; [done|]. by apply IH.
Qed.

Lemma rep_reps_chain h :
  (forall a tr f nx fp, rep h a tr f nx fp -> chain h f nx (leaves tr)) /\
  (forall cs ts f nx fp, reps h cs ts f nx fp ->
     chain h f nx (concat (map leaves ts))).
Proof.
  apply rep_reps_ind.
  - intros a n Ha _. simpl. econstructor; [done|constructor].
  - intros a n ts f nx fp _ _ _ IH _. simpl. exact IH.
  - intros nx. constructor.
  - intros c tc cs ts f m nx fp fps _ IH1 _ IH2 _. simpl.
    by eapply chain_app.
Qed.

Lemma find_leaf_rep fuel k :
  forall x tr h f nx fp ls,
    rep h x tr f nx fp ->
    find_leaf_tree fuel tr k = Some ls ->
    exists a, find_leaf fuel x k h = Ret a h /\ chain h (Some a) nx ls.
Proof.
  induction fuel as [|fuel IH]; intros x tr h f nx fp ls Hrep Hfl; [done|].
  destruct tr as [ks|ks ts]; simpl in Hfl.
  - inversion Hfl; subst ls; clear Hfl.
    pose proof (proj1 (rep_reps_chain h) _ _ _ _ _ Hrep) as Hch.
    apply rep_leaf_inv in Hrep as (n & Hx & Hlf & <- & -> & <- & ->).
    exists x. simpl. step. rewrite Hlf. done.
  - destruct (ts !! scan_up k ks) as [tc|] eqn:Hti; [|done].
    destruct (find_leaf_tree fuel tc k) as [ls0|] eqn:Hrec; [|done].
    inversion Hfl; subst ls; clear Hfl.
    apply rep_node_inv in Hrep as (n & fp0 & Hx & Hlf & Hks & Hcs & Hxfp & ->).
    destruct (children n !! scan_up k ks) as [c|] eqn:Hci.
    2:{ apply lookup_ge_None in Hci. apply lookup_lt_Some in Hti.
        apply reps_length in Hcs. lia. }
    destruct (reps_split_at _ _ _ _ _ _ (scan_up k ks) Hcs)
      as (m1 & fpa & fpr & Ha & Hr & Hd & ->).
    rewrite (drop_S _ _ _ Hci), (drop_S _ _ _ Hti) in Hr.
    apply reps_cons_inv in Hr
      as (tc' & ts' & m2 & fpc & fpb & Heq & Hc & Hb & Hdcb & ->).
    inversion Heq; subst tc' ts'; clear Heq.
    destruct (IH _ _ _ _ _ _ _ Hc Hrec) as (a & Hrun & Hch).
    exists a. split.
    + simpl. step. rewrite Hlf, Hks. step. exact Hrun.
    + eapply chain_app; [exact Hch|].
      exact (proj2 (rep_reps_chain h) _ _ _ _ _ Hb).
Qed.

Lemma walk_leaves_chain h lo hi :
  forall ls a result fuel,
    chain h a None ls -> (length ls < fuel)%nat ->
    walk_leaves fuel lo hi a result h = Ret (walk_tree lo hi ls result) h.
Proof.
  induction ls as [|ks ls IH]; intros a result fuel Hch Hfuel.
  - inversion Hch; subst. by destruct fuel.
  - inversion Hch; subst. destruct fuel as [|fuel]; [simpl in Hfuel; lia|].
    simpl. step.
    destruct (scan_leaf lo hi (keys n) result) as [r' [|]]; [done|].
    apply IH; [done|simpl in Hfuel; lia].
Qed.

Lemma leaves_node_split ks (cs : list tree) i c :
  cs !! i = Some c ->
  leaves (Node ks cs) =
    concat (map leaves (take i cs)) ++ leaves c ++
    concat (map leaves (drop (S i) cs)).
Proof.
  intros Hi. simpl. rewrite <- (take_drop_middle _ _ _ Hi) at 1.
  rewrite map_app, concat_app. simpl. done.
Qed.

Lemma find_leaf_tree_length fuel k :
  forall tr ls, find_leaf_tree fuel tr k = Some ls ->
                (length ls <= length (leaves tr))%nat.
Proof.
  induction fuel as [|fuel IH]; intros tr ls Hfl; [done|].
  destruct tr as [ks|ks ts]; simpl in Hfl.
  - by inversion Hfl.
  - destruct (ts !! scan_up k ks) as [tc|] eqn:Hti; [|done].
    destruct (find_leaf_tree fuel tc k) as [ls0|] eqn:Hrec; [|done].
    inversion Hfl; subst ls; clear Hfl.
    rewrite (leaves_node_split _ _ _ _ Hti), !length_app.
    apply IH in Hrec. lia.
Qed.

Lemma range_query_rep fuel self lo hi tr h f fp res :
  rep h (root self) tr f None fp ->
  range_query_tree fuel tr lo hi = Some res ->
  (length (leaves tr) < fuel)%nat ->
  range_query fuel self lo hi h = Ret res h.
Proof.
  intros Hrep Hq Hfuel. unfold range_query_tree in Hq.
  destruct (find_leaf_tree fuel tr lo) as [ls|] eqn:Hfl; [|done].
  inversion Hq; subst res; clear Hq.
  destruct (find_leaf_rep _ _ _ _ _ _ _ _ _ Hrep Hfl) as (a & Hrun & Hch).
  unfold range_query. unfold bind. rewrite Hrun.
  apply walk_leaves_chain; [done|].
  apply find_leaf_tree_length in Hfl. lia.
Qed.

(** ** The loops over the keys of one node *)

Lemma scan_down_le k ks n : (scan_down k ks n <= n)%nat.
Proof.
  induction n as [|n IH]; simpl; [lia|].
  destruct (ks !! n); [|lia]. destruct (k <? z); lia.
Qed.

(** Every key at or after the position found is larger than [k]. *)
Lemma scan_down_above k ks n i x :
  (scan_down k ks n <= i < n)%nat -> ks !! i = Some x -> k < x.
Proof.
  induction n as [|n IH]; simpl; [lia|].
  destruct (ks !! n) as [y|] eqn:Hn.
  - destruct (Z.ltb_spec k y) as [Hlt|Hge].
    + intros Hi Hx. destruct (decide (i = n)) as [->|Hne].
      * congruence.
      * apply IH; [lia|done].
    + lia.
  - lia.
Qed.

(** The key just before the position found is not larger than [k]. *)
Lemma scan_down_below k ks n i x :
  (n <= length ks)%nat ->
  scan_down k ks n = S i -> ks !! i = Some x -> x <= k.
Proof.
  induction n as [|n IH]; simpl; [done|]. intros Hn.
  destruct (ks !! n) as [y|] eqn:Hy.
  - destruct (Z.ltb_spec k y) as [Hlt|Hge].
    + apply IH. lia.
    + intros [= ->]. congruence.
  - apply lookup_ge_None in Hy. lia.
Qed.

Lemma scan_down_app k ks ks' n :
  (n <= length ks)%nat -> scan_down k (ks ++ ks') n = scan_down k ks n.
Proof.
  induction n as [|n IH]; simpl; [done|]. intros Hn.
  rewrite lookup_app_l by lia. rewrite IH by lia. done.
Qed.

(** The shifting loop of the leaf case moves the keys larger than [k] one
    place to the right and leaves a free slot at the position found, the
    one [scan_down] computes. *)
Lemma shift_right_spec k :
  forall pre x suf,
    exists y,
      shift_right k (pre ++ x :: suf) (length pre) =
      (take (scan_down k pre (length pre)) pre ++
       y :: drop (scan_down k pre (length pre)) pre ++ suf,
       scan_down k pre (length pre)).
Proof.
  induction pre as [|p pre IH] using rev_ind; intros x suf.
  - exists x. done.
  - rewrite length_app. simpl. rewrite Nat.add_1_r. simpl.
    rewrite lookup_app_l by (rewrite length_app; simpl; lia).
    rewrite lookup_app_r by lia. rewrite Nat.sub_diag. simpl.
    destruct (Z.ltb_spec k p) as [Hlt|Hge].
    + replace (<[S (length pre):=p]> ((pre ++ [p]) ++ x :: suf))
        with (pre ++ p :: p :: suf).
      2:{ rewrite <- app_assoc. simpl.
          rewrite insert_app_r_alt by lia.
          replace (S (length pre) - length pre)%nat with 1%nat by lia. done. }
      destruct (IH p (p :: suf)) as (y & ->).
      exists y. rewrite scan_down_app by lia.
      pose proof (scan_down_le k pre (length pre)) as Hle.
      rewrite take_app_le by lia. rewrite drop_app_le by lia.
      by rewrite <- app_assoc.
    + exists x. rewrite take_ge by (rewrite length_app; simpl; lia).
      rewrite drop_ge by (rewrite length_app; simpl; lia). done.
Qed.

Lemma insert_in_leaf_spec k ks :
  insert_in_leaf k ks =
  take (scan_down k ks (length ks)) ks ++
  k :: drop (scan_down k ks (length ks)) ks.
Proof.
  unfold insert_in_leaf.
  destruct (shift_right_spec k ks 0 []) as (y & ->).
  pose proof (scan_down_le k ks (length ks)) as Hle.
  rewrite insert_app_r_alt by (rewrite length_take; lia).
  rewrite length_take, Nat.min_l by lia. rewrite Nat.sub_diag. simpl.
  by rewrite app_nil_r.
Qed.

Lemma insert_in_leaf_perm k ks : insert_in_leaf k ks ≡ₚ k :: ks.
Proof.
  rewrite insert_in_leaf_spec. rewrite <- Permutation_middle.
  by rewrite take_drop.
Qed.

Lemma insert_in_leaf_sorted k ks :
  StronglySorted Z.lt ks -> k ∉ ks ->
  StronglySorted Z.lt (insert_in_leaf k ks).
Proof.
  intros Hs Hk. rewrite insert_in_leaf_spec.
  set (j := scan_down k ks (length ks)).
  rewrite <- (take_drop j ks) in Hs.
  apply StronglySorted_app in Hs as (Hlr & Hl & Hr).
  assert (Hab : forall x, x ∈ drop j ks -> k < x).
  { intros x Hx. apply list_elem_of_lookup in Hx as (i & Hi).
    rewrite lookup_drop in Hi.
    eapply (scan_down_above k ks (length ks)); [|exact Hi].
    apply lookup_lt_Some in Hi. fold j. lia. }
  assert (Hbe : forall x, x ∈ take j ks -> x < k).
  { intros x Hx.
    destruct j as [|j'] eqn:Hj; [by rewrite take_0 in Hx; inversion Hx|].
    destruct (ks !! j') as [y|] eqn:Hy.
    2:{ apply lookup_ge_None in Hy.
        pose proof (scan_down_le k ks (length ks)). fold j in H. lia. }
    assert (y <= k) by (eapply scan_down_below; [|exact Hj|exact Hy]; lia).
    assert (y <> k) by (intros ->; apply Hk; eapply list_elem_of_lookup_2; eauto).
    assert (x <= y).
    { rewrite (take_S_r _ _ _ Hy) in Hx, Hl.
      apply elem_of_app in Hx as [Hx|Hx].
      - apply StronglySorted_app in Hl as (Hl1 & _).
        assert (x < y) by (apply Hl1; [done|by apply list_elem_of_singleton]). lia.
      - apply list_elem_of_singleton in Hx. lia. }
    lia. }
  apply StronglySorted_app. split; [|split; [done|]].
  - intros x1 x2 H1 H2. apply elem_of_cons in H2 as [->|H2]; [by apply Hbe|].
    by apply Hlr.
  - constructor; [done|]. apply Forall_forall. intros x Hx. by apply Hab.
Qed.

(** A key below the last one does not become the last one. *)
Lemma insert_in_leaf_last k ks u :
  last ks = Some u -> k < u -> last (insert_in_leaf k ks) = Some u.
Proof.
  intros Hl Hk. rewrite insert_in_leaf_spec.
  set (j := scan_down k ks (length ks)).
  assert (Hj : (j < length ks)%nat).
  { pose proof (scan_down_le k ks (length ks)) as Hle. fold j in Hle.
    destruct (decide (j = length ks)) as [Heq|]; [|lia].
    rewrite last_lookup in Hl.
    assert (Hpos : (0 < length ks)%nat).
    { apply lookup_lt_Some in Hl. lia. }
    assert (u <= k); [|lia].
    eapply (scan_down_below k ks (length ks) (pred (length ks)));
      [lia| |exact Hl].
    fold j. lia. }
  rewrite last_app, last_cons.
  assert (Hd : last (drop j ks) = Some u).
  { rewrite <- (take_drop j ks) in Hl. rewrite last_app in Hl.
    destruct (last (drop j ks)) eqn:Hd; [done|].
    apply last_None in Hd. apply (f_equal length) in Hd.
    rewrite length_drop in Hd. simpl in Hd. lia. }
  by rewrite Hd.
Qed.

Lemma flat_node ks cs : flat (Node ks cs) = concat (map flat cs).
Proof.
  unfold flat. simpl. induction cs as [|c cs IH]; simpl; [done|].
  by rewrite concat_app, IH.
Qed.

Lemma forest_length P lo ks hi cs :
  forest P lo ks hi cs -> length cs = S (length ks).
Proof.
  revert lo ks. induction cs as [|c cs IH]; intros lo ks H; simpl in *; [done|].
  destruct ks as [|k ks].
  - destruct H as [-> _]. done.
  - destruct H as [_ H]. simpl. f_equal. eauto.
Qed.

Lemma forest_impl (P Q : option Z -> option Z -> tree -> Prop) lo ks hi cs :
  (forall l u c, P l u c -> Q l u c) ->
  forest P lo ks hi cs -> forest Q lo ks hi cs.
Proof.
  intros HPQ. revert lo ks.
  induction cs as [|c cs IH]; intros lo ks H; simpl in *; [done|].
  destruct ks as [|k ks]; naive_solver.
Qed.

(** The child at position [i], its bounds, and what may replace it. *)
Lemma forest_focus P lo ks hi cs i c :
  forest P lo ks hi cs -> cs !! i = Some c ->
  exists l u,
    (lo :: (Some <$> ks)) !! i = Some l /\
    ((Some <$> ks) ++ [hi]) !! i = Some u /\
    P l u c /\
    (forall c', P l u c' -> forest P lo ks hi (<[i:=c']> cs)) /\
    (forall m c1 c2,
        P l (Some m) c1 -> P (Some m) u c2 ->
        forest P lo (take i ks ++ m :: drop i ks) hi
          (take i cs ++ c1 :: c2 :: drop (S i) cs)).
Proof.
  revert lo ks i. induction cs as [|c0 cs IH]; intros lo ks i H Hi; [done|].
  simpl in H. destruct ks as [|k ks].
  - destruct H as [-> H]. destruct i as [|i]; [|done].
    inversion Hi; subst c0. exists lo, hi. simpl. naive_solver.
  - destruct H as [H0 H]. destruct i as [|i].
    + inversion Hi; subst c0. exists lo, (Some k). simpl. naive_solver.
    + simpl in Hi.
      destruct (IH _ _ _ H Hi) as (l & u & Hl & Hu & HP & Hrep & Hsp).
      exists l, u. simpl. split; [done|]. split; [done|]. split; [done|].
      split.
      * intros c' Hc'. split; [done|]. by apply Hrep.
      * intros m c1 c2 H1 H2. split; [done|]. by apply Hsp.
Qed.

(** Cutting a forest at the separator of position [n]. *)
Lemma forest_cut P lo ks hi cs n m :
  forest P lo ks hi cs -> ks !! n = Some m ->
  forest P lo (take n ks) (Some m) (take (S n) cs) /\
  forest P (Some m) (drop (S n) ks) hi (drop (S n) cs).
Proof.
  revert lo ks n. induction cs as [|c cs IH]; intros lo ks n H Hn; [done|].
  simpl in H. destruct ks as [|k ks]; [done|]. destruct H as [H0 H].
  destruct n as [|n].
  - inversion Hn; subst k. simpl. rewrite take_0. done.
  - simpl in Hn. destruct (IH _ _ _ H Hn) as [H1 H2].
    split; [|done]. simpl. split; [done|]. exact H1.
Qed.

Lemma good_app lo k hi l1 l2 :
  good lo (Some k) l1 -> good (Some k) hi l2 -> good lo hi (l1 ++ l2).
Proof.
  intros (Hs1 & Hb1 & Hl1) (Hs2 & Hb2 & Hl2).
  rewrite Forall_forall in Hb1, Hb2.
  pose proof (Hl1 k eq_refl) as Hk.
  apply last_Some_elem_of in Hk.
  destruct (Hb1 _ Hk) as [Hlok _].
  split; [|split].
  - apply StronglySorted_app. split; [|done].
    intros x1 x2 H1 H2. apply Hb1 in H1 as [_ H1]. apply Hb2 in H2 as [H2 _].
    simpl in *. lia.
  - apply Forall_forall. intros x Hx. apply elem_of_app in Hx as [Hx|Hx].
    + destruct (Hb1 _ Hx) as [Ha Hb]. split; [done|].
      destruct hi as [u|]; [|done]. simpl in *.
      pose proof (Hl2 u eq_refl) as Hu. apply last_Some_elem_of in Hu.
      destruct (Hb2 _ Hu) as [Hc _]. simpl in Hc. lia.
    + destruct (Hb2 _ Hx) as [Ha Hb]. split; [|done].
      destruct lo as [l|]; [|done]. simpl in *. lia.
  - intros u Hu. rewrite last_app. by rewrite (Hl2 u Hu).
Qed.

Lemma forest_good lo ks hi cs :
  forest (fun l u c => good l u (flat c)) lo ks hi cs ->
  good lo hi (concat (map flat cs)).
Proof.
  revert lo ks. induction cs as [|c cs IH]; intros lo ks H; [done|].
  simpl in H. destruct ks as [|k ks].
  - destruct H as [-> H]. simpl. by rewrite app_nil_r.
  - destruct H as [H0 H]. simpl. eapply good_app; [exact H0|]. by eapply IH.
Qed.

Lemma wf_good d : forall lo hi tr, wf d lo hi tr -> good lo hi (flat tr).
Proof.
  induction d as [|d IH]; intros lo hi [ks|ks cs] H; simpl in H; try done.
  - unfold flat. simpl. by rewrite app_nil_r.
  - destruct H as [_ H]. rewrite flat_node. apply (forest_good lo (seps hi ks)).
    eapply forest_impl; [|exact H]. intros l u c. apply IH.
Qed.

Lemma wf_last d lo u tr : wf d lo (Some u) tr -> u ∈ flat tr.
Proof.
  intros H. apply wf_good in H as (_ & _ & H).
  apply last_Some_elem_of. by apply H.
Qed.

(** ** Splitting preserves the invariant *)

Lemma good_split lo hi l j m :
  good lo hi l -> l !! j = Some m -> (S j < length l)%nat ->
  good lo (Some m) (take (S j) l) /\ good (Some m) hi (drop (S j) l).
Proof.
  intros (Hs & Hb & Hl) Hj Hlen.
  rewrite <- (take_drop (S j) l) in Hs. rewrite (take_S_r _ _ _ Hj) in Hs.
  apply StronglySorted_app in Hs as (Hlr & Hsl & Hsr).
  apply StronglySorted_app in Hsl as (Hlm & Hsl & _).
  rewrite Forall_forall in Hb.
  rewrite (take_S_r _ _ _ Hj).
  split; (split; [|split]).
  - apply StronglySorted_app. split; [done|]. split; [done|].
    repeat constructor.
  - apply Forall_forall. intros x Hx.
    split; [apply Hb; apply (subseteq_take (S j) l);
            by rewrite (take_S_r _ _ _ Hj)|].
    simpl. apply elem_of_app in Hx as [Hx|Hx].
    + assert (x < m); [|lia]. apply Hlm; [done|]. by apply list_elem_of_singleton.
    + apply list_elem_of_singleton in Hx. lia.
  - intros u [= <-]. apply last_snoc.
  - done.
  - apply Forall_forall. intros x Hx. split.
    + simpl. apply Hlr; [|done]. apply elem_of_app. right.
      by apply list_elem_of_singleton.
    + apply Hb. by apply (subseteq_drop (S j) l).
  - intros u Hu. specialize (Hl u Hu).
    rewrite <- (take_drop (S j) l), last_app in Hl.
    destruct (last (drop (S j) l)) eqn:Hd; [done|].
    apply last_None in Hd. apply (f_equal length) in Hd.
    rewrite length_drop in Hd. simpl in Hd. lia.
Qed.

Lemma seps_take hi ks n :
  (n < length (seps hi ks))%nat -> take n (seps hi ks) = take n ks.
Proof.
  destruct hi; simpl; [|done]. rewrite length_take. intros Hn.
  rewrite take_take. f_equal. lia.
Qed.

Lemma seps_lookup hi ks j :
  (j < length (seps hi ks))%nat -> seps hi ks !! j = ks !! j.
Proof.
  destruct hi; simpl; [|done]. rewrite length_take. intros Hn.
  apply lookup_take_lt. lia.
Qed.

Lemma seps_drop hi ks n :
  (n < length ks)%nat -> seps hi (drop n ks) = drop n (seps hi ks).
Proof.
  destruct hi; simpl; [|done]. intros Hn. rewrite length_drop.
  rewrite take_drop_commute. do 2 f_equal. lia.
Qed.

Lemma seps_length hi ks :
  (forall u, hi = Some u -> last ks = Some u) ->
  length ks =
  (length (seps hi ks) + match hi with Some _ => 1 | None => 0 end)%nat.
Proof.
  destruct hi as [u|]; simpl; [|lia]. intros H. specialize (H u eq_refl).
  rewrite length_take. destruct ks; [done|]. simpl. lia.
Qed.

Lemma wf_split_tree d t0 lo hi y :
  2 <= t0 -> wf d lo hi y -> Py.len (tkeys y) = 2 * t0 - 1 ->
  exists m,
    Py.get (tkeys y) (t0 - 1) = Some m /\
    wf d lo (Some m) (split_tree t0 y).1 /\
    wf d (Some m) hi (split_tree t0 y).2 /\
    flat (split_tree t0 y).1 ++ flat (split_tree t0 y).2 = flat y.
Proof.
  intros Ht Hwf Hlen. unfold Py.len in Hlen.
  set (n := Z.to_nat t0).
  assert (Hn : (1 < n)%nat) by lia.
  assert (Hnl : (S n < length (tkeys y) + 1)%nat) by lia.
  assert (Hkl : length (tkeys y) = (2 * n - 1)%nat) by lia.
  rewrite get_pos by lia.
  replace (Z.to_nat (t0 - 1)) with (pred n) by lia.
  destruct (tkeys y !! pred n) as [m|] eqn:Hm.
  2:{ apply lookup_ge_None in Hm. lia. }
  exists m. split; [done|].
  destruct d as [|d], y as [ks|ks cs]; simpl in Hwf; try done; simpl in *.
  - unfold Py.upto, Py.from. rewrite clamp_pos by (unfold Py.len; lia). fold n.
    destruct (good_split lo hi ks (pred n) m Hwf Hm ltac:(lia)) as [H1 H2].
    replace (S (pred n)) with n in H1, H2 by lia.
    split; [done|]. split; [done|].
    unfold flat. simpl. by rewrite !app_nil_r, take_drop.
  - destruct Hwf as [Hlast Hf].
    pose proof (forest_length _ _ _ _ _ Hf) as Hcl.
    pose proof (seps_length hi ks Hlast) as Hsl.
    assert (Hjs : (pred n < length (seps hi ks))%nat).
    { destruct hi; lia. }
    unfold Py.upto, Py.from.
    rewrite (clamp_pos ks) by (unfold Py.len; lia).
    rewrite (clamp_pos cs) by (unfold Py.len; destruct hi; lia). fold n.
    assert (Hms : seps hi ks !! pred n = Some m) by (by rewrite seps_lookup).
    destruct (forest_cut _ _ _ _ _ _ _ Hf Hms) as [H1 H2].
    replace (S (pred n)) with n in H1, H2 by lia.
    split; [|split].
    + split.
      * intros u [= <-]. rewrite last_lookup, length_take, Nat.min_l by lia.
        rewrite lookup_take_lt by lia. done.
      * simpl. rewrite length_take, Nat.min_l by lia. rewrite take_take.
        rewrite Nat.min_l by lia. by rewrite seps_take in H1.
    + split.
      * intros u Hu. specialize (Hlast u Hu).
        rewrite <- (take_drop n ks), last_app in Hlast.
        destruct (last (drop n ks)) eqn:Hd; [done|].
        apply last_None in Hd. apply (f_equal length) in Hd.
        rewrite length_drop in Hd. simpl in Hd. lia.
      * rewrite seps_drop by lia. done.
    + rewrite !flat_node, <- concat_app, <- map_app, take_drop. done.
Qed.

(** Every key of an internal node is a key of some leaf below it. *)
Lemma forest_seps_in d lo ks hi cs x :
  forest (wf d) lo ks hi cs -> x ∈ ks -> x ∈ concat (map flat cs).
Proof.
  revert lo ks. induction cs as [|c cs IH]; intros lo ks H Hx; [done|].
  simpl in H. destruct ks as [|k ks]; [by inversion Hx|].
  destruct H as [H0 H]. simpl. apply elem_of_app.
  apply elem_of_cons in Hx as [->|Hx].
  - left. by eapply wf_last.
  - right. by eapply IH.
Qed.

Lemma forest_child_in (cs : list tree) i c x :
  cs !! i = Some c -> x ∈ flat c -> x ∈ concat (map flat cs).
Proof.
  intros Hi Hx. rewrite <- (take_drop_middle _ _ _ Hi).
  rewrite map_app, concat_app. simpl. set_solver.
Qed.

Lemma node_keys_in_flat d lo hi ks cs x :
  wf (S d) lo hi (Node ks cs) -> x ∈ ks -> x ∈ flat (Node ks cs).
Proof.
  intros Hwf Hx. pose proof (wf_good _ _ _ _ Hwf) as (_ & _ & Hl).
  destruct Hwf as [Hlast Hf]. rewrite flat_node in *.
  destruct hi as [u|]; simpl in Hf.
  - specialize (Hlast u eq_refl).
    destruct (decide (x ∈ take (pred (length ks)) ks)) as [Hin|Hnin].
    + by eapply forest_seps_in.
    + assert (x = u); [|subst; apply last_Some_elem_of; by apply Hl].
      apply list_elem_of_lookup in Hx as (j & Hj).
      pose proof (lookup_lt_Some _ _ _ Hj) as Hjl.
      destruct (decide (j < pred (length ks))%nat) as [Hlt|Hge].
      * exfalso. apply Hnin. eapply list_elem_of_lookup_2.
        rewrite lookup_take_lt; eauto.
      * rewrite last_lookup in Hlast.
        replace (pred (length ks)) with j in Hlast by lia. congruence.
  - by eapply forest_seps_in.
Qed.

Lemma seps_insert hi ks i m :
  (forall u, hi = Some u -> (i < length ks)%nat) ->
  seps hi (take i ks ++ m :: drop i ks) =
  take i (seps hi ks) ++ m :: drop i (seps hi ks).
Proof.
  destruct hi as [u|]; simpl; [|done]. intros Hi. specialize (Hi u eq_refl).
  rewrite length_app, length_take, Nat.min_l by lia. simpl.
  rewrite length_drop.
  replace (pred (i + S (length ks - i))) with (i + S (length ks - i - 1))%nat by lia.
  rewrite take_app_add' by (rewrite length_take; lia). simpl.
  rewrite take_take, Nat.min_l by lia.
  rewrite take_drop_commute. do 4 f_equal. lia.
Qed.

Lemma wf_split_child d t0 lo hi ks cs i c :
  2 <= t0 -> wf (S d) lo hi (Node ks cs) -> cs !! i = Some c ->
  Py.len (tkeys c) = 2 * t0 - 1 ->
  exists m cs',
    split_child_tree t0 ks cs i = Some (take i ks ++ m :: drop i ks, cs') /\
    (i <= length ks)%nat /\
    wf (S d) lo hi (Node (take i ks ++ m :: drop i ks) cs') /\
    flat (Node (take i ks ++ m :: drop i ks) cs') = flat (Node ks cs).
Proof.
  intros Ht [Hlast Hf] Hi Hfull.
  pose proof (forest_length _ _ _ _ _ Hf) as Hcl.
  pose proof (seps_length hi ks Hlast) as Hsl.
  pose proof (lookup_lt_Some _ _ _ Hi) as Hil.
  destruct (forest_focus _ _ _ _ _ _ _ Hf Hi) as (l & u & _ & _ & Hc & _ & Hsp).
  destruct (wf_split_tree _ _ _ _ _ Ht Hc Hfull) as (m & Hm & Hy & Hz & Hfl).
  exists m, (take i cs ++ [(split_tree t0 c).1; (split_tree t0 c).2] ++ drop (S i) cs).
  split; [|split; [destruct hi; lia|split]].
  - unfold split_child_tree. rewrite Hi, Hm. by rewrite insert_nat.
  - split.
    + intros u0 Hu. specialize (Hlast u0 Hu). subst hi.
      assert (Hd : last (drop i ks) = Some u0).
      { rewrite <- (take_drop i ks), last_app in Hlast.
        destruct (last (drop i ks)) eqn:Hd; [done|].
        apply last_None in Hd. apply (f_equal length) in Hd.
        rewrite length_drop in Hd. simpl in Hd. lia. }
      by rewrite last_app, last_cons, Hd.
    + rewrite seps_insert by (intros u0 ->; lia). by apply Hsp.
  - rewrite !flat_node.
    trans (concat (map flat (take i cs ++ c :: drop (S i) cs)));
      [|by rewrite take_drop_middle].
    rewrite !map_app, !concat_app. simpl. rewrite <- Hfl.
    by rewrite <- !app_assoc.
Qed.

Lemma scan_down_routes k ks : routes ks k (scan_down k ks (length ks)).
Proof.
  split; [apply scan_down_le|]. split.
  - intros j x Hj Hx. eapply (scan_down_above k ks (length ks)); [|exact Hx].
    apply lookup_lt_Some in Hx. lia.
  - intros j x Hj Hx.
    eapply (scan_down_below k ks (length ks)); [lia|exact Hj|exact Hx].
Qed.

(** After the split of the child at [i], the comparison with the promoted
    key chooses the position the scan would choose. *)
Lemma routes_insert ks k i m :
  routes ks k i -> m <> k ->
  routes (take i ks ++ m :: drop i ks) k (if m <? k then S i else i).
Proof.
  intros (Hi & Hab & Hbe) Hmk.
  assert (Hlen : length (take i ks) = i) by (rewrite length_take; lia).
  destruct (Z.ltb_spec m k) as [Hlt|Hge]; split; [| split | | split].
  - rewrite length_app, Hlen. simpl. rewrite length_drop. lia.
  - intros j x Hj Hx. rewrite lookup_app_r in Hx by lia. rewrite Hlen in Hx.
    destruct (j - i)%nat as [|n] eqn:Hn; [lia|]. simpl in Hx.
    rewrite lookup_drop in Hx. eapply Hab; [|exact Hx]. lia.
  - intros j x [= <-] Hx. rewrite lookup_app_r in Hx by lia.
    rewrite Hlen, Nat.sub_diag in Hx. simpl in Hx. inversion Hx. lia.
  - rewrite length_app, Hlen. simpl. lia.
  - intros j x Hj Hx. rewrite lookup_app_r in Hx by lia. rewrite Hlen in Hx.
    destruct (j - i)%nat as [|n] eqn:Hn; simpl in Hx.
    + inversion Hx. lia.
    + rewrite lookup_drop in Hx. eapply Hab; [|exact Hx]. lia.
  - intros j x -> Hx. rewrite lookup_app_l in Hx by lia.
    rewrite lookup_take_lt in Hx by lia. by eapply Hbe.
Qed.

(** The child a new key is routed to, and how the node is rebuilt. *)
Lemma wf_descend d lo hi ks cs k i :
  wf (S d) lo hi (Node ks cs) -> routes ks k i ->
  lt_lo lo k -> lt_hi k hi -> (k ∉ flat (Node ks cs)) ->
  exists c l u,
    cs !! i = Some c /\ wf d l u c /\ lt_lo l k /\ lt_hi k u /\ (k ∉ flat c) /\
    forall c',
      wf d l u c' -> flat c' ≡ₚ k :: flat c ->
      wf (S d) lo hi (Node ks (<[i:=c']> cs)) /\
      flat (Node ks (<[i:=c']> cs)) ≡ₚ k :: flat (Node ks cs).
Proof.
  intros Hwf (Hi & Hab & Hbe) Hlo Hhi Hk.
  pose proof (node_keys_in_flat _ _ _ _ _ k Hwf) as Hkin.
  assert (Hin : forall x, x ∈ ks -> x <> k).
  { intros x Hx ->. apply Hk. by eapply node_keys_in_flat. }
  destruct Hwf as [Hlast Hf].
  pose proof (forest_length _ _ _ _ _ Hf) as Hcl.
  pose proof (seps_length hi ks Hlast) as Hsl.
  assert (His : (i <= length (seps hi ks))%nat).
  { destruct hi as [u|]; [|lia]. simpl in Hhi.
    destruct (decide (i = length ks)) as [->|]; [|lia]. exfalso.
    specialize (Hlast u eq_refl). rewrite last_lookup in Hlast.
    destruct (length ks) as [|n] eqn:Hn; [lia|]. simpl in Hlast.
    specialize (Hbe n u eq_refl Hlast). lia. }
  destruct (cs !! i) as [c|] eqn:Hci.
  2:{ apply lookup_ge_None in Hci. lia. }
  destruct (forest_focus _ _ _ _ _ _ _ Hf Hci) as (l & u & Hl & Hu & Hc & Hrep & _).
  exists c, l, u. split; [done|]. split; [done|].
  split; [|split; [|split]].
  - destruct i as [|j]; simpl in Hl; [by inversion Hl; subst l|].
    rewrite list_lookup_fmap in Hl.
    destruct (seps hi ks !! j) as [x|] eqn:Hx; [|done].
    inversion Hl; subst l. simpl.
    rewrite seps_lookup in Hx by lia.
    specialize (Hbe j x eq_refl Hx).
    assert (x <> k) by (apply Hin; by eapply list_elem_of_lookup_2).
    lia.
  - destruct (decide (i < length (seps hi ks))%nat) as [Hlt|Hge].
    + rewrite lookup_app_l in Hu by (by rewrite length_fmap).
      rewrite list_lookup_fmap in Hu.
      destruct (seps hi ks !! i) as [x|] eqn:Hx; [|done].
      inversion Hu; subst u. simpl.
      rewrite seps_lookup in Hx by lia. by apply (Hab i x).
    + rewrite lookup_app_r in Hu by (rewrite length_fmap; lia).
      rewrite length_fmap in Hu.
      replace (i - length (seps hi ks))%nat with O in Hu by lia.
      simpl in Hu. by inversion Hu; subst u.
  - intros Hkc. apply Hk. rewrite flat_node. by eapply forest_child_in.
  - intros c' Hc' Hperm. split; [split; [done|by apply Hrep]|].
    rewrite !flat_node.
    rewrite insert_take_drop by (by eapply lookup_lt_Some).
    trans (k :: concat (map flat (take i cs ++ c :: drop (S i) cs)));
      [|by rewrite take_drop_middle].
    rewrite !map_app, !concat_app. simpl. rewrite Hperm. simpl.
    by rewrite <- Permutation_middle.
Qed.

(** ** Insertion below the root preserves the invariant *)

Lemma insert_non_full_tree_wf t0 k :
  2 <= t0 ->
  forall d tr lo hi,
    wf d lo hi tr -> lt_lo lo k -> lt_hi k hi -> k ∉ flat tr ->
    exists tr',
      (forall fuel, (d < fuel)%nat ->
                    insert_non_full_tree fuel t0 tr k = Some tr') /\
      wf d lo hi tr' /\ flat tr' ≡ₚ k :: flat tr.
Proof.
  intros Ht. induction d as [|d IH]; intros [ks|ks cs] lo hi Hwf Hlo Hhi Hk;
    simpl in Hwf; try done.
  - exists (Leaf (insert_in_leaf k ks)).
    assert (Hks : flat (Leaf ks) = ks) by (unfold flat; simpl; apply app_nil_r).
    rewrite Hks in Hk.
    split; [|split].
    + intros [|fuel] Hf; [lia|done].
    + destruct Hwf as (Hs & Hb & Hl). simpl. split; [|split].
      * by apply insert_in_leaf_sorted.
      * rewrite (insert_in_leaf_perm k ks). constructor; [|done].
        split; [done|]. destruct hi; simpl in *; [lia|done].
      * intros u ->. apply insert_in_leaf_last; [by apply Hl|done].
    + unfold flat. simpl. rewrite !app_nil_r. apply insert_in_leaf_perm.
  - set (i := scan_down k ks (length ks)).
    pose proof (scan_down_routes k ks) as Hroute. fold i in Hroute.
    change (wf (S d) lo hi (Node ks cs)) in Hwf.
    assert (Hch : exists ks' cs' i',
      choose_child_tree t0 ks cs i k = Some (ks', cs', i') /\
      wf (S d) lo hi (Node ks' cs') /\
      flat (Node ks' cs') = flat (Node ks cs) /\ routes ks' k i').
    { destruct (wf_descend _ _ _ _ _ _ _ Hwf Hroute Hlo Hhi Hk)
        as (c & l & u & Hci & _).
      unfold choose_child_tree. rewrite Hci.
      destruct (Z.eqb_spec (Py.len (tkeys c)) (2 * t0 - 1)) as [Hfull|Hnf].
      - destruct (wf_split_child _ _ _ _ _ _ _ _ Ht Hwf Hci Hfull)
          as (m & cs' & Hsp & Hil & Hwf' & Hfl).
        rewrite Hsp.
        assert (Hki : (take i ks ++ m :: drop i ks) !! i = Some m).
        { rewrite lookup_app_r; rewrite length_take, Nat.min_l by lia; [|lia].
          by rewrite Nat.sub_diag. }
        rewrite Hki.
        eexists _, _, _. split; [reflexivity|]. split; [done|]. split; [done|].
        apply routes_insert; [done|].
        intros ->. apply Hk. rewrite <- Hfl.
        eapply node_keys_in_flat; [exact Hwf'|].
        by eapply list_elem_of_lookup_2.
      - eexists _, _, _. split; [reflexivity|]. done. }
    destruct Hch as (ks' & cs' & i' & Hch & Hwf' & Hfl & Hroute').
    rewrite <- Hfl in Hk.
    destruct (wf_descend _ _ _ _ _ _ _ Hwf' Hroute' Hlo Hhi Hk)
      as (c & l & u & Hci & Hc & Hl & Hu & Hkc & Hback).
    destruct (IH _ _ _ Hc Hl Hu Hkc) as (c' & Hrun & Hc' & Hperm).
    destruct (Hback _ Hc' Hperm) as [Hwf'' Hperm''].
    exists (Node ks' (<[i':=c']> cs')). split; [|split; [done|]].
    + intros [|fuel] Hf; [lia|]. simpl. fold i. rewrite Hch, Hci.
      rewrite Hrun by lia. done.
    + by rewrite Hperm'', Hfl.
Qed.

(** ** Insertion from the root *)

Lemma insert_tree_wf t0 k d tr :
  2 <= t0 -> wf d None None tr -> k ∉ flat tr ->
  exists tr' d',
    (forall fuel, (S d < fuel)%nat -> insert_tree fuel t0 tr k = Some tr') /\
    wf d' None None tr' /\ (d' <= S d)%nat /\ flat tr' ≡ₚ k :: flat tr.
Proof.
  intros Ht Hwf Hk. unfold insert_tree.
  destruct (Z.eqb_spec (Py.len (tkeys tr)) (2 * t0 - 1)) as [Hfull|Hnf].
  - assert (Hroot : wf (S d) None None (Node [] [tr])) by (simpl; done).
    destruct (wf_split_child _ _ _ _ _ _ 0%nat _ Ht Hroot eq_refl Hfull)
      as (m & cs' & Hsp & _ & Hwf' & Hfl).
    rewrite Hsp.
    assert (Hfl0 : flat (Node [] [tr]) = flat tr).
    { rewrite flat_node. simpl. apply app_nil_r. }
    rewrite Hfl0 in Hfl. rewrite <- Hfl in Hk.
    destruct (insert_non_full_tree_wf t0 k Ht _ _ _ _ Hwf' I I Hk)
      as (tr' & Hrun & Hwf'' & Hperm).
    exists tr', (S d). split; [done|]. split; [done|]. split; [lia|].
    by rewrite Hperm, Hfl.
  - destruct (insert_non_full_tree_wf t0 k Ht _ _ _ _ Hwf I I Hk)
      as (tr' & Hrun & Hwf'' & Hperm).
    exists tr', d. split; [|split; [done|split; [lia|done]]].
    intros fuel Hf. apply Hrun. lia.
Qed.

Lemma insert_all_tree_wf t0 :
  2 <= t0 ->
  forall ks d tr,
    wf d None None tr -> NoDup ks -> (forall k, k ∈ ks -> k ∉ flat tr) ->
    exists tr' d',
      (forall fuel, (d + length ks < fuel)%nat ->
                    insert_all_tree fuel t0 tr ks = Some tr') /\
      wf d' None None tr' /\ (d' <= d + length ks)%nat /\
      flat tr' ≡ₚ ks ++ flat tr.
Proof.
  intros Ht. induction ks as [|k ks IH]; intros d tr Hwf Hnd Hfresh.
  - exists tr, d. split; [done|]. split; [done|]. split; [simpl; lia|done].
  - apply NoDup_cons in Hnd as [Hk Hnd].
    destruct (insert_tree_wf t0 k d tr Ht Hwf) as (tr1 & d1 & Hrun1 & Hwf1 & Hd1 & Hp1).
    { apply Hfresh. by left. }
    destruct (IH d1 tr1 Hwf1 Hnd) as (tr2 & d2 & Hrun2 & Hwf2 & Hd2 & Hp2).
    { intros x Hx. rewrite Hp1. intros Hin.
      apply elem_of_cons in Hin as [->|Hin]; [done|].
      by apply (Hfresh x); [right|]. }
    exists tr2, d2. split; [|split; [done|split]].
    + intros fuel Hf. simpl in *. rewrite Hrun1 by lia. apply Hrun2. lia.
    + simpl. lia.
    + rewrite Hp2, Hp1. simpl. by rewrite <- Permutation_middle.
Qed.

Lemma insert_all_rep fuel :
  forall ks self tr tr' h f fp,
    rep h (root self) tr f None fp ->
    insert_all_tree fuel (t self) tr ks = Some tr' ->
    exists h' self' fp',
      insert_all fuel self ks h = Ret self' h' /\ t self' = t self /\
      rep h' (root self') tr' f None fp'.
Proof.
  unfold insert_all.
  induction ks as [|k ks IH]; intros self tr tr' h f fp Hrep Hins; simpl in *.
  - inversion Hins; subst tr'. by exists h, self, fp.
  - destruct (insert_tree fuel (t self) tr k) as [tr1|] eqn:H1; [|done].
    destruct (insert_rep _ _ _ _ _ _ _ _ _ Hrep H1)
      as (h1 & self1 & fp1 & Hrun1 & Ht1 & Hrep1).
    rewrite <- Ht1 in Hins.
    destruct (IH _ _ _ _ _ _ Hrep1 Hins) as (h2 & self2 & fp2 & Hrun2 & Ht2 & Hrep2).
    exists h2, self2, fp2. split; [|split; [congruence|done]].
    unfold bind at 1. by rewrite Hrun1.
Qed.

(** ** A range query that covers every key *)

Lemma scan_leaf_all lo hi ks result :
  Forall (fun k => lo <= k <= hi) ks ->
  scan_leaf lo hi ks result = (result ++ ks, false).
Proof.
  revert result. induction ks as [|k ks IH]; intros result Hall; simpl.
  - by rewrite app_nil_r.
  - apply Forall_cons in Hall as [Hk Hall].
    destruct (Z.leb_spec lo k); [|lia]. destruct (Z.leb_spec k hi); [|lia].
    simpl. rewrite IH by done. by rewrite <- app_assoc.
Qed.

Lemma walk_tree_all lo hi ls result :
  Forall (fun k => lo <= k <= hi) (concat ls) ->
  walk_tree lo hi ls result = result ++ concat ls.
Proof.
  revert result. induction ls as [|ks ls IH]; intros result Hall; simpl.
  - by rewrite app_nil_r.
  - simpl in Hall. apply Forall_app in Hall as [H1 H2].
    rewrite scan_leaf_all by done. rewrite IH by done. by rewrite <- app_assoc.
Qed.

Lemma find_leaf_tree_all lo :
  forall d l u tr,
    wf d l u tr -> Forall (fun k => lo <= k) (flat tr) ->
    forall fuel, (d < fuel)%nat -> find_leaf_tree fuel tr lo = Some (leaves tr).
Proof.
  induction d as [|d IH]; intros l u [ks|ks cs] Hwf Hall [|fuel] Hf;
    simpl in Hwf; try done; try lia.
  change (wf (S d) l u (Node ks cs)) in Hwf.
  assert (Hscan : scan_up lo ks = O).
  { destruct ks as [|x ks]; [done|]. simpl.
    assert (Hx : x ∈ flat (Node (x :: ks) cs)).
    { eapply node_keys_in_flat; [exact Hwf|]. by left. }
    rewrite Forall_forall in Hall. apply Hall in Hx.
    destruct (Z.ltb_spec x lo); [lia|done]. }
  simpl. rewrite Hscan.
  destruct Hwf as [_ Hforest].
  destruct cs as [|c cs]; [done|].
  assert (Hc : exists l' u', wf d l' u' c).
  { simpl in Hforest. destruct (seps u ks); naive_solver. }
  destruct Hc as (l' & u' & Hc).
  simpl. rewrite (IH _ _ _ Hc); [|rewrite flat_node in Hall|lia].
  - by rewrite drop_0.
  - simpl in Hall. by apply Forall_app in Hall as [? _].
Qed.

Lemma range_query_tree_all d tr lo hi fuel :
  wf d None None tr -> Forall (fun k => lo <= k <= hi) (flat tr) ->
  (d < fuel)%nat ->
  range_query_tree fuel tr lo hi = Some (flat tr).
Proof.
  intros Hwf Hall Hf. unfold range_query_tree.
  rewrite (find_leaf_tree_all lo _ _ _ _ Hwf); [|..|done].
  - by rewrite walk_tree_all.
  - eapply Forall_impl; [exact Hall|]. simpl. lia.
Qed.

(** * The claims *)

(** ** Round trip of insertions (C1) *)

(** The store and the index right after [BPlusTree(t0)]. *)
Lemma new_rep t0 :
  new t0 [] = Ret (mkTree O t0) [mkNode true [] [] None] /\
  rep [mkNode true [] [] None] O (Leaf []) (Some O) None {[O]} /\
  wf O None None (Leaf []).
Proof.
  split; [done|]. split.
  - by apply (rep_leaf [mkNode true [] [] None] O (mkNode true [] [] None)).
  - simpl. split; [constructor|]. split; [constructor|done].
Qed.

(** C1: for every list of distinct keys [ks] (any order) and every
    minimum degree [t0 >= 2], inserting all the keys into a new index and
    then calling [range_query lo hi] with [lo] at or below and [hi] at or
    above every key returns, with enough fuel, exactly those keys in
    strictly ascending order: the result is strictly sorted and a
    permutation of [ks], so no key is missing and none is returned twice. *)
Theorem range_query_after_inserts (t0 : Z) (ks : list Z) (lo hi : Z) :
  2 <= t0 -> NoDup ks -> Forall (fun k => lo <= k <= hi) ks ->
  exists (N : nat) (res : list Z),
    StronglySorted Z.lt res /\ res ≡ₚ ks /\
    forall fuel, (N <= fuel)%nat ->
      result_of (run fuel t0 (Insert <$> ks)
                   (fun self => range_query fuel self lo hi)) = inr res.
Proof.
  intros Ht Hnd Hall.
  destruct (new_rep t0) as (Hnew & Hrep & Hwf).
  destruct (insert_all_tree_wf t0 Ht ks O (Leaf []) Hwf Hnd)
    as (tr & d & Hrun & Hwf' & Hd & Hperm).
  { intros k _ Hin. unfold flat in Hin. simpl in Hin. by inversion Hin. }
  assert (Hflat : flat tr ≡ₚ ks).
  { rewrite Hperm. unfold flat. simpl. by rewrite app_nil_r. }
  exists (S (length ks + length (leaves tr))), (flat tr).
  split; [by apply wf_good in Hwf' as [? _]|]. split; [done|].
  intros fuel Hfuel. unfold run.
  unfold bind at 1. rewrite Hnew.
  destruct (insert_all_rep fuel ks (mkTree O t0) (Leaf []) tr _ _ _ Hrep)
    as (h' & self' & fp' & Hins & Ht' & Hrep').
  { apply Hrun. simpl. lia. }
  unfold insert_all in Hins. unfold bind. rewrite Hins.
  erewrite range_query_rep; [done|exact Hrep'| |lia].
  apply range_query_tree_all with (d := d); [done| |lia].
  by rewrite Hflat.
Qed.

Lemma range_query_after_inserts_witness :
  exists (N : nat) (res : list Z),
    StronglySorted Z.lt res /\ res ≡ₚ [10; 20; 5; 6; 12; 30; 7; 17] /\
    forall fuel, (N <= fuel)%nat ->
      result_of (run fuel 3 (Insert <$> [10; 20; 5; 6; 12; 30; 7; 17])
                   (fun self => range_query fuel self 5 30))
      = inr res.
Proof.
  apply (range_query_after_inserts 3 [10; 20; 5; 6; 12; 30; 7; 17] 5 30).
  - lia.
  - apply (bool_decide_unpack (NoDup [10; 20; 5; 6; 12; 30; 7; 17])).
    vm_compute. exact I.
  - repeat (constructor; [lia|]). constructor.
Defined.

(** ** The concrete scenario (C7) *)

(** C7: with [t = 2], after inserting 10, 20, 5, 6, 12, 30, 7, 17 in that
    order, [range_query(6, 17)] returns [6, 7, 10, 12, 17]; after then
    deleting 6, the same query returns [7, 10, 12, 17] (for any fuel of at
    least 6). *)
Theorem concrete_scenario (n : nat) :
  result_of
    (run (6 + n) 2 (Insert <$> [10; 20; 5; 6; 12; 30; 7; 17])
       (fun self =>
          before <- range_query (6 + n) self 6 17 ;;
          self' <- delete (6 + n) self 6 ;;
          after <- range_query (6 + n) self' 6 17 ;;
          ret (before, after)))
  = inr ([6; 7; 10; 12; 17], [7; 10; 12; 17]).
Proof. vm_compute. reflexivity. Qed.

(** ** Construction (C9) *)

(** C9, as stated, fails: constructing an index with [t = 1 < 2] raises
    nothing. *)
Lemma new_accepts_degree_one :
  1 < 2 /\ new 1 [] = Ret (mkTree O 1) [mkNode true [] [] None] /\
  ~ exists e, new 1 [] = Raise e.
Proof.
  split; [lia|]. split; [reflexivity|]. intros [e He]. discriminate He.
Qed.

(** C9, amended: constructing an index succeeds for every integer [t0]
    (no check is made, so [t0 < 2] is accepted as well); the result is an
    empty index, its root a new leaf without keys, children or successor,
    whose minimum degree is [t0]; the objects already in the store are
    untouched. *)
Theorem new_always_succeeds (t0 : Z) (h : heap) :
  exists self h',
    new t0 h = Ret self h' /\ t self = t0 /\
    h' = h ++ [mkNode true [] [] None] /\
    h' !! root self = Some (mkNode true [] [] None).
Proof.
  exists (mkTree (length h) t0), (h ++ [mkNode true [] [] None]).
  split; [reflexivity|]. split; [reflexivity|]. split; [reflexivity|].
  simpl. rewrite lookup_app_r by lia. by rewrite Nat.sub_diag.
Qed.

(** ** Child counts (C4) *)

(** C4 fails on the code: with [t = 2], after inserting 1, 2, ..., 10 the
    first child of the root is an internal node that holds the two keys
    [2; 4] and has two children, not three.  [_split_child] leaves the
    median in the left half of an internal node as it does for a leaf. *)
Theorem internal_node_with_as_many_children_as_keys (n : nat) :
  result_of
    (run (4 + n) 2 (Insert <$> [1; 2; 3; 4; 5; 6; 7; 8; 9; 10])
       (fun self =>
          r <- load (root self) ;;
          c <- index_or_raise (children r !! O) ;;
          nc <- load c ;;
          ret (leaf nc, keys nc, length (children nc))))
  = inr (false, [2; 4], 2%nat).
Proof. vm_compute. reflexivity. Qed.

(** ** Deletion (C2, C3, C6, C8) *)

(** The index used below: [t = 2], keys 1, 2, 3, 4 inserted, then 2
    deleted.  It holds the leaves [1] and [3; 4] under the root key 2,
    and answers as it should. *)
Lemma index_134 (n : nat) :
  result_of (run (3 + n) 2 [Insert 1; Insert 2; Insert 3; Insert 4; Delete 2]
               (probe (3 + n)))
  = inr ([1; 3; 4], [true; false; true; true]).
Proof. vm_compute. reflexivity. Qed.

(** C2 fails on the code: after inserting 1, 2, 3, 4 and deleting 2 and
    then 0 (with [t = 2]) the keys present are 1, 3, 4, but the leaf chain
    yields [1; 2; 4]: the deleted key 2 is back and key 3 is missing.
    [_borrow_from_next] moves the parent's key into the leaf and the
    sibling's first key out of the leaves. *)
Theorem leaf_chain_after_delete (n : nat) :
  result_of
    (run (3 + n) 2
       [Insert 1; Insert 2; Insert 3; Insert 4; Delete 2; Delete 0]
       (fun self => range_query (3 + n) self 0 100))
  = inr [1; 2; 4].
Proof. vm_compute. reflexivity. Qed.

(** C3 fails on the code: in the same run, [search 3] reports not-found
    though 3 was inserted and never deleted, and [search 2] finds the key
    2 that was deleted and not inserted again. *)
Theorem search_after_delete (n : nat) :
  result_of
    (run (3 + n) 2
       [Insert 1; Insert 2; Insert 3; Insert 4; Delete 2; Delete 0]
       (fun self =>
          s2 <- search (3 + n) self 2 ;;
          s3 <- search (3 + n) self 3 ;;
          ret (s2, s3)))
  = inr (Some (O, 1%nat), None).
Proof. vm_compute. reflexivity. Qed.

(** C6 fails on the code for leaves: with [t = 2], after inserting 1, 2,
    3, 4 and deleting 2 and 4, the leaves are [1] and [3] under the
    parent key 2; deleting 0 merges them, and the merged leaf, now the
    root, holds [1; 2; 3]: [_merge] appends the parent's key to a leaf as
    it does to an internal node. *)
Theorem leaf_merge_pulls_separator (n : nat) :
  result_of
    (run (3 + n) 2
       [Insert 1; Insert 2; Insert 3; Insert 4; Delete 2; Delete 4]
       (fun self =>
          before <- range_query (3 + n) self 0 100 ;;
          self' <- delete (3 + n) self 0 ;;
          r <- load (root self') ;;
          ret (before, leaf r, keys r, next r)))
  = inr ([1; 3], true, [1; 2; 3], None).
Proof. vm_compute. reflexivity. Qed.

(** C8 fails on the code: on the index [index_134], deleting the absent
    key 0 changes the keys present from [1; 3; 4] to [1; 2; 4]; and on the
    index with the leaves [1] and [3], deleting the absent key 5 raises
    [IndexError], for [_delete_internal] uses the child position [i]
    after the merge with the left sibling has removed a child. *)
Theorem delete_absent_key (n : nat) :
  result_of
    (run (3 + n) 2 [Insert 1; Insert 2; Insert 3; Insert 4; Delete 2]
       (fun self =>
          before <- range_query (3 + n) self 0 100 ;;
          absent <- search (3 + n) self 0 ;;
          self' <- delete (3 + n) self 0 ;;
          after <- range_query (3 + n) self' 0 100 ;;
          ret (before, absent, after)))
  = inr ([1; 3; 4], None, [1; 2; 4]) /\
  result_of
    (run (3 + n) 2
       [Insert 1; Insert 2; Insert 3; Insert 4; Delete 2; Delete 4]
       (fun self =>
          absent <- search (3 + n) self 5 ;;
          match absent with
          | None => delete (3 + n) self 5
          | Some _ => ret self
          end))
  = inl IndexError.
Proof. split; vm_compute; reflexivity. Qed.

(** ** Duplicate keys (C10) *)

(** C10 fails on the code: with [t = 2], after inserting 1, 2, ..., 12
    the index holds 12 keys in its leaves; inserting 8 once more raises
    [IndexError] instead of storing a second copy.  The full internal
    node [6; 8; 10] is split, the key 8 is sent to its left half
    [6; 8], which has no child to the right of its last key. *)
Theorem insert_duplicate_raises (n : nat) :
  result_of
    (run (8 + n) 2 (Insert <$> [1; 2; 3; 4; 5; 6; 7; 8; 9; 10; 11; 12])
       (fun self =>
          before <- range_query (8 + n) self 0 100 ;;
          ret (length before)))
  = inr 12%nat /\
  result_of
    (run (8 + n) 2 (Insert <$> [1; 2; 3; 4; 5; 6; 7; 8; 9; 10; 11; 12])
       (fun self => insert (8 + n) self 8))
  = inl IndexError.
Proof. split; vm_compute; reflexivity. Qed.

(** ** The split of a full child (C5) *)

(** C5, as stated, fails: splitting the full leaf [1; 2; 3] with [t = 2]
    leaves the two keys [1; 2] in the original leaf (not the one key of
    the left half), and the key promoted, 2, is not the first key of the
    new sibling [3]. *)
Lemma split_keeps_median_in_leaf :
  exists h',
    split_child 2 1 O parent_of_full_leaf = Ret tt h' /\
    Py.len (keys full_leaf) = 2 * 2 - 1 /\
    h' = [mkNode true [1; 2] [] (Some 2%nat);
          mkNode false [2] [O; 2%nat] None;
          mkNode true [3] [] None] /\
    ~ split_as_claimed 2 parent_of_full_leaf h' 1 O O full_leaf.
Proof.
  eexists. split; [vm_compute; reflexivity|]. split; [reflexivity|].
  split; [reflexivity|].
  intros (nx' & ny' & nz & m & _ & Hy & _ & _ & _ & Hk & _).
  simpl in Hy. inversion Hy; subst ny'. simpl in Hk. discriminate Hk.
Qed.

(** C5, amended: when the child [y] at position [i] of [x] holds
    [2t - 1] keys ([t >= 1], [y] not [x] itself), [_split_child] succeeds;
    the median key (index [t - 1]) is inserted at position [i] of the keys
    of [x] and a new node is inserted at position [i + 1] of its children;
    the new node is of the kind of [y] and receives the keys of indices
    [t .. 2t - 2].  For a leaf split the original leaf keeps its first
    [t] keys (the left half and the median), its [next] becomes the new
    leaf, whose [next] is the old [next] of the original; the promoted
    key is a copy of the last key of the original leaf, which stays in
    that leaf. *)
Theorem split_child_spec (t0 : Z) (h : heap) (x : addr) (i : nat)
    (nx : BPlusNode) (y : addr) (ny : BPlusNode) :
  1 <= t0 ->
  h !! x = Some nx -> children nx !! i = Some y -> h !! y = Some ny ->
  x <> y -> Py.len (keys ny) = 2 * t0 - 1 ->
  exists h' nx' ny' nz m,
    split_child t0 x i h = Ret tt h' /\
    h' !! x = Some nx' /\ h' !! y = Some ny' /\ h' !! length h = Some nz /\
    keys ny !! Z.to_nat (t0 - 1) = Some m /\
    keys nx' = take i (keys nx) ++ m :: drop i (keys nx) /\
    children nx' =
      take (S i) (children nx) ++ length h :: drop (S i) (children nx) /\
    leaf nz = leaf ny /\
    keys nz = drop (Z.to_nat t0) (keys ny) /\
    (leaf ny = true ->
     keys ny' = take (Z.to_nat t0) (keys ny) /\
     next ny' = Some (length h) /\ next nz = next ny /\
     last (keys ny') = Some m /\ m ∈ keys ny').
Proof.
  intros Ht Hx Hi Hy Hxy Hlen. unfold Py.len in Hlen.
  destruct (keys ny !! Z.to_nat (t0 - 1)) as [m|] eqn:Hm.
  2:{ apply lookup_ge_None in Hm. lia. }
  assert (Hget : Py.get (keys ny) (t0 - 1) = Some m).
  { by rewrite get_pos by lia. }
  destruct (split_child_heap t0 h x i nx y ny m Hx Hi Hy Hxy Hget)
    as (h' & Hrun & _ & Hx' & Hy' & Hz' & _).
  assert (Hc : Py.clamp (keys ny) t0 = Z.to_nat t0).
  { apply clamp_pos. unfold Py.len. lia. }
  eexists h', _, _, _, m.
  split; [exact Hrun|]. split; [exact Hx'|]. split; [exact Hy'|].
  split; [exact Hz'|]. split; [done|].
  split; [simpl; apply insert_nat|].
  split; [simpl; apply insert_succ_nat|].
  split; [by destruct (leaf ny)|].
  split; [destruct (leaf ny); simpl; unfold Py.from; by rewrite Hc|].
  intros Hleaf. rewrite Hleaf. simpl. unfold Py.upto. rewrite Hc.
  split; [done|]. split; [done|]. split; [done|].
  assert (Hlast : last (take (Z.to_nat t0) (keys ny)) = Some m).
  { rewrite last_lookup, length_take, Nat.min_l by lia.
    rewrite lookup_take_lt by lia.
    replace (pred (Z.to_nat t0)) with (Z.to_nat (t0 - 1)) by lia. done. }
  split; [done|]. by apply last_Some_elem_of.
Qed.

Lemma split_child_spec_witness :
  exists h' nx' ny' nz m,
    split_child 2 1 O parent_of_full_leaf = Ret tt h' /\
    h' !! 1%nat = Some nx' /\ h' !! O = Some ny' /\
    h' !! length parent_of_full_leaf = Some nz /\
    keys full_leaf !! Z.to_nat (2 - 1) = Some m /\
    keys nx' = take O [] ++ m :: drop O [] /\
    children nx' =
      take 1 [O] ++ length parent_of_full_leaf :: drop 1 [O] /\
    leaf nz = leaf full_leaf /\
    keys nz = drop (Z.to_nat 2) (keys full_leaf) /\
    (leaf full_leaf = true ->
     keys ny' = take (Z.to_nat 2) (keys full_leaf) /\
     next ny' = Some (length parent_of_full_leaf) /\
     next nz = next full_leaf /\
     last (keys ny') = Some m /\ m ∈ keys ny').
Proof.
  apply (split_child_spec 2 parent_of_full_leaf 1 O
           (mkNode false [] [O] None) O full_leaf).
  - lia.
  - reflexivity.
  - reflexivity.
  - reflexivity.
  - lia.
  - reflexivity.
Defined.

(** * Further properties *)

(** ** The upward scan of [search] and [_find_leaf] *)

Lemma scan_up_le k ks : (scan_up k ks <= length ks)%nat.
Proof.
  induction ks as [|x ks IH]; simpl; [lia|]. destruct (x <? k); lia.
Qed.

Lemma scan_up_before k ks j x :
  (j < scan_up k ks)%nat -> ks !! j = Some x -> x < k.
Proof.
  revert j. induction ks as [|y ks IH]; intros j Hj Hx; simpl in *; [lia|].
  destruct (Z.ltb_spec y k) as [Hlt|Hge]; [|lia].
  destruct j as [|j]; simpl in Hx; [by inversion Hx; subst|].
  apply (IH j); [lia|done].
Qed.

Lemma scan_up_at k ks x : ks !! scan_up k ks = Some x -> k <= x.
Proof.
  induction ks as [|y ks IH]; simpl; [done|].
  destruct (Z.ltb_spec y k) as [Hlt|Hge]; simpl; [done|].
  intros [= <-]. done.
Qed.

(** In a strictly sorted list the scan stops on the key if it is there. *)
Lemma scan_up_sorted k ks :
  StronglySorted Z.lt ks ->
  (k ∈ ks <-> ks !! scan_up k ks = Some k).
Proof.
  intros Hs. split; [|apply list_elem_of_lookup_2].
  induction Hs as [|y ks Hs IH Hall]; intros Hk; [by inversion Hk|].
  simpl. rewrite Forall_forall in Hall.
  destruct (Z.ltb_spec y k) as [Hlt|Hge]; simpl.
  - apply IH. apply elem_of_cons in Hk as [->|Hk]; [lia|done].
  - apply elem_of_cons in Hk as [->|Hk]; [done|].
    apply Hall in Hk. lia.
Qed.

(** The child [search] descends into, and the keys on both sides. *)
Lemma wf_route d lo hi ks cs k :
  wf (S d) lo hi (Node ks cs) -> lt_lo lo k -> le_hi k hi ->
  exists c l u,
    cs !! scan_up k ks = Some c /\ wf d l u c /\ lt_lo l k /\ le_hi k u /\
    Forall (fun x => x < k) (concat (map flat (take (scan_up k ks) cs))) /\
    Forall (fun x => k < x) (concat (map flat (drop (S (scan_up k ks)) cs))).
Proof.
  intros [Hlast Hf] Hlo Hhi.
  set (i := scan_up k ks).
  pose proof (scan_up_le k ks) as Hile. fold i in Hile.
  pose proof (forest_length _ _ _ _ _ Hf) as Hcl.
  pose proof (seps_length hi ks Hlast) as Hsl.
  assert (His : (i <= length (seps hi ks))%nat).
  { destruct hi as [u|]; [|lia]. simpl in Hhi.
    destruct (decide (i = length ks)) as [Heq|]; [|lia]. exfalso.
    specialize (Hlast u eq_refl). rewrite last_lookup in Hlast.
    assert (u < k); [|lia].
    apply (scan_up_before k ks (pred (length ks)) u); [fold i; lia|done]. }
  destruct (cs !! i) as [c|] eqn:Hci.
  2:{ apply lookup_ge_None in Hci. lia. }
  destruct (forest_focus _ _ _ _ _ _ _ Hf Hci) as (l & u & Hl & Hu & Hc & _).
  assert (Hgood : forest (fun l u c => good l u (flat c)) lo (seps hi ks) hi cs).
  { eapply forest_impl; [|exact Hf]. intros ? ? ?. apply wf_good. }
  exists c, l, u. split; [done|]. split; [done|].
  split; [|split; [|split]].
  - destruct i as [|j] eqn:Hi; simpl in Hl; [by inversion Hl; subst l|].
    rewrite list_lookup_fmap in Hl.
    destruct (seps hi ks !! j) as [x|] eqn:Hx; [|done].
    inversion Hl; subst l. simpl.
    rewrite seps_lookup in Hx by lia.
    apply (scan_up_before k ks j x); [fold i; lia|done].
  - destruct (decide (i < length (seps hi ks))%nat) as [Hlt|Hge].
    + rewrite lookup_app_l in Hu by (by rewrite length_fmap).
      rewrite list_lookup_fmap in Hu.
      destruct (seps hi ks !! i) as [x|] eqn:Hx; [|done].
      inversion Hu; subst u. simpl.
      rewrite seps_lookup in Hx by lia. by apply (scan_up_at k ks).
    + rewrite lookup_app_r in Hu by (rewrite length_fmap; lia).
      rewrite length_fmap in Hu.
      replace (i - length (seps hi ks))%nat with O in Hu by lia.
      simpl in Hu. by inversion Hu; subst u.
  - destruct i as [|j] eqn:Hi; [by rewrite take_0|].
    destruct (seps hi ks !! j) as [m|] eqn:Hm.
    2:{ apply lookup_ge_None in Hm. lia. }
    destruct (forest_cut _ _ _ _ _ _ _ Hgood Hm) as [H1 _].
    apply forest_good in H1 as (_ & Hb & _).
    rewrite seps_lookup in Hm by lia.
    assert (m < k) by (apply (scan_up_before k ks j m); [fold i; lia|done]).
    eapply Forall_impl; [exact Hb|]. simpl. intros x [_ Hx]. lia.
  - destruct (seps hi ks !! i) as [m|] eqn:Hm.
    + destruct (forest_cut _ _ _ _ _ _ _ Hgood Hm) as [_ H2].
      apply forest_good in H2 as (_ & Hb & _).
      rewrite seps_lookup in Hm by (by eapply lookup_lt_Some).
      apply (scan_up_at k ks) in Hm.
      eapply Forall_impl; [exact Hb|]. simpl. intros x [Hx _]. lia.
    + apply lookup_ge_None in Hm. rewrite drop_ge by lia. constructor.
Qed.

Lemma flat_leaf ks : flat (Leaf ks) = ks.
Proof. unfold flat. simpl. apply app_nil_r. Qed.

Lemma flat_node_split ks (cs : list tree) i c :
  cs !! i = Some c ->
  flat (Node ks cs) =
  concat (map flat (take i cs)) ++ flat c ++ concat (map flat (drop (S i) cs)).
Proof.
  intros Hi. rewrite flat_node. rewrite <- (take_drop_middle _ _ _ Hi) at 1.
  by rewrite map_app, concat_app.
Qed.

(** ** [search] finds exactly the keys of the leaves *)

Lemma search_tree_wf k :
  forall d tr lo hi,
    wf d lo hi tr -> lt_lo lo k -> le_hi k hi ->
    forall fuel, (d < fuel)%nat ->
      search_tree fuel tr k = Some (bool_decide (k ∈ flat tr)).
Proof.
  induction d as [|d IH]; intros [ks|ks cs] lo hi Hwf Hlo Hhi [|fuel] Hf;
    simpl in Hwf; try done; try lia.
  - destruct Hwf as (Hs & _ & _). simpl. rewrite flat_leaf.
    pose proof (scan_up_sorted k ks Hs) as Hiff.
    destruct (ks !! scan_up k ks) as [ki|] eqn:Hki.
    + f_equal. destruct (Z.eqb_spec ki k) as [->|Hne].
      * symmetry. apply bool_decide_eq_true. by apply Hiff.
      * symmetry. apply bool_decide_eq_false. intros Hin.
        apply Hiff in Hin. congruence.
    + f_equal. symmetry. apply bool_decide_eq_false. intros Hin.
      apply Hiff in Hin. congruence.
  - change (wf (S d) lo hi (Node ks cs)) in Hwf.
    destruct (wf_route _ _ _ _ _ _ Hwf Hlo Hhi)
      as (c & l & u & Hci & Hc & Hl & Hu & Hbefore & Hafter).
    simpl. rewrite Hci. rewrite (IH _ _ _ Hc Hl Hu) by lia.
    f_equal. apply bool_decide_ext.
    rewrite (flat_node_split _ _ _ _ Hci), !elem_of_app.
    rewrite Forall_forall in Hbefore, Hafter.
    split; [tauto|]. intros [Hin|[Hin|Hin]]; [|done|].
    + apply Hbefore in Hin. lia.
    + apply Hafter in Hin. lia.
Qed.

Lemma search_rep fuel k :
  forall x tr h f nx fp b,
    rep h x tr f nx fp ->
    search_tree fuel tr k = Some b ->
    exists r,
      search_internal fuel x k h = Ret r h /\
      if b then found_at h k r else r = None.
Proof.
  induction fuel as [|fuel IH]; intros x tr h f nx fp b Hrep Hs; [done|].
  destruct tr as [ks|ks ts]; simpl in Hs.
  - apply rep_leaf_inv in Hrep as (n & Hx & Hlf & <- & -> & <- & ->).
    simpl. step. rewrite Hlf.
    destruct (keys n !! scan_up k (keys n)) as [ki|] eqn:Hki.
    + inversion Hs; subst b; clear Hs.
      destruct (Z.eqb_spec ki k) as [->|Hne].
      * eexists. split; [reflexivity|]. by exists x, (scan_up k (keys n)), n.
      * by eexists.
    + inversion Hs; subst b. by eexists.
  - destruct (ts !! scan_up k ks) as [tc|] eqn:Hti; [|done].
    destruct (rep_descend _ _ _ _ _ _ _ _ _ Hrep Hti)
      as (n & c & m1 & m2 & fpc & Hx & Hlf & Hks & Hci & Hc & _).
    destruct (IH _ _ _ _ _ _ _ Hc Hs) as (r & Hrun & Hr).
    exists r. split; [|done].
    simpl. step. rewrite Hlf, Hks. step. exact Hrun.
Qed.

(** ** What a sequence of insertions of distinct keys builds *)

Lemma after_inserts t0 ks :
  2 <= t0 -> NoDup ks ->
  exists tr d,
    wf d None None tr /\ (d <= length ks)%nat /\ flat tr ≡ₚ ks /\
    forall fuel, (length ks < fuel)%nat ->
      insert_all_tree fuel t0 (Leaf []) ks = Some tr /\
      exists h self f fp,
        rep h (root self) tr f None fp /\ t self = t0 /\
        forall (A : Type) (q : BPlusTree -> M A),
          run fuel t0 (Insert <$> ks) q = q self h.
Proof.
  intros Ht Hnd.
  destruct (new_rep t0) as (Hnew & Hrep & Hwf).
  destruct (insert_all_tree_wf t0 Ht ks O (Leaf []) Hwf Hnd)
    as (tr & d & Hrun & Hwf' & Hd & Hperm).
  { intros k _ Hin. rewrite flat_leaf in Hin. by inversion Hin. }
  exists tr, d. split; [done|]. split; [lia|]. split.
  { rewrite Hperm, flat_leaf. by rewrite app_nil_r. }
  intros fuel Hfuel.
  assert (Hpure : insert_all_tree fuel t0 (Leaf []) ks = Some tr).
  { apply Hrun. simpl. lia. }
  split; [done|].
  destruct (insert_all_rep fuel ks (mkTree O t0) (Leaf []) tr _ _ _ Hrep Hpure)
    as (h' & self' & fp' & Hins & Ht' & Hrep').
  exists h', self', (Some O), fp'. split; [done|]. split; [done|].
  intros A q. unfold run. unfold bind at 1. rewrite Hnew.
  unfold insert_all in Hins. unfold bind. by rewrite Hins.
Qed.

(** X1: after inserting the distinct keys [ks] (any order) into a new
    index of minimum degree [t0 >= 2], [search k] returns without raising:
    for a key that was inserted, a leaf of the store and an offset at
    which that leaf holds [k]; for any other key, [None]. *)
Theorem search_after_inserts (t0 : Z) (ks : list Z) :
  2 <= t0 -> NoDup ks ->
  forall fuel, (length ks < fuel)%nat ->
    forall k,
      exists h r,
        run fuel t0 (Insert <$> ks) (fun self => search fuel self k) = Ret r h /\
        (k ∈ ks -> found_at h k r) /\ (k ∉ ks -> r = None).
Proof.
  intros Ht Hnd fuel Hfuel k.
  destruct (after_inserts t0 ks Ht Hnd)
    as (tr & d & Hwf & Hd & Hperm & Hrun).
  destruct (Hrun fuel Hfuel) as (_ & h & self & f & fp & Hrep & _ & Hq).
  rewrite Hq. unfold search.
  pose proof (search_tree_wf k _ _ _ _ Hwf I I fuel ltac:(lia)) as Hs.
  destruct (search_rep _ _ _ _ _ _ _ _ _ Hrep Hs) as (r & Hsr & Hr).
  exists h, r. split; [done|].
  destruct (bool_decide (k ∈ flat tr)) eqn:Hb.
  - apply bool_decide_eq_true in Hb. split; [done|].
    intros Hk. exfalso. apply Hk. by rewrite <- Hperm.
  - apply bool_decide_eq_false in Hb. split; [|done].
    intros Hk. exfalso. apply Hb. by rewrite Hperm.
Qed.

Lemma search_after_inserts_witness :
  exists h r,
    run 6 2 (Insert <$> [3; 1; 5; 2; 4]) (fun self => search 6 self 4)
      = Ret r h /\
    (4 ∈ [3; 1; 5; 2; 4] -> found_at h 4 r) /\
    ((4 ∉ [3; 1; 5; 2; 4]) -> r = None).
Proof.
  apply (search_after_inserts 2 [3; 1; 5; 2; 4]).
  - lia.
  - apply (bool_decide_unpack (NoDup [3; 1; 5; 2; 4])). vm_compute. exact I.
  - simpl. lia.
Defined.

(** ** [range_query] returns the keys within the bounds *)

Lemma concat_leaves (cs : list tree) :
  concat (concat (map leaves cs)) = concat (map flat cs).
Proof.
  induction cs as [|c cs IH]; simpl; [done|]. by rewrite concat_app, IH.
Qed.

Lemma find_leaf_tree_wf k :
  forall d tr lo hi,
    wf d lo hi tr -> lt_lo lo k -> le_hi k hi ->
    forall fuel, (d < fuel)%nat ->
      exists ls skipped,
        find_leaf_tree fuel tr k = Some ls /\
        flat tr = skipped ++ concat ls /\
        Forall (fun x => x < k) skipped.
Proof.
  induction d as [|d IH]; intros [ks|ks cs] lo hi Hwf Hlo Hhi [|fuel] Hf;
    simpl in Hwf; try done; try lia.
  - exists [ks], []. simpl. by rewrite flat_leaf, app_nil_r.
  - change (wf (S d) lo hi (Node ks cs)) in Hwf.
    destruct (wf_route _ _ _ _ _ _ Hwf Hlo Hhi)
      as (c & l & u & Hci & Hc & Hl & Hu & Hbefore & _).
    destruct (IH _ _ _ Hc Hl Hu fuel ltac:(lia)) as (ls & sk & Hfl & Hflat & Hsk).
    exists (ls ++ concat (map leaves (drop (S (scan_up k ks)) cs))),
      (concat (map flat (take (scan_up k ks) cs)) ++ sk).
    split; [|split].
    + simpl. by rewrite Hci, Hfl.
    + rewrite (flat_node_split _ _ _ _ Hci), Hflat, concat_app, concat_leaves.
      by rewrite <- !app_assoc.
    + by apply Forall_app.
Qed.

Lemma filter_none {A} (P : A -> Prop) `{!forall x, Decision (P x)} (l : list A) :
  Forall (fun x => ~ P x) l -> filter P l = [].
Proof.
  induction 1 as [|x l Hx _ IH]; [done|]. by rewrite filter_cons_False.
Qed.

Lemma filter_sorted {A} (R : relation A) (P : A -> Prop)
    `{!forall x, Decision (P x)} (l : list A) :
  StronglySorted R l -> StronglySorted R (filter P l).
Proof.
  induction 1 as [|x l Hs IH Hall]; [constructor|].
  rewrite filter_cons. destruct (decide (P x)); [|done].
  constructor; [done|]. rewrite Forall_forall in Hall |- *.
  intros y Hy. apply Hall. by apply list_elem_of_filter in Hy as [_ ?].
Qed.

(** The keys between [lo] and [hi]. *)
Lemma scan_leaf_sorted lo hi :
  forall ks rest result,
    StronglySorted Z.lt (ks ++ rest) ->
    scan_leaf lo hi ks result =
      (result ++ filter (fun k => lo <= k <= hi) ks, false) \/
    scan_leaf lo hi ks result =
      (result ++ filter (fun k => lo <= k <= hi) (ks ++ rest), true).
Proof.
  induction ks as [|k ks IH]; intros rest result Hs; simpl.
  - left. by rewrite app_nil_r.
  - simpl in Hs. apply StronglySorted_cons in Hs as [Hall Hs].
    destruct (Z.leb_spec lo k) as [Hlo|Hlo]; simpl.
    + destruct (Z.leb_spec k hi) as [Hhi|Hhi]; simpl.
      * rewrite !filter_cons_True by lia.
        destruct (IH rest (result ++ [k]) Hs) as [-> | ->];
          [left|right]; by rewrite <- app_assoc.
      * destruct (Z.ltb_spec hi k) as [_|?]; [|lia]. right.
        rewrite filter_cons_False by lia.
        rewrite (filter_none _ (ks ++ rest)); [by rewrite app_nil_r|].
        eapply Forall_impl; [exact Hall|]. simpl. lia.
    + destruct (Z.ltb_spec hi k) as [Hhi|Hhi].
      * right. rewrite filter_cons_False by lia.
        rewrite (filter_none _ (ks ++ rest)); [by rewrite app_nil_r|].
        eapply Forall_impl; [exact Hall|]. simpl. lia.
      * rewrite !filter_cons_False by lia. apply IH. done.
Qed.

Lemma walk_tree_sorted lo hi :
  forall ls result,
    StronglySorted Z.lt (concat ls) ->
    walk_tree lo hi ls result =
    result ++ filter (fun k => lo <= k <= hi) (concat ls).
Proof.
  induction ls as [|ks ls IH]; intros result Hs; simpl.
  - by rewrite app_nil_r.
  - simpl in Hs.
    destruct (scan_leaf_sorted lo hi ks (concat ls) result Hs) as [-> | ->].
    + rewrite IH by (by apply StronglySorted_app in Hs as (_ & _ & ?)).
      by rewrite filter_app, app_assoc.
    + done.
Qed.

Lemma range_query_tree_wf d tr lo hi fuel :
  wf d None None tr -> (d < fuel)%nat ->
  range_query_tree fuel tr lo hi =
  Some (filter (fun k => lo <= k <= hi) (flat tr)).
Proof.
  intros Hwf Hf. unfold range_query_tree.
  destruct (find_leaf_tree_wf lo _ _ _ _ Hwf I I fuel Hf)
    as (ls & sk & -> & Hflat & Hsk).
  pose proof (wf_good _ _ _ _ Hwf) as (Hs & _ & _).
  rewrite Hflat in Hs |- *.
  rewrite walk_tree_sorted by (by apply StronglySorted_app in Hs as (_ & _ & ?)).
  rewrite filter_app. simpl. f_equal.
  rewrite (filter_none _ sk); [done|].
  eapply Forall_impl; [exact Hsk|]. simpl. lia.
Qed.

(** A leaf that is not the last one holds a key. *)
Lemma forest_leaves_count lo ks hi cs :
  forest (fun l u c =>
            (length (leaves c) <=
             length (flat c) + match u with Some _ => 0 | None => 1 end)%nat)
         lo ks hi cs ->
  (length (concat (map leaves cs)) <=
   length (concat (map flat cs)) + match hi with Some _ => 0 | None => 1 end)%nat.
Proof.
  revert lo ks. induction cs as [|c cs IH]; intros lo ks H; [done|].
  simpl in H. destruct ks as [|k ks].
  - destruct H as [-> H]. simpl. rewrite !app_nil_r. done.
  - destruct H as [H0 H]. simpl. rewrite !length_app.
    apply IH in H. lia.
Qed.

Lemma wf_leaves_count d :
  forall lo hi tr,
    wf d lo hi tr ->
    (length (leaves tr) <=
     length (flat tr) + match hi with Some _ => 0 | None => 1 end)%nat.
Proof.
  induction d as [|d IH]; intros lo hi [ks|ks cs] H; simpl in H; try done.
  - destruct H as (_ & _ & Hl). rewrite flat_leaf. simpl.
    destruct hi as [u|]; [|lia]. specialize (Hl u eq_refl).
    destruct ks; [done|]. simpl. lia.
  - destruct H as [_ H]. rewrite flat_node. simpl.
    apply (forest_leaves_count lo (seps hi ks)).
    eapply forest_impl; [|exact H]. intros l u c. apply IH.
Qed.

(** X2: after inserting the distinct keys [ks] into a new index of
    minimum degree [t0 >= 2], [range_query lo hi] returns, for any bounds,
    the inserted keys [k] with [lo <= k <= hi] and nothing else, in
    strictly ascending order (so each of them once); for [hi < lo] the
    result is empty. *)
Theorem range_query_keys_in_range (t0 : Z) (ks : list Z) (lo hi : Z) :
  2 <= t0 -> NoDup ks ->
  forall fuel, (S (length ks) < fuel)%nat ->
    exists res,
      result_of (run fuel t0 (Insert <$> ks)
                   (fun self => range_query fuel self lo hi)) = inr res /\
      StronglySorted Z.lt res /\
      forall k, k ∈ res <-> k ∈ ks /\ lo <= k <= hi.
Proof.
  intros Ht Hnd fuel Hfuel.
  destruct (after_inserts t0 ks Ht Hnd)
    as (tr & d & Hwf & Hd & Hperm & Hrun).
  destruct (Hrun fuel ltac:(lia)) as (_ & h & self & f & fp & Hrep & _ & Hq).
  exists (filter (fun k => lo <= k <= hi) (flat tr)).
  split; [|split].
  - rewrite Hq. erewrite range_query_rep; [done|exact Hrep| |].
    + apply range_query_tree_wf with (d := d); [done|lia].
    + pose proof (wf_leaves_count _ _ _ _ Hwf) as Hc.
      rewrite (Permutation_length Hperm) in Hc. lia.
  - pose proof (wf_good _ _ _ _ Hwf) as (Hs & _ & _).
    by apply filter_sorted.
  - intros k. rewrite list_elem_of_filter, Hperm. tauto.
Qed.

Lemma range_query_keys_in_range_witness :
  exists res,
    result_of (run 7 2 (Insert <$> [3; 1; 5; 2; 4])
                 (fun self => range_query 7 self 2 4)) = inr res /\
    StronglySorted Z.lt res /\
    forall k, k ∈ res <-> k ∈ [3; 1; 5; 2; 4] /\ 2 <= k <= 4.
Proof.
  apply (range_query_keys_in_range 2 [3; 1; 5; 2; 4] 2 4).
  - lia.
  - apply (bool_decide_unpack (NoDup [3; 1; 5; 2; 4])). vm_compute. exact I.
  - simpl. lia.
Defined.

(** ** Queries leave the store alone *)

Lemma search_internal_store fuel k :
  forall x h, match search_internal fuel x k h with
              | Ret _ h' => h' = h
              | Raise _ => True
              end.
Proof.
  induction fuel as [|fuel IH]; intros x h; [done|]. simpl.
  unfold bind, load. destruct (h !! x) as [n|]; [|done].
  destruct (leaf n).
  - destruct (keys n !! scan_up k (keys n)) as [ki|]; [|done].
    by destruct (ki =? k).
  - destruct (children n !! scan_up k (keys n)) as [c|]; [|done]. apply IH.
Qed.

Lemma find_leaf_store fuel k :
  forall x h, match find_leaf fuel x k h with
              | Ret _ h' => h' = h
              | Raise _ => True
              end.
Proof.
  induction fuel as [|fuel IH]; intros x h; [done|]. simpl.
  unfold bind, load. destruct (h !! x) as [n|]; [|done].
  destruct (leaf n); [done|].
  destruct (children n !! scan_up k (keys n)) as [c|]; [|done]. apply IH.
Qed.

Lemma walk_leaves_store lo hi fuel :
  forall lf result h, match walk_leaves fuel lo hi lf result h with
                      | Ret _ h' => h' = h
                      | Raise _ => True
                      end.
Proof.
  induction fuel as [|fuel IH]; intros [a|] result h; try done. simpl.
  unfold bind, load. destruct (h !! a) as [n|]; [|done].
  destruct (scan_leaf lo hi (keys n) result) as [r [|]]; [done|]. apply IH.
Qed.

(** X3: [search] and [range_query] only read: whenever they return, the
    store is the one they were called in, whatever its content. *)
Theorem queries_read_only (fuel : nat) (self : BPlusTree) (k lo hi : Z)
    (h : heap) :
  match search fuel self k h with
  | Ret _ h' => h' = h
  | Raise _ => True
  end /\
  match range_query fuel self lo hi h with
  | Ret _ h' => h' = h
  | Raise _ => True
  end.
Proof.
  split; [apply search_internal_store|].
  unfold range_query, bind.
  pose proof (find_leaf_store fuel lo (root self) h) as Hf.
  destruct (find_leaf fuel (root self) lo h) as [a h'|]; [|done]. subst h'.
  apply walk_leaves_store.
Qed.

(** ** Key counts and balance after insertions *)

Lemma length_py_insert {A} (l : list A) i x :
  length (Py.insert l i x) = S (length l).
Proof.
  unfold Py.insert. rewrite length_app. simpl.
  rewrite length_take, length_drop. pose proof (clamp_le l i). lia.
Qed.

Lemma sized_split_tree t0 c :
  2 <= t0 -> sized t0 c -> Py.len (tkeys c) = 2 * t0 - 1 ->
  (sized t0 (split_tree t0 c).1 /\ Py.len (tkeys (split_tree t0 c).1) = t0) /\
  (sized t0 (split_tree t0 c).2 /\ Py.len (tkeys (split_tree t0 c).2) = t0 - 1).
Proof.
  intros Ht Hs Hlen. unfold Py.len in *.
  assert (Hc : forall ks : list Z, length ks = length (tkeys c) ->
                 Py.clamp ks t0 = Z.to_nat t0).
  { intros ks Hk. apply clamp_pos. unfold Py.len. lia. }
  destruct c as [ks|ks cs]; simpl in *.
  - unfold Py.upto, Py.from. rewrite (Hc ks eq_refl).
    rewrite length_take, length_drop.
    split; (split; [constructor|lia]).
  - inversion Hs as [|? ? Hall]; subst.
    unfold Py.upto, Py.from. rewrite (Hc ks eq_refl).
    rewrite length_take, length_drop.
    split; (split; [constructor|lia]).
    + by apply Forall_take.
    + by apply Forall_drop.
Qed.

Lemma insert_non_full_tree_sized t0 k :
  2 <= t0 ->
  forall fuel tr tr',
    insert_non_full_tree fuel t0 tr k = Some tr' ->
    sized t0 tr -> Py.len (tkeys tr) < 2 * t0 - 1 ->
    sized t0 tr' /\
    Py.len (tkeys tr) <= Py.len (tkeys tr') <= Py.len (tkeys tr) + 1.
Proof.
  intros Ht. induction fuel as [|fuel IH]; intros tr tr' Hins Hs Hnf; [done|].
  destruct tr as [ks|ks cs]; simpl in Hins.
  - inversion Hins; subst tr'. split; [constructor|]. simpl. unfold Py.len.
    rewrite (Permutation_length (insert_in_leaf_perm k ks)). simpl. lia.
  - destruct (choose_child_tree t0 ks cs (scan_down k ks (length ks)) k)
      as [[[ks' cs'] i']|] eqn:Hch; [|done].
    destruct (cs' !! i') as [c|] eqn:Hci'; [|done].
    destruct (insert_non_full_tree fuel t0 c k) as [c'|] eqn:Hrec; [|done].
    inversion Hins; subst tr'; clear Hins.
    inversion Hs as [|? ? Hall]; subst.
    assert (Hmid :
      Forall (fun c => sized t0 c /\
                       t0 - 1 <= Py.len (tkeys c) <= 2 * t0 - 1) cs' /\
      Py.len ks <= Py.len ks' <= Py.len ks + 1 /\
      Py.len (tkeys c) < 2 * t0 - 1).
    { unfold choose_child_tree in Hch.
      set (i := scan_down k ks (length ks)) in *.
      destruct (cs !! i) as [c0|] eqn:Hci; [|done].
      pose proof (proj1 (Forall_lookup _ _) Hall _ _ Hci) as [Hs0 Hb0].
      destruct (Z.eqb_spec (Py.len (tkeys c0)) (2 * t0 - 1)) as [Hfull|Hnfull].
      - unfold split_child_tree in Hch. rewrite Hci in Hch.
        destruct (Py.get (tkeys c0) (t0 - 1)) as [m|]; [|done].
        destruct (Py.insert ks (Z.of_nat i) m !! i) as [ki|]; [|done].
        inversion Hch; subst ks' cs' i'; clear Hch.
        destruct (sized_split_tree t0 c0 Ht Hs0 Hfull) as [[Hy Hyl] [Hz Hzl]].
        pose proof (lookup_lt_Some _ _ _ Hci) as Hil.
        split; [|split].
        + apply Forall_app. split; [by apply Forall_take|].
          constructor; [split; [done|lia]|].
          constructor; [split; [done|lia]|]. by apply Forall_drop.
        + unfold Py.len. rewrite length_py_insert. lia.
        + destruct (ki <? k).
          * rewrite lookup_app_r in Hci' by (rewrite length_take; lia).
            rewrite length_take, Nat.min_l in Hci' by lia.
            replace (S i - i)%nat with 1%nat in Hci' by lia.
            simpl in Hci'. inversion Hci'; subst c. lia.
          * rewrite lookup_app_r in Hci' by (rewrite length_take; lia).
            rewrite length_take, Nat.min_l in Hci' by lia.
            rewrite Nat.sub_diag in Hci'.
            simpl in Hci'. inversion Hci'; subst c. lia.
      - inversion Hch; subst ks' cs' i'; clear Hch.
        rewrite Hci in Hci'. inversion Hci'; subst c0.
        split; [done|]. split; lia. }
    destruct Hmid as (Hall' & Hk' & Hcnf).
    pose proof (proj1 (Forall_lookup _ _) Hall' _ _ Hci') as [Hsc Hbc].
    destruct (IH _ _ Hrec Hsc Hcnf) as [Hsc' Hbc'].
    split; [|simpl; lia].
    constructor. apply Forall_insert; [done|]. split; [done|lia].
Qed.

Lemma insert_tree_sized t0 k fuel tr tr' :
  2 <= t0 ->
  insert_tree fuel t0 tr k = Some tr' ->
  sized t0 tr -> Py.len (tkeys tr) <= 2 * t0 - 1 ->
  sized t0 tr' /\ Py.len (tkeys tr') <= 2 * t0 - 1.
Proof.
  intros Ht Hins Hs Hb. unfold insert_tree in Hins.
  destruct (Z.eqb_spec (Py.len (tkeys tr)) (2 * t0 - 1)) as [Hfull|Hnfull].
  - unfold split_child_tree in Hins. simpl in Hins.
    destruct (Py.get (tkeys tr) (t0 - 1)) as [m|]; [|done].
    destruct (sized_split_tree t0 tr Ht Hs Hfull) as [[Hy Hyl] [Hz Hzl]].
    apply (insert_non_full_tree_sized t0 k Ht) in Hins as [Hs' Hb'].
    + split; [done|]. unfold Py.insert, Py.len in *. simpl in *. lia.
    + constructor. constructor; [split; [done|lia]|].
      constructor; [split; [done|lia]|]. constructor.
    + unfold Py.insert, Py.len. simpl. lia.
  - apply (insert_non_full_tree_sized t0 k Ht) in Hins as [Hs' Hb']; [|done|lia].
    split; [done|lia].
Qed.

Lemma insert_all_tree_sized t0 fuel :
  2 <= t0 ->
  forall ks tr tr',
    insert_all_tree fuel t0 tr ks = Some tr' ->
    sized t0 tr -> Py.len (tkeys tr) <= 2 * t0 - 1 ->
    sized t0 tr' /\ Py.len (tkeys tr') <= 2 * t0 - 1.
Proof.
  intros Ht. induction ks as [|k ks IH]; intros tr tr' Hins Hs Hb; simpl in Hins.
  - by inversion Hins; subst.
  - destruct (insert_tree fuel t0 tr k) as [tr1|] eqn:H1; [|done].
    destruct (insert_tree_sized _ _ _ _ _ Ht H1 Hs Hb) as [Hs1 Hb1].
    by apply (IH tr1).
Qed.

Lemma forest_Forall (P : option Z -> option Z -> tree -> Prop) (Q : tree -> Prop)
    lo ks hi cs :
  (forall l u c, P l u c -> Q c) -> forest P lo ks hi cs -> Forall Q cs.
Proof.
  intros HPQ. revert lo ks.
  induction cs as [|c cs IH]; intros lo ks H; [constructor|].
  simpl in H. destruct ks as [|k ks].
  - destruct H as [-> H]. constructor; [by eapply HPQ|constructor].
  - destruct H as [H0 H]. constructor; [by eapply HPQ|by eapply IH].
Qed.

Lemma wf_balanced d : forall lo hi tr, wf d lo hi tr -> balanced d tr.
Proof.
  induction d as [|d IH]; intros lo hi [ks|ks cs] H; simpl in H; try done.
  destruct H as [_ H]. simpl. eapply forest_Forall; [|exact H].
  intros l u c. apply IH.
Qed.

(** X4: inserting distinct keys into a new index of minimum degree
    [t0 >= 2] never raises, and the store then holds a tree [tr] whose
    leaves are chained from the leftmost one to the last one, whose [next]
    is [None]; all the leaves are at the same depth; every node below the
    root holds between [t0 - 1] and [2 t0 - 1] keys and the root at most
    [2 t0 - 1]; the keys of the leaves, read from left to right, are
    strictly ascending and are the inserted keys. *)
Theorem structure_after_inserts (t0 : Z) (ks : list Z) :
  2 <= t0 -> NoDup ks ->
  forall fuel, (length ks < fuel)%nat ->
    exists self h tr f fp d,
      run fuel t0 (Insert <$> ks) ret = Ret self h /\
      rep h (root self) tr f None fp /\
      balanced d tr /\ sized t0 tr /\ Py.len (tkeys tr) <= 2 * t0 - 1 /\
      StronglySorted Z.lt (concat (leaves tr)) /\
      concat (leaves tr) ≡ₚ ks.
Proof.
  intros Ht Hnd fuel Hfuel.
  destruct (after_inserts t0 ks Ht Hnd)
    as (tr & d & Hwf & Hd & Hperm & Hrun).
  destruct (Hrun fuel Hfuel) as (Hpure & h & self & f & fp & Hrep & _ & Hq).
  exists self, h, tr, f, fp, d. split; [by rewrite Hq|]. split; [done|].
  split; [by eapply wf_balanced|].
  destruct (insert_all_tree_sized t0 fuel Ht ks (Leaf []) tr Hpure) as [Hs Hb].
  { constructor. }
  { unfold Py.len. simpl. lia. }
  split; [done|]. split; [done|].
  split; [by apply wf_good in Hwf as [? _]|done].
Qed.

Lemma structure_after_inserts_witness :
  exists self h tr f fp d,
    run 6 2 (Insert <$> [3; 1; 5; 2; 4]) ret = Ret self h /\
    rep h (root self) tr f None fp /\
    balanced d tr /\ sized 2 tr /\ Py.len (tkeys tr) <= 2 * 2 - 1 /\
    StronglySorted Z.lt (concat (leaves tr)) /\
    concat (leaves tr) ≡ₚ [3; 1; 5; 2; 4].
Proof.
  apply (structure_after_inserts 2 [3; 1; 5; 2; 4]).
  - lia.
  - apply (bool_decide_unpack (NoDup [3; 1; 5; 2; 4])). vm_compute. exact I.
  - simpl. lia.
Defined.

(** ** Deletion while the index is a single leaf *)

Lemma apply_ops_app fuel os1 os2 :
  forall self h,
    apply_ops fuel self (os1 ++ os2) h =
    bind (apply_ops fuel self os1) (fun s => apply_ops fuel s os2) h.
Proof.
  induction os1 as [|o os1 IH]; intros self h; [done|].
  simpl. unfold bind.
  destruct (apply_op fuel self o h) as [s h'|]; [|done].
  rewrite IH. done.
Qed.

Lemma run_app {A} fuel t0 os1 os2 (q : BPlusTree -> M A) :
  run fuel t0 (os1 ++ os2) q =
  run fuel t0 os1 (fun s => bind (apply_ops fuel s os2) q).
Proof.
  unfold run. unfold bind.
  destruct (new t0 []) as [s h|]; [|done].
  rewrite apply_ops_app. unfold bind.
  destruct (apply_ops fuel s os1 h) as [s' h'|]; done.
Qed.

Lemma filter_all {A} (P : A -> Prop) `{!forall x, Decision (P x)} (l : list A) :
  Forall P l -> filter P l = l.
Proof.
  induction 1 as [|x l Hx _ IH]; [done|]. rewrite filter_cons_True by done.
  by rewrite IH.
Qed.

Lemma remove_at_sorted (l : list Z) i k :
  StronglySorted Z.lt l -> l !! i = Some k ->
  take i l ++ drop (S i) l = filter (fun x => x <> k) l.
Proof.
  intros Hs Hi. pose proof (take_drop_middle _ _ _ Hi) as Hl.
  rewrite <- Hl in Hs.
  trans (filter (fun x => x <> k) (take i l ++ k :: drop (S i) l));
    [|by rewrite Hl].
  apply StronglySorted_app in Hs as (Hlr & _ & Hr).
  apply StronglySorted_cons in Hr as [Hall _].
  rewrite filter_app, filter_cons_False by (intros H; by apply H).
  rewrite !filter_all; [done| |].
  - eapply Forall_impl; [exact Hall|]. simpl. lia.
  - apply Forall_forall. intros x Hx.
    assert (x < k); [|lia]. apply Hlr; [done|by left].
Qed.

Lemma set_keys_same n : set_keys (keys n) n = n.
Proof. by destruct n. Qed.

(** [delete] on an index whose root is a sorted leaf. *)
Lemma delete_leaf_root fuel self k h n :
  h !! root self = Some n -> leaf n = true ->
  StronglySorted Z.lt (keys n) ->
  delete (S fuel) self k h =
  Ret self (<[root self:=set_keys (filter (fun x => x <> k) (keys n)) n]> h).
Proof.
  intros Hr Hlf Hs. unfold delete. cbn [delete_internal].
  unfold bind at 1. unfold bind at 1. rewrite (load_Ret _ _ _ Hr). rewrite Hlf.
  pose proof (scan_up_sorted k (keys n) Hs) as Hiff.
  destruct (keys n !! scan_up k (keys n)) as [ki|] eqn:Hki.
  - destruct (Z.eqb_spec ki k) as [->|Hne].
    + rewrite (update_Ret _ _ _ _ Hr).
      rewrite (remove_at_sorted _ _ _ Hs Hki).
      erewrite (bind_Ret (load _)).
      2:{ apply load_Ret. apply list_lookup_insert_eq. by eapply lookup_lt_Some. }
      simpl. rewrite Hlf. by rewrite andb_false_r.
    + rewrite filter_all.
      2:{ apply Forall_forall. intros x Hx ->. apply Hiff in Hx. congruence. }
      rewrite set_keys_same, list_insert_id by done.
      unfold ret at 1. step. rewrite Hlf. by rewrite andb_false_r.
  - rewrite filter_all.
    2:{ apply Forall_forall. intros x Hx ->. apply Hiff in Hx. congruence. }
    rewrite set_keys_same, list_insert_id by done.
    unfold ret at 1. step. rewrite Hlf. by rewrite andb_false_r.
Qed.

(** Up to [2t - 1] insertions leave the index a single leaf. *)
Lemma insert_all_tree_small t0 fuel :
  forall ks acc,
    Z.of_nat (length acc + length ks) <= 2 * t0 - 1 ->
    insert_all_tree (S fuel) t0 (Leaf acc) ks <> None ->
    exists l, insert_all_tree (S fuel) t0 (Leaf acc) ks = Some (Leaf l).
Proof.
  induction ks as [|k ks IH]; intros acc Hlen Hsome; [by eexists|].
  simpl in *. unfold insert_tree in *. simpl in *.
  destruct (ks) eqn:?; simpl in Hlen;
  (destruct (Z.eqb_spec (Py.len acc) (2 * t0 - 1)) as [Hfull|_];
    [unfold Py.len in Hfull; lia|]).
  - by eexists.
  - subst ks. apply IH; [|done].
    rewrite (Permutation_length (insert_in_leaf_perm k acc)). simpl in *. lia.
Qed.

(** X5: while the index is a single leaf (at most [2 t0 - 1] distinct keys
    were inserted), [delete k] removes [k] and nothing else: a range query
    after it returns, in ascending order, the inserted keys within the
    bounds that differ from [k].  For a key that was not inserted the
    deletion changes nothing. *)
Theorem delete_in_single_leaf_index (t0 : Z) (ks : list Z) (k lo hi : Z) :
  2 <= t0 -> NoDup ks -> Z.of_nat (length ks) <= 2 * t0 - 1 ->
  forall fuel, (S (length ks) < fuel)%nat ->
    exists res,
      result_of (run fuel t0 ((Insert <$> ks) ++ [Delete k])
                   (fun self => range_query fuel self lo hi)) = inr res /\
      StronglySorted Z.lt res /\
      forall x, x ∈ res <-> x ∈ ks /\ x <> k /\ lo <= x <= hi.
Proof.
  intros Ht Hnd Hsmall fuel Hfuel.
  destruct (after_inserts t0 ks Ht Hnd)
    as (tr & d & Hwf & Hd & Hperm & Hrun).
  destruct (Hrun fuel ltac:(lia)) as (Hpure & h & self & f & fp & Hrep & _ & Hq).
  destruct fuel as [|fuel]; [lia|].
  destruct (insert_all_tree_small t0 fuel ks [] ltac:(simpl; lia)
              ltac:(by rewrite Hpure)) as (l & Hl).
  rewrite Hpure in Hl. inversion Hl; subst tr; clear Hl.
  destruct d as [|d]; [|done]. simpl in Hwf. destruct Hwf as (Hs & _ & _).
  rewrite flat_leaf in Hperm.
  apply rep_leaf_inv in Hrep as (n & Hr & Hlf & Hk & -> & Hnx & ->).
  subst l.
  set (l' := filter (fun x => x <> k) (keys n)).
  set (h' := <[root self:=set_keys l' n]> h).
  assert (Hrep' : rep h' (root self) (Leaf l') (Some (root self)) None {[root self]}).
  { eapply rep_leaf' with (n := set_keys l' n); [|exact Hlf|done|exact Hnx].
    subst h'. apply list_lookup_insert_eq. by eapply lookup_lt_Some. }
  assert (Hwf' : wf O None None (Leaf l')).
  { simpl. split; [by apply filter_sorted|]. split; [|done].
    apply Forall_forall. done. }
  exists (filter (fun x => lo <= x <= hi) l'). split; [|split].
  - rewrite run_app, Hq. simpl. unfold bind at 1. unfold bind at 1.
    rewrite (delete_leaf_root fuel self k h n Hr Hlf Hs). fold l' h'.
    unfold ret at 1.
    erewrite range_query_rep; [done|exact Hrep'| |simpl; lia].
    rewrite (range_query_tree_wf O _ lo hi (S fuel) Hwf') by lia.
    by rewrite flat_leaf.
  - apply filter_sorted. by apply filter_sorted.
  - intros x. subst l'. rewrite !list_elem_of_filter, Hperm. tauto.
Qed.

Lemma delete_in_single_leaf_index_witness :
  exists res,
    result_of (run 5 3 ((Insert <$> [4; 1; 3]) ++ [Delete 3])
                 (fun self => range_query 5 self 0 10)) = inr res /\
    StronglySorted Z.lt res /\
    forall x, x ∈ res <-> x ∈ [4; 1; 3] /\ x <> 3 /\ 0 <= x <= 10.
Proof.
  apply (delete_in_single_leaf_index 3 [4; 1; 3] 3 0 10).
  - lia.
  - apply (bool_decide_unpack (NoDup [4; 1; 3])). vm_compute. exact I.
  - simpl. lia.
  - simpl. lia.
Defined.

(** ** [_get_pred] and [_get_succ] on the trees insertion builds *)

Lemma get_last {A} (l : list A) : Py.get l (-1) = last l.
Proof.
  unfold Py.get. simpl. rewrite last_lookup.
  destruct l as [|x l]; [done|].
  destruct (Z.leb_spec (- Z.of_nat (length (x :: l))) (-1)) as [_|H];
    [|simpl in H; lia].
  f_equal. simpl length. lia.
Qed.

Lemma forest_last P lo ks hi cs :
  forest P lo ks hi cs -> exists c l, last cs = Some c /\ P l hi c.
Proof.
  revert lo ks. induction cs as [|c cs IH]; intros lo ks H; [done|].
  simpl in H. destruct ks as [|k ks].
  - destruct H as [-> H]. by exists c, lo.
  - destruct H as [_ H]. destruct (IH _ _ H) as (c' & l & Hl & Hc').
    exists c', l. split; [|done]. destruct cs; [done|]. exact Hl.
Qed.

Lemma forest_first P lo ks hi cs :
  forest P lo ks hi cs ->
  exists c u, cs !! O = Some c /\ P lo u c /\
              (u = hi \/ exists k, u = Some k).
Proof.
  destruct cs as [|c cs]; [done|]. simpl. destruct ks as [|k ks].
  - intros [_ H]. exists c, hi. eauto.
  - intros [H _]. exists c, (Some k). eauto.
Qed.

(** The last key below a node bounded by [u] is [u] itself. *)
Lemma last_key_rep u :
  forall d x tr h f nx fp lo,
    rep h x tr f nx fp -> wf d lo (Some u) tr ->
    forall fuel, (d < fuel)%nat -> last_key fuel x h = Ret u h.
Proof.
  induction d as [|d IH]; intros x [ks|ks ts] h f nx fp lo Hrep Hwf [|fuel] Hf;
    simpl in Hwf; try done; try lia.
  - apply rep_leaf_inv in Hrep as (n & Hx & Hlf & <- & _).
    destruct Hwf as (_ & _ & Hl). simpl. step. rewrite Hlf.
    rewrite get_last, (Hl u eq_refl). done.
  - destruct Hwf as [_ Hforest].
    destruct (forest_last _ _ _ _ _ Hforest) as (tc & l & Hlast & Hc).
    apply rep_node_inv in Hrep as (n & fp0 & Hx & Hlf & _ & Hcs & _).
    pose proof (reps_length _ _ _ _ _ _ Hcs) as Hlen.
    destruct (last (children n)) as [c|] eqn:Hcl.
    2:{ apply last_None in Hcl. rewrite Hcl in Hlen.
        destruct ts; [done|]. done. }
    pose proof Hcl as Hci. rewrite last_lookup in Hci.
    destruct (reps_focus _ _ _ _ _ _ _ _ Hcs Hci)
      as (tc' & m1 & m2 & _ & fpc & _ & Hti & Hrc & _).
    rewrite Hlen, <- last_lookup, Hlast in Hti. inversion Hti; subst tc'.
    simpl. step. rewrite Hlf. rewrite get_last, Hcl. simpl.
    unfold bind at 1. simpl. apply (IH _ _ _ _ _ _ _ Hrc Hc). lia.
Qed.

(** The first key below a node. *)
Lemma first_key_rep t0 :
  2 <= t0 ->
  forall d x tr h f nx fp lo hi,
    rep h x tr f nx fp -> wf d lo hi tr -> sized t0 tr ->
    (hi = None -> 1 <= Py.len (tkeys tr)) ->
    forall fuel, (d < fuel)%nat ->
      exists s, first_key fuel x h = Ret s h /\ head (flat tr) = Some s.
Proof.
  intros Ht.
  induction d as [|d IH];
    intros x [ks|ks ts] h f nx fp lo hi Hrep Hwf Hsz Hne [|fuel] Hf;
    simpl in Hwf; try done; try lia.
  - apply rep_leaf_inv in Hrep as (n & Hx & Hlf & <- & _).
    destruct Hwf as (_ & _ & Hl). rewrite flat_leaf.
    destruct (keys n) as [|s ks] eqn:Hk.
    { exfalso. destruct hi as [u|]; [by specialize (Hl u eq_refl)|].
      specialize (Hne eq_refl). simpl in Hne. unfold Py.len in Hne.
      simpl in Hne. lia. }
    exists s. split; [|done]. simpl. step. by rewrite Hlf, Hk.
  - destruct Hwf as [_ Hforest].
    destruct (forest_first _ _ _ _ _ Hforest) as (tc & u & Hti & Hc & Hu).
    destruct (rep_descend _ _ _ _ _ _ _ _ _ Hrep Hti)
      as (n & c & m1 & m2 & fpc & Hx & Hlf & _ & Hci & Hrc & _).
    inversion Hsz as [|? ? Hall]; subst.
    pose proof (proj1 (Forall_lookup _ _) Hall _ _ Hti) as [Hsc Hbc].
    destruct (IH _ _ _ _ _ _ _ _ Hrc Hc Hsc ltac:(lia) fuel ltac:(lia))
      as (s & Hrun & Hhead).
    exists s. split.
    + simpl. step. rewrite Hlf. step. exact Hrun.
    + rewrite flat_node. destruct ts as [|t1 ts]; [done|].
      inversion Hti; subst t1. simpl.
      destruct (flat tc); [done|]. done.
Qed.

(** X6: after inserting the distinct keys [ks] into a new index of minimum
    degree [t0 >= 2], the root is an internal node as soon as [2 t0] keys
    were inserted, and for each of its keys [s], at position [i]:
    [_get_pred(root, i)] returns [s] itself, the last key of the subtree
    on its left, and [_get_succ(root, i)] returns the smallest inserted
    key greater than [s].  Neither call changes the store. *)
Theorem pred_succ_after_inserts (t0 : Z) (ks : list Z) :
  2 <= t0 -> NoDup ks ->
  forall fuel, (length ks < fuel)%nat ->
    exists self h n,
      run fuel t0 (Insert <$> ks) ret = Ret self h /\
      h !! root self = Some n /\
      (2 * t0 <= Z.of_nat (length ks) -> leaf n = false) /\
      (leaf n = false ->
       forall i s, keys n !! i = Some s ->
         get_pred fuel (root self) i h = Ret s h /\
         exists s',
           get_succ fuel (root self) i h = Ret s' h /\
           s' ∈ ks /\ s < s' /\
           forall x, x ∈ ks -> s < x -> s' <= x).
Proof.
  intros Ht Hnd fuel Hfuel.
  destruct (after_inserts t0 ks Ht Hnd)
    as (tr & d & Hwf & Hd & Hperm & Hrun).
  destruct (Hrun fuel Hfuel) as (Hpure & h & self & f & fp & Hrep & _ & Hq).
  destruct (insert_all_tree_sized t0 fuel Ht ks (Leaf []) tr Hpure) as [Hsz Hb].
  { constructor. }
  { unfold Py.len. simpl. lia. }
  destruct (rep_inv_keys _ _ _ _ _ _ Hrep) as (n & Hn & Hkeys & Hleaf).
  exists self, h, n. split; [by rewrite Hq|]. split; [done|]. split.
  { intros Hmany. rewrite Hleaf. destruct tr as [l|]; [|done].
    rewrite flat_leaf in Hperm. simpl in Hb. unfold Py.len in Hb.
    rewrite (Permutation_length Hperm) in Hb. lia. }
  intros Hint i s Hi. rewrite Hleaf in Hint.
  destruct tr as [|rks cs]; [done|]. simpl in Hkeys. subst rks.
  destruct d as [|d]; [done|]. simpl in Hwf. destruct Hwf as [_ Hforest].
  pose proof (forest_length _ _ _ _ _ Hforest) as Hlen.
  pose proof (lookup_lt_Some _ _ _ Hi) as Hilt.
  (* the child on the left of the separator *)
  destruct (cs !! i) as [tc|] eqn:Hti.
  2:{ apply lookup_ge_None in Hti. lia. }
  destruct (forest_focus _ _ _ _ _ _ _ Hforest Hti) as (l & u & _ & Hu & Hc & _).
  rewrite lookup_app_l in Hu by (rewrite length_fmap; lia).
  rewrite list_lookup_fmap, Hi in Hu. inversion Hu; subst u; clear Hu.
  destruct (rep_descend _ _ _ _ _ _ _ _ _ Hrep Hti)
    as (n1 & c & m1 & m2 & fpc & Hn1 & _ & _ & Hci & Hrc & _).
  rewrite Hn in Hn1. inversion Hn1; subst n1; clear Hn1.
  split.
  { unfold get_pred. step. step.
    apply (last_key_rep s d _ _ _ _ _ _ _ Hrc Hc). lia. }
  (* the child on its right *)
  destruct (cs !! S i) as [tc'|] eqn:Hti'.
  2:{ apply lookup_ge_None in Hti'. lia. }
  destruct (forest_focus _ _ _ _ _ _ _ Hforest Hti') as (l' & u' & _ & _ & Hc' & _).
  destruct (rep_descend _ _ _ _ _ _ _ _ _ Hrep Hti')
    as (n1 & c' & m1' & m2' & fpc' & Hn1 & _ & _ & Hci' & Hrc' & _).
  rewrite Hn in Hn1. inversion Hn1; subst n1; clear Hn1.
  inversion Hsz as [|? ? Hall]; subst.
  pose proof (proj1 (Forall_lookup _ _) Hall _ _ Hti') as [Hsc' Hbc'].
  destruct (first_key_rep t0 Ht _ _ _ _ _ _ _ _ _ Hrc' Hc' Hsc' ltac:(lia)
              fuel ltac:(lia)) as (s' & Hrun' & Hhead).
  exists s'. split.
  { unfold get_succ. step. step. exact Hrun'. }
  assert (Hgood : forest (fun l u c => good l u (flat c)) None
                    (keys n) None cs).
  { eapply forest_impl; [|exact Hforest]. intros ? ? ?. apply wf_good. }
  destruct (forest_cut _ _ _ _ _ _ _ Hgood Hi) as [H1 H2].
  apply forest_good in H1 as (_ & Hb1 & _).
  apply forest_good in H2 as (Hs2 & Hb2 & _).
  rewrite (drop_S _ _ _ Hti') in Hs2, Hb2. simpl in Hs2, Hb2.
  assert (Hflat : flat (Node (keys n) cs) =
                  concat (map flat (take (S i) cs)) ++
                  flat tc' ++ concat (map flat (drop (S (S i)) cs))).
  { rewrite flat_node. rewrite <- (take_drop (S i) cs) at 1.
    rewrite map_app, concat_app. by rewrite (drop_S _ _ _ Hti'). }
  destruct (flat tc') as [|s0 rest] eqn:Hftc; [done|].
  inversion Hhead; subst s0; clear Hhead. simpl in Hs2, Hb2.
  apply StronglySorted_cons in Hs2 as [Hall2 _].
  apply Forall_cons in Hb2 as [[Hss' _] _]. simpl in Hss'.
  split; [|split; [done|]].
  - rewrite <- Hperm, Hflat. set_solver.
  - intros x Hx Hsx. rewrite <- Hperm, Hflat in Hx.
    apply elem_of_app in Hx as [Hx|Hx].
    + rewrite Forall_forall in Hb1. apply Hb1 in Hx as [_ Hx].
      simpl in Hx. lia.
    + simpl in Hx. apply elem_of_cons in Hx as [->|Hx]; [lia|].
      rewrite Forall_forall in Hall2. apply Hall2 in Hx. lia.
Qed.

Lemma pred_succ_after_inserts_witness :
  exists self h n,
    run 6 2 (Insert <$> [3; 1; 5; 2; 4]) ret = Ret self h /\
    h !! root self = Some n /\
    (2 * 2 <= Z.of_nat (length [3; 1; 5; 2; 4]) -> leaf n = false) /\
    (leaf n = false ->
     forall i s, keys n !! i = Some s ->
       get_pred 6 (root self) i h = Ret s h /\
       exists s',
         get_succ 6 (root self) i h = Ret s' h /\
         s' ∈ [3; 1; 5; 2; 4] /\ s < s' /\
         forall x, x ∈ [3; 1; 5; 2; 4] -> s < x -> s' <= x).
Proof.
  apply (pred_succ_after_inserts 2 [3; 1; 5; 2; 4]).
  - lia.
  - apply (bool_decide_unpack (NoDup [3; 1; 5; 2; 4])). vm_compute. exact I.
  - simpl. lia.
Defined.

(** ** [print_tree] lists the tree in pre-order *)

Example show_line_sample :
  show_line 2 [1; -20; 0; 345] = "Level 2: [1, -20, 0, 345]".
Proof. vm_compute. reflexivity. Qed.

Lemma print_children_rep h x n level (print : addr -> list string -> M (list string))
    d ts f nx fp :
  h !! x = Some n ->
  reps h (children n) ts f nx fp ->
  Forall (balanced d) ts ->
  (forall c tc m1 m2 fpc out,
      rep h c tc m1 m2 fpc -> balanced d tc ->
      print c out h = Ret (out ++ lines level tc) h) ->
  forall k j out,
    (j + k = length (children n))%nat ->
    for_each (fun i out =>
                nx <- load x ;;
                c <- index_or_raise (children nx !! i) ;;
                print c out) (seq j k) out h =
    Ret (out ++ concat (map (lines level) (drop j ts))) h.
Proof.
  intros Hx Hcs Hbal Hprint.
  pose proof (reps_length _ _ _ _ _ _ Hcs) as Hlen.
  induction k as [|k IH]; intros j out Hj; simpl.
  - rewrite drop_ge by lia. simpl. by rewrite app_nil_r.
  - destruct (children n !! j) as [c|] eqn:Hcj.
    2:{ apply lookup_ge_None in Hcj. lia. }
    destruct (reps_focus _ _ _ _ _ _ _ _ Hcs Hcj)
      as (tc & m1 & m2 & _ & fpc & _ & Htj & Hrc & _).
    pose proof (proj1 (Forall_lookup _ _) Hbal _ _ Htj) as Hbc.
    unfold bind at 1. step. step.
    rewrite (Hprint _ _ _ _ _ _ Hrc Hbc).
    rewrite IH by lia. rewrite (drop_S _ _ _ Htj). simpl.
    by rewrite app_assoc.
Qed.

Lemma print_internal_rep :
  forall d fuel x tr h f nx fp level out,
    rep h x tr f nx fp -> balanced d tr -> (d < fuel)%nat ->
    print_internal fuel x level out h = Ret (out ++ lines level tr) h.
Proof.
  induction d as [|d IH];
    intros [|fuel] x [ks|ks ts] h f nx fp level out Hrep Hbal Hf;
    simpl in Hbal; try done; try lia.
  - apply rep_leaf_inv in Hrep as (n & Hx & Hlf & <- & _).
    simpl. step. by rewrite Hlf.
  - apply rep_node_inv in Hrep as (n & fp0 & Hx & Hlf & <- & Hcs & _).
    simpl. step. rewrite Hlf. simpl.
    rewrite (print_children_rep h x n (S level)
               (fun c out => print_internal fuel c (S level) out)
               d ts _ _ _ Hx Hcs Hbal).
    + rewrite drop_0. by rewrite <- app_assoc.
    + intros c tc m1 m2 fpc out' Hrc Hbc. apply (IH _ _ _ _ _ _ _ _ _ Hrc Hbc). lia.
    + lia.
Qed.

(** X7: after inserting distinct keys into a new index of minimum degree
    [t0 >= 2], [print_tree] prints one line per node of the tree the store
    holds, with the depth of the node and its keys, a node before its
    children and the children from left to right; the store is left as it
    was. *)
Theorem print_tree_after_inserts (t0 : Z) (ks : list Z) :
  2 <= t0 -> NoDup ks ->
  forall fuel, (length ks < fuel)%nat ->
    exists self h tr f fp,
      run fuel t0 (Insert <$> ks) ret = Ret self h /\
      rep h (root self) tr f None fp /\
      run fuel t0 (Insert <$> ks) (print_tree fuel) = Ret (lines 0 tr) h.
Proof.
  intros Ht Hnd fuel Hfuel.
  destruct (after_inserts t0 ks Ht Hnd)
    as (tr & d & Hwf & Hd & Hperm & Hrun).
  destruct (Hrun fuel Hfuel) as (_ & h & self & f & fp & Hrep & _ & Hq).
  exists self, h, tr, f, fp. split; [by rewrite Hq|]. split; [done|].
  rewrite Hq. unfold print_tree.
  apply (print_internal_rep d _ _ _ _ _ _ _ O [] Hrep); [|lia].
  by eapply wf_balanced.
Qed.

Lemma print_tree_after_inserts_witness :
  exists self h tr f fp,
    run 6 2 (Insert <$> [3; 1; 5; 2; 4]) ret = Ret self h /\
    rep h (root self) tr f None fp /\
    run 6 2 (Insert <$> [3; 1; 5; 2; 4]) (print_tree 6) = Ret (lines 0 tr) h.
Proof.
  apply (print_tree_after_inserts 2 [3; 1; 5; 2; 4]).
  - lia.
  - apply (bool_decide_unpack (NoDup [3; 1; 5; 2; 4])). vm_compute. exact I.
  - simpl. lia.
Defined.

(** ** [delete] adds no key and no object *)

Section keeps.
Variable h0 : heap.

Lemma known_nil : known h0 [].
Proof. intros k Hk. by inversion Hk. Qed.

Lemma known_sub ks ks' : ks' ⊆ ks -> known h0 ks -> known h0 ks'.
Proof. intros Hsub Hk k Hin. apply Hk. by apply Hsub. Qed.

Lemma known_app ks ks' : known h0 ks -> known h0 ks' -> known h0 (ks ++ ks').
Proof. intros H1 H2 k Hin. apply elem_of_app in Hin as [?|?]; eauto. Qed.

Lemma known_cons k ks : known h0 [k] -> known h0 ks -> known h0 (k :: ks).
Proof. intros H1 H2. by apply (known_app [k] ks). Qed.

Lemma known_elem k ks : known h0 ks -> k ∈ ks -> known h0 [k].
Proof. intros H Hin k' Hk'. apply list_elem_of_singleton in Hk' as ->. eauto. Qed.

Lemma known_get ks i k : known h0 ks -> Py.get ks i = Some k -> known h0 [k].
Proof.
  intros H Hget. apply (known_elem k ks H). unfold Py.get in Hget.
  destruct (0 <=? i); [by eapply list_elem_of_lookup_2|].
  destruct (_ <=? i); [by eapply list_elem_of_lookup_2|done].
Qed.

Lemma known_remove ks (n : nat) : known h0 ks -> known h0 (take n ks ++ drop (S n) ks).
Proof.
  intros H. apply known_app; eapply known_sub; try exact H.
  - apply subseteq_take.
  - apply subseteq_drop.
Qed.

Lemma known_pop ks i k rest :
  known h0 ks -> Py.pop ks i = Some (k, rest) -> known h0 [k] /\ known h0 rest.
Proof.
  intros H Hpop. unfold Py.pop in Hpop.
  destruct (Py.get ks i) as [x|] eqn:Hget; [|done].
  inversion Hpop; subst. split; [by eapply known_get|by apply known_remove].
Qed.

Lemma known_set ks i k ks' :
  known h0 ks -> known h0 [k] -> Py.set ks i k = Some ks' -> known h0 ks'.
Proof.
  intros H Hk Hset. unfold Py.set in Hset.
  destruct (Py.get ks i) as [x|]; [|done]. inversion Hset; subst; clear Hset.
  intros y Hy. apply list_elem_of_lookup_1 in Hy as [j Hj].
  apply list_lookup_insert_Some in Hj as [(_ & <- & _)|[_ Hj]].
  - apply Hk. by left.
  - apply H. by eapply list_elem_of_lookup_2.
Qed.

Lemma known_insert ks i k :
  known h0 ks -> known h0 [k] -> known h0 (Py.insert ks i k).
Proof.
  intros H Hk. unfold Py.insert. apply known_app.
  - eapply known_sub; [apply subseteq_take|done].
  - apply known_cons; [done|]. eapply known_sub; [apply subseteq_drop|done].
Qed.

Lemma within_refl : within h0 h0.
Proof.
  split; [done|]. intros a n Ha. split; [by exists n|].
  intros k Hk. by exists a, n.
Qed.

Lemma keeps_ret {A} (a : A) (Q : A -> Prop) : Q a -> keeps h0 (ret a) Q.
Proof. intros HQ h Hh. done. Qed.

Lemma keeps_raise {A} e (Q : A -> Prop) : keeps h0 (raise e) Q.
Proof. intros h Hh. done. Qed.

Lemma keeps_bind {A B} (m : M A) (f : A -> M B) (Q : A -> Prop) (R : B -> Prop) :
  keeps h0 m Q -> (forall a, Q a -> keeps h0 (f a) R) -> keeps h0 (bind m f) R.
Proof.
  intros Hm Hf h Hh. unfold bind. specialize (Hm h Hh).
  destruct (m h) as [a h'|]; [|done]. destruct Hm as [Hh' Ha].
  by apply Hf.
Qed.

Lemma keeps_weaken {A} (m : M A) (Q R : A -> Prop) :
  keeps h0 m Q -> (forall a, Q a -> R a) -> keeps h0 m R.
Proof.
  intros Hm HQR h Hh. specialize (Hm h Hh).
  destruct (m h) as [a h'|]; [|done]. naive_solver.
Qed.

Lemma keeps_load a : keeps h0 (load a) (fun n => known h0 (keys n)).
Proof.
  intros h Hh. unfold load. destruct (h !! a) as [n|] eqn:Ha; [|done].
  split; [done|]. by apply (proj2 Hh a n).
Qed.

Lemma keeps_index {A} (o : option A) :
  keeps h0 (index_or_raise o) (fun a => o = Some a).
Proof. intros h Hh. by destruct o. Qed.

Lemma keeps_update a (f : BPlusNode -> BPlusNode) :
  (forall n, known h0 (keys n) -> known h0 (keys (f n)) /\ leaf (f n) = leaf n) ->
  keeps h0 (update a f) (fun _ => True).
Proof.
  intros Hf h [Hlen Hh]. unfold update.
  destruct (h !! a) as [n|] eqn:Ha; [|done].
  split; [|done]. split; [by rewrite length_insert|].
  intros b n' Hb. apply list_lookup_insert_Some in Hb as [(<- & <- & _)|[_ Hb]].
  - destruct (Hh a n Ha) as [(n0 & Hn0 & Hl) Hk].
    destruct (Hf n Hk) as [Hk' Hl']. split; [|done].
    exists n0. split; [done|]. congruence.
  - by apply Hh.
Qed.

Ltac kbind lem a Ha :=
  eapply keeps_bind; [apply lem|]; intros a Ha; cbv beta in Ha.
Ltac kload n Hn := kbind keeps_load n Hn.
Ltac kindex a Ha := kbind keeps_index a Ha.
Ltac kupdate :=
  eapply keeps_bind;
  [apply keeps_update; intros ? ?; simpl; split; [|done]|intros _ _].

Lemma keeps_last_key fuel :
  forall cur, keeps h0 (last_key fuel cur) (fun k => known h0 [k]).
Proof.
  induction fuel as [|fuel IH]; intros cur; [apply keeps_raise|]. simpl.
  kload n Hn. destruct (leaf n).
  - eapply keeps_weaken; [apply keeps_index|]. intros k Hk; cbv beta in Hk.
    by eapply known_get.
  - kindex c Hc. apply IH.
Qed.

Lemma keeps_first_key fuel :
  forall cur, keeps h0 (first_key fuel cur) (fun k => known h0 [k]).
Proof.
  induction fuel as [|fuel IH]; intros cur; [apply keeps_raise|]. simpl.
  kload n Hn. destruct (leaf n).
  - eapply keeps_weaken; [apply keeps_index|]. intros k Hk; cbv beta in Hk.
    eapply known_elem; [exact Hn|]. by eapply list_elem_of_lookup_2.
  - kindex c Hc. apply IH.
Qed.

Lemma keeps_get_pred fuel x i :
  keeps h0 (get_pred fuel x i) (fun k => known h0 [k]).
Proof.
  unfold get_pred. kload n Hn. kindex c Hc. apply keeps_last_key.
Qed.

Lemma keeps_get_succ fuel x i :
  keeps h0 (get_succ fuel x i) (fun k => known h0 [k]).
Proof.
  unfold get_succ. kload n Hn. kindex c Hc. apply keeps_first_key.
Qed.

Lemma keeps_child_has_spare t0 n j :
  keeps h0 (child_has_spare t0 n j) (fun _ => True).
Proof.
  unfold child_has_spare. kindex c Hc. kload nc Hnc. by apply keeps_ret.
Qed.

Lemma keeps_borrow_from_prev x i :
  keeps h0 (borrow_from_prev x i) (fun _ => True).
Proof.
  unfold borrow_from_prev.
  kload nx Hnx. kindex child Hchild. kindex sibling Hsibling. kindex sep Hsep.
  kupdate.
  { apply known_insert; [done|]. exact (known_get _ _ _ Hnx Hsep). }
  kload ns Hns. kindex p Hp. destruct p as [lst rest].
  destruct (known_pop _ _ _ _ Hns Hp) as [Hlst Hrest].
  kupdate; [done|]. kload nx' Hnx'. kindex ks Hks. kupdate.
  { exact (known_set _ _ _ _ Hnx' Hlst Hks). }
  kload nc Hnc. destruct (negb (leaf nc)); [|by apply keeps_ret].
  kload ns' Hns'. kindex q Hq. destruct q as [c rest'].
  kupdate; [done|]. by apply keeps_update.
Qed.

Lemma keeps_borrow_from_next x i :
  keeps h0 (borrow_from_next x i) (fun _ => True).
Proof.
  unfold borrow_from_next.
  kload nx Hnx. kindex child Hchild. kindex sibling Hsibling. kindex sep Hsep.
  kupdate.
  { apply known_app; [done|]. eapply known_elem; [exact Hnx|].
    by eapply list_elem_of_lookup_2. }
  kload ns Hns. kindex p Hp. destruct p as [fst rest].
  destruct (known_pop _ _ _ _ Hns Hp) as [Hfst Hrest].
  kupdate; [done|]. kload nx' Hnx'. kindex ks Hks. kupdate.
  { exact (known_set _ _ _ _ Hnx' Hfst Hks). }
  kload nc Hnc. destruct (negb (leaf nc)); [|by apply keeps_ret].
  kload ns' Hns'. kindex q Hq. destruct q as [c rest'].
  kupdate; [done|]. by apply keeps_update.
Qed.

Lemma keeps_merge x i : keeps h0 (merge x i) (fun _ => True).
Proof.
  unfold merge.
  kload nx Hnx. kindex child Hchild. kindex sibling Hsibling. kindex sep Hsep.
  kupdate.
  { apply known_app; [done|]. eapply known_elem; [exact Hnx|].
    by eapply list_elem_of_lookup_2. }
  kload ns Hns. kupdate.
  { by apply known_app. }
  kload nc Hnc. eapply keeps_bind with (Q := fun _ => True).
  { destruct (negb (leaf nc)); [|by apply keeps_ret].
    kload ns' Hns'. by apply keeps_update. }
  intros _ _. kload nx' Hnx'. kindex p Hp. destruct p as [k0 ks].
  destruct (known_pop _ _ _ _ Hnx' Hp) as [_ Hks].
  kupdate; [done|]. kload nx'' Hnx''. kindex q Hq. destruct q as [c0 cs].
  kupdate; [done|]. kload ns' Hns'. by apply keeps_update.
Qed.

Lemma keeps_delete_internal t0 fuel :
  (forall x k, keeps h0 (delete_internal fuel t0 x k) (fun _ => True)) /\
  (forall x k i,
      keeps h0 (delete_from_internal_node fuel t0 x k i) (fun _ => True)).
Proof.
  induction fuel as [|fuel [IH1 IH2]]; [split; intros; apply keeps_raise|].
  split.
  - intros x k. simpl. kload nx Hnx.
    destruct (leaf nx).
    { destruct (match keys nx !! _ with Some ki => ki =? k | None => false end);
        [|by apply keeps_ret].
      apply keeps_update. intros n Hn. simpl. split; [|done].
      by apply known_remove. }
    destruct (match keys nx !! _ with Some ki => ki =? k | None => false end);
      [apply IH2|].
    eapply keeps_bind; [apply keeps_child_has_spare|]. intros [|] _.
    { kindex c Hc. apply IH1. }
    eapply keeps_bind with (Q := fun _ => True).
    2:{ intros _ _. kload nx' Hnx'. kindex c Hc. apply IH1. }
    repeat match goal with
           | |- keeps _ (if ?b then _ else _) _ => destruct b
           | |- keeps _ (bind (child_has_spare _ _ _) _) _ =>
               eapply keeps_bind; [apply keeps_child_has_spare|]; intros ? _
           | |- keeps _ (borrow_from_prev _ _) _ => apply keeps_borrow_from_prev
           | |- keeps _ (borrow_from_next _ _) _ => apply keeps_borrow_from_next
           | |- keeps _ (merge _ _) _ => apply keeps_merge
           | |- keeps _ (ret _) _ => by apply keeps_ret
           end.
  - intros x k i. simpl. kload nx Hnx.
    destruct (leaf nx).
    { kindex ki Hki. destruct (ki =? k); [|by apply keeps_ret].
      apply keeps_update. intros n Hn. simpl. split; [|done].
      by apply known_remove. }
    eapply keeps_bind; [apply keeps_child_has_spare|]. intros [|] _.
    { eapply keeps_bind; [apply keeps_get_pred|]. intros p Hp; cbv beta in Hp.
      kload nx' Hnx'. kindex ks Hks. kupdate; [exact (known_set _ _ _ _ Hnx' Hp Hks)|].
      kload nx'' Hnx''. kindex c Hc. kindex ki Hki. apply IH1. }
    eapply keeps_bind; [apply keeps_child_has_spare|]. intros [|] _.
    { eapply keeps_bind; [apply keeps_get_succ|]. intros p Hp; cbv beta in Hp.
      kload nx' Hnx'. kindex ks Hks. kupdate; [exact (known_set _ _ _ _ Hnx' Hp Hks)|].
      kload nx'' Hnx''. kindex c Hc. kindex ki Hki. apply IH1. }
    eapply keeps_bind; [apply keeps_merge|]. intros _ _.
    kload nx' Hnx'. kindex c Hc. apply IH1.
Qed.

End keeps.

(** X8: whenever [delete] returns, in whatever store it was called, the
    minimum degree of the index is unchanged, no object was created, every
    object is of the kind (leaf or internal) it was, and every key a node
    holds was held by some node before the call: the rebalancing moves
    keys between nodes and never makes one up. *)
Theorem delete_adds_nothing (fuel : nat) (self : BPlusTree) (k : Z) (h : heap) :
  match delete fuel self k h with
  | Ret self' h' =>
      t self' = t self /\ length h' = length h /\
      forall a n', h' !! a = Some n' ->
        exists n, h !! a = Some n /\ leaf n' = leaf n /\
          forall x, x ∈ keys n' -> exists b m, h !! b = Some m /\ x ∈ keys m
  | Raise _ => True
  end.
Proof.
  assert (Hk : keeps h (delete fuel self k) (fun self' => t self' = t self)).
  { unfold delete.
    eapply keeps_bind; [apply keeps_delete_internal|]. intros _ _.
    eapply keeps_bind; [apply keeps_load|]. intros r _.
    destruct (_ && _); [|by apply keeps_ret].
    eapply keeps_bind; [apply keeps_index|]. intros c _. by apply keeps_ret. }
  specialize (Hk h (within_refl h)).
  destruct (delete fuel self k h) as [self' h'|]; [|done].
  destruct Hk as [[Hlen Hw] Ht]. split; [done|]. split; [done|].
  intros a n' Ha. destruct (Hw a n' Ha) as [(n & Hn & Hl) Hkn]. eauto.
Qed.

(** ** Repeated keys while the index is a single leaf *)

Lemma insert_in_leaf_sorted_le k ks :
  StronglySorted Z.le ks -> StronglySorted Z.le (insert_in_leaf k ks).
Proof.
  intros Hs. rewrite insert_in_leaf_spec.
  set (j := scan_down k ks (length ks)).
  rewrite <- (take_drop j ks) in Hs.
  apply StronglySorted_app in Hs as (Hlr & Hl & Hr).
  assert (Hab : forall x, x ∈ drop j ks -> k <= x).
  { intros x Hx. apply list_elem_of_lookup in Hx as (i & Hi).
    rewrite lookup_drop in Hi.
    assert (k < x); [|lia].
    eapply (scan_down_above k ks (length ks)); [|exact Hi].
    apply lookup_lt_Some in Hi. fold j. lia. }
  assert (Hbe : forall x, x ∈ take j ks -> x <= k).
  { intros x Hx.
    destruct j as [|j'] eqn:Hj; [by rewrite take_0 in Hx; inversion Hx|].
    destruct (ks !! j') as [y|] eqn:Hy.
    2:{ apply lookup_ge_None in Hy.
        pose proof (scan_down_le k ks (length ks)) as Hle. fold j in Hle. lia. }
    assert (y <= k) by (eapply scan_down_below; [|exact Hj|exact Hy]; lia).
    assert (x <= y); [|lia].
    rewrite (take_S_r _ _ _ Hy) in Hx, Hl.
    apply elem_of_app in Hx as [Hx|Hx].
    - apply StronglySorted_app in Hl as (Hl1 & _).
      apply Hl1; [done|by apply list_elem_of_singleton].
    - apply list_elem_of_singleton in Hx. lia. }
  apply StronglySorted_app. split; [|split; [done|]].
  - intros x1 x2 H1 H2. apply elem_of_cons in H2 as [->|H2]; [by apply Hbe|].
    by apply Hlr.
  - constructor; [done|]. apply Forall_forall. intros x Hx. by apply Hab.
Qed.

(** Up to [2t - 1] insertions leave the index a single leaf. *)
Lemma insert_all_tree_leaf t0 fuel :
  forall ks acc,
    Z.of_nat (length acc + length ks) <= 2 * t0 - 1 ->
    StronglySorted Z.le acc ->
    exists l,
      insert_all_tree (S fuel) t0 (Leaf acc) ks = Some (Leaf l) /\
      StronglySorted Z.le l /\ l ≡ₚ acc ++ ks.
Proof.
  induction ks as [|k ks IH]; intros acc Hlen Hs.
  - exists acc. by rewrite app_nil_r.
  - simpl. unfold insert_tree. simpl.
    destruct (Z.eqb_spec (Py.len acc) (2 * t0 - 1)) as [Hfull|_].
    { unfold Py.len in Hfull. simpl in Hlen. lia. }
    destruct (IH (insert_in_leaf k acc)) as (l & Hl & Hsl & Hp).
    + rewrite (Permutation_length (insert_in_leaf_perm k acc)).
      simpl in *. lia.
    + by apply insert_in_leaf_sorted_le.
    + exists l. split; [done|]. split; [done|].
      rewrite Hp, insert_in_leaf_perm. by rewrite <- Permutation_middle.
Qed.

Lemma scan_leaf_sorted_le lo hi :
  forall ks result,
    StronglySorted Z.le ks ->
    (scan_leaf lo hi ks result).1 =
    result ++ filter (fun k => lo <= k <= hi) ks.
Proof.
  induction ks as [|k ks IH]; intros result Hs; simpl.
  - by rewrite app_nil_r.
  - apply StronglySorted_cons in Hs as [Hall Hs].
    destruct (Z.leb_spec lo k) as [Hlo|Hlo]; simpl.
    + destruct (Z.leb_spec k hi) as [Hhi|Hhi]; simpl.
      * rewrite filter_cons_True by lia. rewrite IH by done.
        by rewrite <- app_assoc.
      * destruct (Z.ltb_spec hi k) as [_|?]; [|lia]. simpl.
        rewrite filter_cons_False by lia.
        rewrite (filter_none _ ks); [by rewrite app_nil_r|].
        eapply Forall_impl; [exact Hall|]. simpl. lia.
    + destruct (Z.ltb_spec hi k) as [Hhi|Hhi]; simpl.
      * rewrite filter_cons_False by lia.
        rewrite (filter_none _ ks); [by rewrite app_nil_r|].
        eapply Forall_impl; [exact Hall|]. simpl. lia.
      * rewrite filter_cons_False by lia. by apply IH.
Qed.

(** X9: [insert] does not look for the key it is given.  While the index
    is a single leaf (at most [2 t0 - 1] insertions, repeated keys
    counted), every insertion succeeds and [range_query lo hi] returns, in
    ascending order, each key within the bounds as many times as it was
    inserted. *)
Theorem repeated_keys_in_single_leaf (t0 : Z) (ks : list Z) (lo hi : Z) :
  Z.of_nat (length ks) <= 2 * t0 - 1 ->
  forall fuel, (1 < fuel)%nat ->
    exists res,
      result_of (run fuel t0 (Insert <$> ks)
                   (fun self => range_query fuel self lo hi)) = inr res /\
      StronglySorted Z.le res /\
      res ≡ₚ filter (fun k => lo <= k <= hi) ks.
Proof.
  intros Hsmall [|fuel] Hfuel; [lia|].
  destruct (new_rep t0) as (Hnew & Hrep & _).
  destruct (insert_all_tree_leaf t0 fuel ks []) as (l & Hl & Hs & Hp).
  { simpl. lia. }
  { constructor. }
  destruct (insert_all_rep (S fuel) ks (mkTree O t0) (Leaf []) (Leaf l) _ _ _
              Hrep Hl) as (h' & self' & fp' & Hins & _ & Hrep').
  exists (filter (fun k => lo <= k <= hi) l). split; [|split].
  - unfold run. unfold bind at 1. rewrite Hnew.
    unfold insert_all in Hins. unfold bind. rewrite Hins.
    erewrite range_query_rep; [done|exact Hrep'| |simpl; lia].
    unfold range_query_tree. simpl.
    pose proof (scan_leaf_sorted_le lo hi l [] Hs) as Hscan.
    destruct (scan_leaf lo hi l []) as [r stop]. simpl in Hscan. subst r.
    by destruct stop.
  - by apply filter_sorted.
  - by rewrite Hp.
Qed.

Lemma repeated_keys_in_single_leaf_witness :
  exists res,
    result_of (run 2 3 (Insert <$> [2; 1; 2; 3; 2])
                 (fun self => range_query 2 self 2 3)) = inr res /\
    StronglySorted Z.le res /\
    res ≡ₚ filter (fun k => 2 <= k <= 3) [2; 1; 2; 3; 2].
Proof.
  apply (repeated_keys_in_single_leaf 3 [2; 1; 2; 3; 2] 2 3).
  - simpl. lia.
  - lia.
Defined.

(** ** Child counts after insertions *)

Lemma forest_snoc P lo ks hi cs :
  forest P lo ks hi cs ->
  exists cs' c,
    cs = cs' ++ [c] /\
    Forall (fun c' => exists l u, P l (Some u) c') cs' /\
    exists l, P l hi c.
Proof.
  revert lo ks. induction cs as [|c0 cs IH]; intros lo ks H; [done|].
  simpl in H. destruct ks as [|k ks].
  - destruct H as [-> H]. exists [], c0. split; [done|].
    split; [constructor|by exists lo].
  - destruct H as [H0 H]. destruct (IH _ _ H) as (cs' & c & -> & Hall & Hc).
    exists (c0 :: cs'), c. split; [done|]. split; [|done].
    constructor; [by exists lo, k|done].
Qed.

Lemma wf_shape d :
  forall lo hi tr,
    wf d lo hi tr ->
    shape (match hi with None => true | Some _ => false end) tr.
Proof.
  induction d as [|d IH]; intros lo hi [ks|ks cs] H; simpl in H; try done.
  - constructor.
  - destruct H as [Hlast Hf].
    pose proof (forest_length _ _ _ _ _ Hf) as Hlen.
    pose proof (seps_length hi ks Hlast) as Hsl.
    destruct (forest_snoc _ _ _ _ _ Hf) as (cs' & c & -> & Hall & l & Hc).
    constructor.
    + rewrite Hlen. destruct hi; lia.
    + eapply Forall_impl; [exact Hall|]. simpl.
      intros c' (l' & u & Hc'). apply (IH _ _ _ Hc').
    + apply (IH _ _ _ Hc).
Qed.

(** X10: in the tree that insertions of distinct keys build (minimum
    degree [t0 >= 2]), an internal node has one child more than keys only
    on the rightmost path from the root; every other internal node has
    exactly as many children as keys. *)
Theorem child_counts_after_inserts (t0 : Z) (ks : list Z) :
  2 <= t0 -> NoDup ks ->
  forall fuel, (length ks < fuel)%nat ->
    exists self h tr f fp,
      run fuel t0 (Insert <$> ks) ret = Ret self h /\
      rep h (root self) tr f None fp /\
      shape true tr.
Proof.
  intros Ht Hnd fuel Hfuel.
  destruct (after_inserts t0 ks Ht Hnd)
    as (tr & d & Hwf & Hd & Hperm & Hrun).
  destruct (Hrun fuel Hfuel) as (_ & h & self & f & fp & Hrep & _ & Hq).
  exists self, h, tr, f, fp. split; [by rewrite Hq|]. split; [done|].
  apply (wf_shape d None None tr Hwf).
Qed.

Lemma child_counts_after_inserts_witness :
  exists self h tr f fp,
    run 11 2 (Insert <$> [1; 2; 3; 4; 5; 6; 7; 8; 9; 10]) ret = Ret self h /\
    rep h (root self) tr f None fp /\
    shape true tr.
Proof.
  apply (child_counts_after_inserts 2 [1; 2; 3; 4; 5; 6; 7; 8; 9; 10]).
  - lia.
  - apply (bool_decide_unpack (NoDup [1; 2; 3; 4; 5; 6; 7; 8; 9; 10])).
    vm_compute. exact I.
  - simpl. lia.
Defined.
